(** * Typing speed test game: the game coordinator of [main.js]

    A shallow embedding of [src/main.js].  The script keeps its state in
    module-level variables and in the page (the text of a few elements, the
    value of the input field); its functions are event handlers that read
    and write both.  The embedding threads one [state] record through a
    small state-and-exception monad, so that each JavaScript function is one
    definition of the same name with the same sequence of statements.

    What the browser provides (strings, [JSON], timers, [localStorage],
    [Math.random]) is modelled in the first part of the file.  The model
    takes the numbers shown in the page as integers, the strings as
    sequences of code units below 256, the options of the level select as
    the three level names of the script, and what the markup gives the
    script to read (the text of the word element, the score shown) as
    parameters of the loaded page. *)

From Stdlib Require Import String Ascii List ZArith NArith Lia Bool Arith PeanoNat.
From Stdlib Require Import DecimalString DecimalPos DecimalFacts.
From Stdlib Require DecimalZ.
Import ListNotations.
Local Open Scope string_scope.
Local Open Scope list_scope.

(** ** JavaScript strings

    A string is a sequence of code units.  The model covers the code units
    0..255 (Basic Latin and Latin-1), which is where the word lists, the
    level names and ordinary keyboard input live. *)

Module JsString.

(** [String.prototype.toLowerCase] on one code unit of that range: the
    letters A-Z and the Latin-1 capitals U+00C0..U+00DE (U+00D7, the
    multiplication sign, is not a letter) move up by 32. *)
Definition lowerUnit (c : ascii) : ascii :=
  let n := nat_of_ascii c in
  if (((65 <=? n) && (n <=? 90)) ||
      ((192 <=? n) && (n <=? 222) && negb (n =? 215)))%nat
  then ascii_of_nat (n + 32) else c.

Fixpoint toLowerCase (s : string) : string :=
  match s with
  | EmptyString => EmptyString
  | String c r => String (lowerUnit c) (toLowerCase r)
  end.

(** [s.startsWith(p)] *)
Definition startsWith (s p : string) : bool := String.prefix p s.

(** [s.slice(0, -1)]: everything but the last code unit. *)
Fixpoint sliceButLast (s : string) : string :=
  match s with
  | EmptyString => EmptyString
  | String c EmptyString => EmptyString
  | String c r => String c (sliceButLast r)
  end.

(** Truthiness of a string: only the empty string is falsy. *)
Definition truthy (s : string) : bool :=
  match s with EmptyString => false | _ => true end.

(** The field's content after one character is typed at caret position
    [pos] (0 = before the first character). *)
Fixpoint typeAt (pos : nat) (c : ascii) (s : string) : string :=
  match pos, s with
  | O, _ => String c s
  | S p, EmptyString => String c EmptyString
  | S p, String d r => String d (typeAt p c r)
  end.

(** [String(n)] for an integer. *)
Definition ofZ (z : Z) : string := NilZero.string_of_int (Z.to_int z).

End JsString.

Import JsString.

(** ** JSON

    [JSON.parse] as a recursive-descent parser over the text, following the
    JSON grammar (ECMA-404), and [JSON.stringify] on the values the model
    can print exactly.  A number keeps its literal: its value as a double is
    not modelled.  A string value is a list of code units, because an
    escape [\uXXXX] can denote any of them. *)

Module Json.

#[local] Set Warnings "-register-all".

Inductive json : Type :=
| JNull
| JBool (b : bool)
| JNumber (lit : string)
| JString (units : list N)
| JArray (items : list json)
| JObject (members : list (list N * json)).

Definition unitsOf (s : string) : list N :=
  map N_of_ascii (list_ascii_of_string s).

Definition quote : ascii := "034"%char.

Definition isWs (c : ascii) : bool :=
  let n := N_of_ascii c in
  ((n =? 32) || (n =? 9) || (n =? 10) || (n =? 13))%N.

Definition isDigit (c : ascii) : bool :=
  let n := N_of_ascii c in ((48 <=? n) && (n <=? 57))%N.

Definition hexVal (c : ascii) : option N :=
  let n := N_of_ascii c in
  if ((48 <=? n) && (n <=? 57))%N then Some (n - 48)%N
  else if ((65 <=? n) && (n <=? 70))%N then Some (n - 55)%N
  else if ((97 <=? n) && (n <=? 102))%N then Some (n - 87)%N
  else None.

Definition hex4 (a b c d : ascii) : option N :=
  match hexVal a, hexVal b, hexVal c, hexVal d with
  | Some x, Some y, Some z, Some w => Some (((x * 16 + y) * 16 + z) * 16 + w)%N
  | _, _, _, _ => None
  end.

Fixpoint skipWs (l : list ascii) : list ascii :=
  match l with
  | c :: r => if isWs c then skipWs r else l
  | [] => []
  end.

Fixpoint stripPrefix (p l : list ascii) : option (list ascii) :=
  match p, l with
  | [], _ => Some l
  | a :: p', b :: l' => if Ascii.eqb a b then stripPrefix p' l' else None
  | _ :: _, [] => None
  end.

(** The characters of a string after its opening quote, up to and
    including the closing quote. *)
Fixpoint lexString (l : list ascii) : option (list N * list ascii) :=
  match l with
  | [] => None
  | c :: r =>
    if Ascii.eqb c quote then Some ([], r)
    else if Ascii.eqb c "\" then
      match r with
      | [] => None
      | e :: r1 =>
        let continue (u : N) (rec : option (list N * list ascii)) :=
          match rec with
          | Some (us, k') => Some (u :: us, k')
          | None => None
          end in
        if Ascii.eqb e quote then continue 34%N (lexString r1)
        else if Ascii.eqb e "\" then continue 92%N (lexString r1)
        else if Ascii.eqb e "/" then continue 47%N (lexString r1)
        else if Ascii.eqb e "b" then continue 8%N (lexString r1)
        else if Ascii.eqb e "f" then continue 12%N (lexString r1)
        else if Ascii.eqb e "n" then continue 10%N (lexString r1)
        else if Ascii.eqb e "r" then continue 13%N (lexString r1)
        else if Ascii.eqb e "t" then continue 9%N (lexString r1)
        else if Ascii.eqb e "u" then
          match r1 with
          | h1 :: h2 :: h3 :: h4 :: r2 =>
            match hex4 h1 h2 h3 h4 with
            | Some u => continue u (lexString r2)
            | None => None
            end
          | _ => None
          end
        else None
      end
    else if (N_of_ascii c <? 32)%N then None
    else
      match lexString r with
      | Some (us, k) => Some (N_of_ascii c :: us, k)
      | None => None
      end
  end.

(** The longest run of digits at the head of the text. *)
Fixpoint digits (l : list ascii) : list ascii * list ascii :=
  match l with
  | c :: r => if isDigit c then let (ds, k) := digits r in (c :: ds, k) else ([], l)
  | [] => ([], [])
  end.

Definition lexExponent (acc : list ascii) (l : list ascii)
  : option (list ascii * list ascii) :=
  match l with
  | c :: r =>
    if Ascii.eqb c "e" || Ascii.eqb c "E" then
      let (sg, r1) :=
        match r with
        | s :: r' => if Ascii.eqb s "+" || Ascii.eqb s "-" then ([s], r') else ([], r)
        | [] => ([], r)
        end in
      match digits r1 with
      | ([], _) => None
      | (es, k) => Some (acc ++ c :: sg ++ es, k)
      end
    else Some (acc, l)
  | [] => Some (acc, l)
  end.

Definition lexFraction (acc : list ascii) (l : list ascii)
  : option (list ascii * list ascii) :=
  match l with
  | c :: r =>
    if Ascii.eqb c "." then
      match digits r with
      | ([], _) => None
      | (fs, k) => lexExponent (acc ++ c :: fs) k
      end
    else lexExponent acc l
  | [] => Some (acc, l)
  end.

(** number = [-] int [frac] [exp], with no leading zero in int. *)
Definition lexNumber (l : list ascii) : option (string * list ascii) :=
  let (sg, l1) :=
    match l with
    | c :: r => if Ascii.eqb c "-" then ([c], r) else ([], l)
    | [] => ([], l)
    end in
  let body :=
    match l1 with
    | d :: r =>
      if Ascii.eqb d "0" then lexFraction (sg ++ [d]) r
      else if isDigit d then
        let (ds, k) := digits r in lexFraction (sg ++ d :: ds) k
      else None
    | [] => None
    end in
  match body with
  | Some (lit, k) => Some (string_of_list_ascii lit, k)
  | None => None
  end.

Inductive parsed (A : Type) : Type :=
| Parsed (a : A) (rest : list ascii)
| Unexpected
| NoFuel.
Arguments Parsed {A} a rest.
Arguments Unexpected {A}.
Arguments NoFuel {A}.

Fixpoint parseValue (fuel : nat) (l : list ascii) {struct fuel} : parsed json :=
  match fuel with
  | O => NoFuel
  | S f =>
    let l' := skipWs l in
    match l' with
    | [] => Unexpected
    | c :: r =>
      if Ascii.eqb c quote then
        match lexString r with
        | Some (us, k) => Parsed (JString us) k
        | None => Unexpected
        end
      else if Ascii.eqb c "[" then
        match skipWs r with
        | d :: k =>
          if Ascii.eqb d "]" then Parsed (JArray []) k
          else
            match parseElements f r with
            | Parsed vs k' => Parsed (JArray vs) k'
            | Unexpected => Unexpected
            | NoFuel => NoFuel
            end
        | [] => Unexpected
        end
      else if Ascii.eqb c "{" then
        match skipWs r with
        | d :: k =>
          if Ascii.eqb d "}" then Parsed (JObject []) k
          else
            match parseMembers f r with
            | Parsed ms k' => Parsed (JObject ms) k'
            | Unexpected => Unexpected
            | NoFuel => NoFuel
            end
        | [] => Unexpected
        end
      else if Ascii.eqb c "-" || isDigit c then
        match lexNumber l' with
        | Some (lit, k) => Parsed (JNumber lit) k
        | None => Unexpected
        end
      else
        match stripPrefix (list_ascii_of_string "null") l' with
        | Some k => Parsed JNull k
        | None =>
          match stripPrefix (list_ascii_of_string "true") l' with
          | Some k => Parsed (JBool true) k
          | None =>
            match stripPrefix (list_ascii_of_string "false") l' with
            | Some k => Parsed (JBool false) k
            | None => Unexpected
            end
          end
        end
    end
  end

with parseElements (fuel : nat) (l : list ascii) {struct fuel}
  : parsed (list json) :=
  match fuel with
  | O => NoFuel
  | S f =>
    match parseValue f l with
    | Parsed v k =>
      match skipWs k with
      | c :: k1 =>
        if Ascii.eqb c "," then
          match parseElements f k1 with
          | Parsed vs k2 => Parsed (v :: vs) k2
          | Unexpected => Unexpected
          | NoFuel => NoFuel
          end
        else if Ascii.eqb c "]" then Parsed [v] k1
        else Unexpected
      | [] => Unexpected
      end
    | Unexpected => Unexpected
    | NoFuel => NoFuel
    end
  end

with parseMembers (fuel : nat) (l : list ascii) {struct fuel}
  : parsed (list (list N * json)) :=
  match fuel with
  | O => NoFuel
  | S f =>
    match skipWs l with
    | q :: r =>
      if Ascii.eqb q quote then
        match lexString r with
        | Some (key, k) =>
          match skipWs k with
          | c :: k1 =>
            if Ascii.eqb c ":" then
              match parseValue f k1 with
              | Parsed v k2 =>
                match skipWs k2 with
                | d :: k3 =>
                  if Ascii.eqb d "," then
                    match parseMembers f k3 with
                    | Parsed ms k4 => Parsed ((key, v) :: ms) k4
                    | Unexpected => Unexpected
                    | NoFuel => NoFuel
                    end
                  else if Ascii.eqb d "}" then Parsed [(key, v)] k3
                  else Unexpected
                | [] => Unexpected
                end
              | Unexpected => Unexpected
              | NoFuel => NoFuel
              end
            else Unexpected
          | [] => Unexpected
          end
        | None => Unexpected
        end
      else Unexpected
    | [] => Unexpected
    end
  end.

(** [JSON.parse(text)]: one value, possibly surrounded by white space, and
    nothing else.  [None] is the [SyntaxError] the call throws. *)
Definition parseText (text : string) : parsed json :=
  let l := list_ascii_of_string text in
  match parseValue (2 * length l + 1) l with
  | Parsed v k => match skipWs k with [] => Parsed v [] | _ => Unexpected end
  | Unexpected => Unexpected
  | NoFuel => NoFuel
  end.

Definition parse (text : string) : option json :=
  match parseText text with
  | Parsed v _ => Some v
  | _ => None
  end.

(** *** [JSON.stringify]

    Defined on the values whose text the model can give exactly: integer
    literals in canonical form below 2^53 (exact as doubles), strings of
    code units below 256, objects whose keys are distinct and do not start
    with a digit (so that property order is insertion order).  [None] marks
    a value outside that fragment, not an error of the call. *)

Definition safeInteger (lit : string) : bool :=
  match NilZero.int_of_string lit with
  | Some d =>
    let z := Z.of_int d in
    String.eqb (JsString.ofZ z) lit && (Z.abs z <? 2 ^ 53)%Z
  | None => false
  end.

Definition hexDigit (n : N) : ascii :=
  if (n <? 10)%N then ascii_of_N (48 + n) else ascii_of_N (87 + n).

Definition escapeUnit (u : N) : option string :=
  if (u =? 34)%N then Some (String "\" (String quote ""))
  else if (u =? 92)%N then Some "\\"
  else if (u =? 8)%N then Some "\b"
  else if (u =? 9)%N then Some "\t"
  else if (u =? 10)%N then Some "\n"
  else if (u =? 12)%N then Some "\f"
  else if (u =? 13)%N then Some "\r"
  else if (u <? 32)%N then
    Some ("\u00" ++ String (hexDigit (u / 16)) (String (hexDigit (u mod 16)) ""))%string
  else if (u <? 256)%N then Some (String (ascii_of_N u) "")
  else None.

Fixpoint escapeUnits (us : list N) : option string :=
  match us with
  | [] => Some ""
  | u :: r =>
    match escapeUnit u, escapeUnits r with
    | Some a, Some b => Some (a ++ b)%string
    | _, _ => None
    end
  end.

Definition quoteUnits (us : list N) : option string :=
  match escapeUnits us with
  | Some body => Some (String quote body ++ String quote "")%string
  | None => None
  end.

Definition unitsEqb (a b : list N) : bool :=
  if list_eq_dec N.eq_dec a b then true else false.

Fixpoint distinctKeys (ks : list (list N)) : bool :=
  match ks with
  | [] => true
  | k :: r => negb (existsb (unitsEqb k) r) && distinctKeys r
  end.

Definition startsWithDigit (k : list N) : bool :=
  match k with
  | u :: _ => ((48 <=? u) && (u <=? 57))%N
  | [] => false
  end.

Definition plainKeys (ks : list (list N)) : bool :=
  distinctKeys ks && forallb (fun k => negb (startsWithDigit k)) ks.

Fixpoint stringify (v : json) : option string :=
  match v with
  | JNull => Some "null"
  | JBool true => Some "true"
  | JBool false => Some "false"
  | JNumber lit => if safeInteger lit then Some lit else None
  | JString us => quoteUnits us
  | JArray items =>
    let fix each (l : list json) : option (list string) :=
      match l with
      | [] => Some []
      | x :: r =>
        match stringify x, each r with
        | Some a, Some b => Some (a :: b)
        | _, _ => None
        end
      end in
    match each items with
    | Some parts => Some ("[" ++ String.concat "," parts ++ "]")%string
    | None => None
    end
  | JObject members =>
    let fix each (l : list (list N * json)) : option (list string) :=
      match l with
      | [] => Some []
      | (k, x) :: r =>
        match quoteUnits k, stringify x, each r with
        | Some q, Some a, Some b => Some ((q ++ ":" ++ a)%string :: b)
        | _, _, _ => None
        end
      end in
    if plainKeys (map fst members) then
      match each members with
      | Some parts => Some ("{" ++ String.concat "," parts ++ "}")%string
      | None => None
      end
    else None
  end.

(** *** Reading back what was written

    Vocabulary for the round trip through [stringify] and the parser. *)

(** What may follow a number: nothing that would continue it. *)
Definition endsNumber (rest : list ascii) : bool :=
  match rest with
  | [] => true
  | c :: _ =>
    negb (isDigit c) && negb (Ascii.eqb c ".")
    && negb (Ascii.eqb c "e") && negb (Ascii.eqb c "E")
  end.

(** What follows a value inside an array or an object, or at the end of
    the text. *)
Definition endsValue (rest : list ascii) : bool :=
  match rest with
  | [] => true
  | c :: _ => Ascii.eqb c "," || Ascii.eqb c "]" || Ascii.eqb c "}"
  end.

(** The texts of the items of an array, and of the members of an
    object, as [stringify] computes them. *)
Definition stringifyItems : list json -> option (list string) :=
  fix each (l : list json) : option (list string) :=
    match l with
    | [] => Some []
    | x :: r =>
      match stringify x, each r with
      | Some a, Some b => Some (a :: b)
      | _, _ => None
      end
    end.

Definition stringifyMembers : list (list N * json) -> option (list string) :=
  fix each (l : list (list N * json)) : option (list string) :=
    match l with
    | [] => Some []
    | (k, x) :: r =>
      match quoteUnits k, stringify x, each r with
      | Some q, Some a, Some b => Some ((q ++ ":" ++ a)%string :: b)
      | _, _, _ => None
      end
    end.

(** The first character of the text of a value. *)
Definition startsValue (c : ascii) : Prop :=
  isWs c = false /\ Ascii.eqb c "]" = false /\ Ascii.eqb c "}" = false.

(** [reads v]: the text of [v] is read back as [v], whatever value
    terminator follows and whatever fuel above twice the length is given. *)
Definition reads (v : json) : Prop :=
  forall t, stringify v = Some t ->
  forall n rest,
    endsValue rest = true ->
    (2 * length (list_ascii_of_string t ++ rest) < n)%nat ->
    parseValue n (list_ascii_of_string t ++ rest) = Parsed v rest.

(** Induction on values, through the lists they nest in. *)

Section JsonInduction.

Variable P : json -> Prop.
Hypothesis onNull : P JNull.
Hypothesis onBool : forall b, P (JBool b).
Hypothesis onNumber : forall lit, P (JNumber lit).
Hypothesis onString : forall us, P (JString us).
Hypothesis onArray : forall items, Forall P items -> P (JArray items).
Hypothesis onObject :
  forall members, Forall (fun m => P (snd m)) members -> P (JObject members).

Fixpoint json_induction (v : json) : P v :=
  match v with
  | JNull => onNull
  | JBool b => onBool b
  | JNumber lit => onNumber lit
  | JString us => onString us
  | JArray items =>
    onArray items
      ((fix all (l : list json) : Forall P l :=
          match l with
          | [] => Forall_nil P
          | x :: r => Forall_cons x (json_induction x) (all r)
          end) items)
  | JObject members =>
    onObject members
      ((fix all (l : list (list N * json))
          : Forall (fun m => P (snd m)) l :=
          match l with
          | [] => Forall_nil _
          | m :: r =>
            Forall_cons (P := fun m => P (snd m)) m
                        (json_induction (snd m)) (all r)
          end) members)
  end.

End JsonInduction.

End Json.

(** ** The word bank and the game state *)

Module Game.

Import Json.

(** The level names: the keys of [wordsByLevel] and [lvls], and the values
    the level select can take. *)
Inductive level : Type := Easy | Normal | Hard.

Definition levelName (l : level) : string :=
  match l with Easy => "Easy" | Normal => "Normal" | Hard => "Hard" end.

Definition level_eqb (a b : level) : bool :=
  match a, b with
  | Easy, Easy | Normal, Normal | Hard, Hard => true
  | _, _ => false
  end.

(** [wordsByLevel[levelName]] *)
Definition wordsByLevel (l : level) : list string :=
  match l with
  | Easy =>
    [ "Hello"; "Code"; "Town"; "Test"; "Work"; "Play";
      "Run"; "Jump"; "Fast"; "Slow"; "Good"; "Nice";
      "Cool"; "Game"; "Time"; "Word"; "Type"; "Keys";
      "News"; "Data"; "File"; "Save"; "Open"; "Exit";
      "Help"; "Menu"; "Start"; "Stop"; "Find"; "Edit" ]
  | Normal =>
    [ "Programming"; "Javascript"; "Country"; "Testing";
      "Youtube"; "Linkedin"; "Twitter"; "Github";
      "Leetcode"; "Internet"; "Python"; "Coding";
      "Funny"; "Working"; "Task"; "Runner";
      "Roles"; "Playing"; "Document"; "Function";
      "Variable"; "Console"; "Browser"; "Website";
      "Database"; "Network"; "Server"; "Client";
      "Framework"; "Library"; "Package"; "Module" ]
  | Hard =>
    [ "Destructuring"; "Paradigm"; "Documentation";
      "Dependencies"; "Asynchronous"; "Synchronization";
      "Encapsulation"; "Polymorphism"; "Inheritance";
      "Abstraction"; "Algorithm"; "Optimization";
      "Authentication"; "Authorization"; "Implementation";
      "Configuration"; "Initialization"; "Serialization";
      "Deserialization"; "Refactoring"; "Architecture";
      "Infrastructure"; "Methodology"; "Cryptocurrency";
      "Decentralization"; "Functionality"; "Compatibility";
      "Accessibility"; "Responsiveness"; "Performance" ]
  end.

(** [lvls[levelName]]: seconds per word. *)
Definition lvls (l : level) : Z :=
  match l with Easy => 5 | Normal => 4 | Hard => 5 end%Z.

Definition levelProgression : list level := [Easy; Normal; Hard].

(** [Array.prototype.indexOf]: the first position of [x], or -1. *)
Fixpoint indexOf (x : level) (l : list level) : Z :=
  match l with
  | [] => (-1)%Z
  | y :: r =>
    if level_eqb x y then 0%Z
    else let i := indexOf x r in if (i <? 0)%Z then (-1)%Z else (i + 1)%Z
  end.

(** [array[i]] for a number [i]: [None] is [undefined]. *)
Definition at_ {A : Type} (l : list A) (i : Z) : option A :=
  if (i <? 0)%Z then None else nth_error l (Z.to_nat i).

(** Identifiers returned by [setInterval] and [setTimeout]. *)
Definition handle : Type := nat.

(** What a pending [setTimeout] will run: the arrow function of
    [showInputError], or the one of [advanceToNextLevel] with the
    [nextLevel] it closed over. *)
Inductive task : Type :=
| RemoveErrorClass
| StartLevel (nextLevel : level).

(** Messages appended to [.finish]; the wording is in the script. *)
Inductive notice : Type :=
| AllLevelsCompleted
| GameOver
| LevelComplete (nextLevel : level).

(** A [<span class=...>] appended to [.finish]. *)
Definition span : Type := (string * notice)%type.

(** One value drawn by [Math.random()]: the rational
    [num / (num + gap + 1)], which ranges over the rationals of [0, 1).
    Products with it are exact in the model. *)
Record random : Type := { num : nat; gap : nat }.

(** What the environment supplies while one event is handled: the next
    value of [Math.random()] and the text of [new Date().toISOString()]. *)
Record oracle : Type := { nextRandom : random; isoDate : string }.

Record state : Type := mkState {
  (* module variables *)
  defaultLevelName : level;
  defaultLevelSeconds : Z;
  currentWords : list string;
  currentTimer : option handle;
  isFirstWord : bool;
  (* the page: [elements.*]; [true] = still in the document *)
  startButton : bool;
  levelSelect : level;
  lvlNameSpan : string;
  secondsSpan : Z;
  theWord : string;
  upcomingWords : list string;
  upcomingAttached : bool;
  inputValue : string;
  inputError : bool;
  inputFocused : bool;
  timeLeftSpan : Z;
  scoreGot : Z;
  scoreTotal : Z;
  finishMessage : list span;
  (* the window: live timers, storage, audio, console *)
  intervals : list handle;
  timeouts : list (handle * task);
  nextHandle : handle;
  localStorage : option string;
  audioSupported : bool;
  tones : nat;
  console : list string
}.

Definition set_defaultLevelName (v : level) (s : state) : state :=
  mkState v (defaultLevelSeconds s) (currentWords s) (currentTimer s)
    (isFirstWord s) (startButton s) (levelSelect s) (lvlNameSpan s)
    (secondsSpan s) (theWord s) (upcomingWords s) (upcomingAttached s)
    (inputValue s) (inputError s) (inputFocused s) (timeLeftSpan s)
    (scoreGot s) (scoreTotal s) (finishMessage s) (intervals s) (timeouts s)
    (nextHandle s) (localStorage s) (audioSupported s) (tones s) (console s).

Definition set_defaultLevelSeconds (v : Z) (s : state) : state :=
  mkState (defaultLevelName s) v (currentWords s) (currentTimer s)
    (isFirstWord s) (startButton s) (levelSelect s) (lvlNameSpan s)
    (secondsSpan s) (theWord s) (upcomingWords s) (upcomingAttached s)
    (inputValue s) (inputError s) (inputFocused s) (timeLeftSpan s)
    (scoreGot s) (scoreTotal s) (finishMessage s) (intervals s) (timeouts s)
    (nextHandle s) (localStorage s) (audioSupported s) (tones s) (console s).

Definition set_currentWords (v : list string) (s : state) : state :=
  mkState (defaultLevelName s) (defaultLevelSeconds s) v (currentTimer s)
    (isFirstWord s) (startButton s) (levelSelect s) (lvlNameSpan s)
    (secondsSpan s) (theWord s) (upcomingWords s) (upcomingAttached s)
    (inputValue s) (inputError s) (inputFocused s) (timeLeftSpan s)
    (scoreGot s) (scoreTotal s) (finishMessage s) (intervals s) (timeouts s)
    (nextHandle s) (localStorage s) (audioSupported s) (tones s) (console s).

Definition set_currentTimer (v : option handle) (s : state) : state :=
  mkState (defaultLevelName s) (defaultLevelSeconds s) (currentWords s) v
    (isFirstWord s) (startButton s) (levelSelect s) (lvlNameSpan s)
    (secondsSpan s) (theWord s) (upcomingWords s) (upcomingAttached s)
    (inputValue s) (inputError s) (inputFocused s) (timeLeftSpan s)
    (scoreGot s) (scoreTotal s) (finishMessage s) (intervals s) (timeouts s)
    (nextHandle s) (localStorage s) (audioSupported s) (tones s) (console s).

Definition set_isFirstWord (v : bool) (s : state) : state :=
  mkState (defaultLevelName s) (defaultLevelSeconds s) (currentWords s)
    (currentTimer s) v (startButton s) (levelSelect s) (lvlNameSpan s)
    (secondsSpan s) (theWord s) (upcomingWords s) (upcomingAttached s)
    (inputValue s) (inputError s) (inputFocused s) (timeLeftSpan s)
    (scoreGot s) (scoreTotal s) (finishMessage s) (intervals s) (timeouts s)
    (nextHandle s) (localStorage s) (audioSupported s) (tones s) (console s).

Definition set_startButton (v : bool) (s : state) : state :=
  mkState (defaultLevelName s) (defaultLevelSeconds s) (currentWords s)
    (currentTimer s) (isFirstWord s) v (levelSelect s) (lvlNameSpan s)
    (secondsSpan s) (theWord s) (upcomingWords s) (upcomingAttached s)
    (inputValue s) (inputError s) (inputFocused s) (timeLeftSpan s)
    (scoreGot s) (scoreTotal s) (finishMessage s) (intervals s) (timeouts s)
    (nextHandle s) (localStorage s) (audioSupported s) (tones s) (console s).

Definition set_levelSelect (v : level) (s : state) : state :=
  mkState (defaultLevelName s) (defaultLevelSeconds s) (currentWords s)
    (currentTimer s) (isFirstWord s) (startButton s) v (lvlNameSpan s)
    (secondsSpan s) (theWord s) (upcomingWords s) (upcomingAttached s)
    (inputValue s) (inputError s) (inputFocused s) (timeLeftSpan s)
    (scoreGot s) (scoreTotal s) (finishMessage s) (intervals s) (timeouts s)
    (nextHandle s) (localStorage s) (audioSupported s) (tones s) (console s).

Definition set_lvlNameSpan (v : string) (s : state) : state :=
  mkState (defaultLevelName s) (defaultLevelSeconds s) (currentWords s)
    (currentTimer s) (isFirstWord s) (startButton s) (levelSelect s) v
    (secondsSpan s) (theWord s) (upcomingWords s) (upcomingAttached s)
    (inputValue s) (inputError s) (inputFocused s) (timeLeftSpan s)
    (scoreGot s) (scoreTotal s) (finishMessage s) (intervals s) (timeouts s)
    (nextHandle s) (localStorage s) (audioSupported s) (tones s) (console s).

Definition set_secondsSpan (v : Z) (s : state) : state :=
  mkState (defaultLevelName s) (defaultLevelSeconds s) (currentWords s)
    (currentTimer s) (isFirstWord s) (startButton s) (levelSelect s)
    (lvlNameSpan s) v (theWord s) (upcomingWords s) (upcomingAttached s)
    (inputValue s) (inputError s) (inputFocused s) (timeLeftSpan s)
    (scoreGot s) (scoreTotal s) (finishMessage s) (intervals s) (timeouts s)
    (nextHandle s) (localStorage s) (audioSupported s) (tones s) (console s).

Definition set_theWord (v : string) (s : state) : state :=
  mkState (defaultLevelName s) (defaultLevelSeconds s) (currentWords s)
    (currentTimer s) (isFirstWord s) (startButton s) (levelSelect s)
    (lvlNameSpan s) (secondsSpan s) v (upcomingWords s) (upcomingAttached s)
    (inputValue s) (inputError s) (inputFocused s) (timeLeftSpan s)
    (scoreGot s) (scoreTotal s) (finishMessage s) (intervals s) (timeouts s)
    (nextHandle s) (localStorage s) (audioSupported s) (tones s) (console s).

Definition set_upcomingWords (v : list string) (s : state) : state :=
  mkState (defaultLevelName s) (defaultLevelSeconds s) (currentWords s)
    (currentTimer s) (isFirstWord s) (startButton s) (levelSelect s)
    (lvlNameSpan s) (secondsSpan s) (theWord s) v (upcomingAttached s)
    (inputValue s) (inputError s) (inputFocused s) (timeLeftSpan s)
    (scoreGot s) (scoreTotal s) (finishMessage s) (intervals s) (timeouts s)
    (nextHandle s) (localStorage s) (audioSupported s) (tones s) (console s).

Definition set_upcomingAttached (v : bool) (s : state) : state :=
  mkState (defaultLevelName s) (defaultLevelSeconds s) (currentWords s)
    (currentTimer s) (isFirstWord s) (startButton s) (levelSelect s)
    (lvlNameSpan s) (secondsSpan s) (theWord s) (upcomingWords s) v
    (inputValue s) (inputError s) (inputFocused s) (timeLeftSpan s)
    (scoreGot s) (scoreTotal s) (finishMessage s) (intervals s) (timeouts s)
    (nextHandle s) (localStorage s) (audioSupported s) (tones s) (console s).

Definition set_inputValue (v : string) (s : state) : state :=
  mkState (defaultLevelName s) (defaultLevelSeconds s) (currentWords s)
    (currentTimer s) (isFirstWord s) (startButton s) (levelSelect s)
    (lvlNameSpan s) (secondsSpan s) (theWord s) (upcomingWords s)
    (upcomingAttached s) v (inputError s) (inputFocused s) (timeLeftSpan s)
    (scoreGot s) (scoreTotal s) (finishMessage s) (intervals s) (timeouts s)
    (nextHandle s) (localStorage s) (audioSupported s) (tones s) (console s).

Definition set_inputError (v : bool) (s : state) : state :=
  mkState (defaultLevelName s) (defaultLevelSeconds s) (currentWords s)
    (currentTimer s) (isFirstWord s) (startButton s) (levelSelect s)
    (lvlNameSpan s) (secondsSpan s) (theWord s) (upcomingWords s)
    (upcomingAttached s) (inputValue s) v (inputFocused s) (timeLeftSpan s)
    (scoreGot s) (scoreTotal s) (finishMessage s) (intervals s) (timeouts s)
    (nextHandle s) (localStorage s) (audioSupported s) (tones s) (console s).

Definition set_inputFocused (v : bool) (s : state) : state :=
  mkState (defaultLevelName s) (defaultLevelSeconds s) (currentWords s)
    (currentTimer s) (isFirstWord s) (startButton s) (levelSelect s)
    (lvlNameSpan s) (secondsSpan s) (theWord s) (upcomingWords s)
    (upcomingAttached s) (inputValue s) (inputError s) v (timeLeftSpan s)
    (scoreGot s) (scoreTotal s) (finishMessage s) (intervals s) (timeouts s)
    (nextHandle s) (localStorage s) (audioSupported s) (tones s) (console s).

Definition set_timeLeftSpan (v : Z) (s : state) : state :=
  mkState (defaultLevelName s) (defaultLevelSeconds s) (currentWords s)
    (currentTimer s) (isFirstWord s) (startButton s) (levelSelect s)
    (lvlNameSpan s) (secondsSpan s) (theWord s) (upcomingWords s)
    (upcomingAttached s) (inputValue s) (inputError s) (inputFocused s) v
    (scoreGot s) (scoreTotal s) (finishMessage s) (intervals s) (timeouts s)
    (nextHandle s) (localStorage s) (audioSupported s) (tones s) (console s).

Definition set_scoreGot (v : Z) (s : state) : state :=
  mkState (defaultLevelName s) (defaultLevelSeconds s) (currentWords s)
    (currentTimer s) (isFirstWord s) (startButton s) (levelSelect s)
    (lvlNameSpan s) (secondsSpan s) (theWord s) (upcomingWords s)
    (upcomingAttached s) (inputValue s) (inputError s) (inputFocused s)
    (timeLeftSpan s) v (scoreTotal s) (finishMessage s) (intervals s)
    (timeouts s) (nextHandle s) (localStorage s) (audioSupported s) (tones
    s) (console s).

Definition set_scoreTotal (v : Z) (s : state) : state :=
  mkState (defaultLevelName s) (defaultLevelSeconds s) (currentWords s)
    (currentTimer s) (isFirstWord s) (startButton s) (levelSelect s)
    (lvlNameSpan s) (secondsSpan s) (theWord s) (upcomingWords s)
    (upcomingAttached s) (inputValue s) (inputError s) (inputFocused s)
    (timeLeftSpan s) (scoreGot s) v (finishMessage s) (intervals s)
    (timeouts s) (nextHandle s) (localStorage s) (audioSupported s) (tones
    s) (console s).

Definition set_finishMessage (v : list span) (s : state) : state :=
  mkState (defaultLevelName s) (defaultLevelSeconds s) (currentWords s)
    (currentTimer s) (isFirstWord s) (startButton s) (levelSelect s)
    (lvlNameSpan s) (secondsSpan s) (theWord s) (upcomingWords s)
    (upcomingAttached s) (inputValue s) (inputError s) (inputFocused s)
    (timeLeftSpan s) (scoreGot s) (scoreTotal s) v (intervals s) (timeouts
    s) (nextHandle s) (localStorage s) (audioSupported s) (tones s) (console
    s).

Definition set_intervals (v : list handle) (s : state) : state :=
  mkState (defaultLevelName s) (defaultLevelSeconds s) (currentWords s)
    (currentTimer s) (isFirstWord s) (startButton s) (levelSelect s)
    (lvlNameSpan s) (secondsSpan s) (theWord s) (upcomingWords s)
    (upcomingAttached s) (inputValue s) (inputError s) (inputFocused s)
    (timeLeftSpan s) (scoreGot s) (scoreTotal s) (finishMessage s) v
    (timeouts s) (nextHandle s) (localStorage s) (audioSupported s) (tones
    s) (console s).

Definition set_timeouts (v : list (handle * task)) (s : state) : state :=
  mkState (defaultLevelName s) (defaultLevelSeconds s) (currentWords s)
    (currentTimer s) (isFirstWord s) (startButton s) (levelSelect s)
    (lvlNameSpan s) (secondsSpan s) (theWord s) (upcomingWords s)
    (upcomingAttached s) (inputValue s) (inputError s) (inputFocused s)
    (timeLeftSpan s) (scoreGot s) (scoreTotal s) (finishMessage s)
    (intervals s) v (nextHandle s) (localStorage s) (audioSupported s)
    (tones s) (console s).

Definition set_nextHandle (v : handle) (s : state) : state :=
  mkState (defaultLevelName s) (defaultLevelSeconds s) (currentWords s)
    (currentTimer s) (isFirstWord s) (startButton s) (levelSelect s)
    (lvlNameSpan s) (secondsSpan s) (theWord s) (upcomingWords s)
    (upcomingAttached s) (inputValue s) (inputError s) (inputFocused s)
    (timeLeftSpan s) (scoreGot s) (scoreTotal s) (finishMessage s)
    (intervals s) (timeouts s) v (localStorage s) (audioSupported s) (tones
    s) (console s).

Definition set_localStorage (v : option string) (s : state) : state :=
  mkState (defaultLevelName s) (defaultLevelSeconds s) (currentWords s)
    (currentTimer s) (isFirstWord s) (startButton s) (levelSelect s)
    (lvlNameSpan s) (secondsSpan s) (theWord s) (upcomingWords s)
    (upcomingAttached s) (inputValue s) (inputError s) (inputFocused s)
    (timeLeftSpan s) (scoreGot s) (scoreTotal s) (finishMessage s)
    (intervals s) (timeouts s) (nextHandle s) v (audioSupported s) (tones s)
    (console s).

Definition set_audioSupported (v : bool) (s : state) : state :=
  mkState (defaultLevelName s) (defaultLevelSeconds s) (currentWords s)
    (currentTimer s) (isFirstWord s) (startButton s) (levelSelect s)
    (lvlNameSpan s) (secondsSpan s) (theWord s) (upcomingWords s)
    (upcomingAttached s) (inputValue s) (inputError s) (inputFocused s)
    (timeLeftSpan s) (scoreGot s) (scoreTotal s) (finishMessage s)
    (intervals s) (timeouts s) (nextHandle s) (localStorage s) v (tones s)
    (console s).

Definition set_tones (v : nat) (s : state) : state :=
  mkState (defaultLevelName s) (defaultLevelSeconds s) (currentWords s)
    (currentTimer s) (isFirstWord s) (startButton s) (levelSelect s)
    (lvlNameSpan s) (secondsSpan s) (theWord s) (upcomingWords s)
    (upcomingAttached s) (inputValue s) (inputError s) (inputFocused s)
    (timeLeftSpan s) (scoreGot s) (scoreTotal s) (finishMessage s)
    (intervals s) (timeouts s) (nextHandle s) (localStorage s)
    (audioSupported s) v (console s).

Definition set_console (v : list string) (s : state) : state :=
  mkState (defaultLevelName s) (defaultLevelSeconds s) (currentWords s)
    (currentTimer s) (isFirstWord s) (startButton s) (levelSelect s)
    (lvlNameSpan s) (secondsSpan s) (theWord s) (upcomingWords s)
    (upcomingAttached s) (inputValue s) (inputError s) (inputFocused s)
    (timeLeftSpan s) (scoreGot s) (scoreTotal s) (finishMessage s)
    (intervals s) (timeouts s) (nextHandle s) (localStorage s)
    (audioSupported s) (tones s) v.

(** ** Handlers as computations

    An event handler runs to completion on the current state.  When a call
    throws ([JSON.parse] on bad text, a method call on a value that has
    none) the handler stops there and the changes made so far stay: the
    monad returns the state next to the outcome.  [Unmodelled] marks a run
    that left the fragment the model covers. *)

Inductive exn : Type := SyntaxError | TypeError.

Inductive outcome (A : Type) : Type :=
| Ret (a : A)
| Throw (e : exn)
| Unmodelled.
Arguments Ret {A} a.
Arguments Throw {A} e.
Arguments Unmodelled {A}.

Definition M (A : Type) : Type := oracle -> state -> outcome A * state.

Definition ret {A : Type} (a : A) : M A := fun _ s => (Ret a, s).

Definition bind {A B : Type} (m : M A) (f : A -> M B) : M B :=
  fun o s =>
    match m o s with
    | (Ret a, s') => f a o s'
    | (Throw e, s') => (Throw e, s')
    | (Unmodelled, s') => (Unmodelled, s')
    end.

Definition throw {A : Type} (e : exn) : M A := fun _ s => (Throw e, s).
Definition unmodelled {A : Type} : M A := fun _ s => (Unmodelled, s).
Definition read {A : Type} (f : state -> A) : M A := fun _ s => (Ret (f s), s).
Definition write (f : state -> state) : M unit := fun _ s => (Ret tt, f s).
Definition ask : M oracle := fun o s => (Ret o, s).

Notation "x <- m ;; k" := (bind m (fun x => k))
  (at level 61, m at next level, right associativity).
Notation "m ;; k" := (bind m (fun _ => k))
  (at level 61, right associativity).

(** *** Timers of the window *)

Definition removeHandle (h : handle) (l : list handle) : list handle :=
  filter (fun x => negb (Nat.eqb x h)) l.

Definition removeTask (h : handle) (l : list (handle * task))
  : list (handle * task) :=
  filter (fun x => negb (Nat.eqb (fst x) h)) l.

(** [setInterval(callback, 1000)]; every interval of the script has the
    same callback, [intervalCallback] below. *)
Definition setInterval : M handle :=
  h <- read nextHandle ;;
  live <- read intervals ;;
  write (set_intervals (live ++ [h])) ;;
  write (set_nextHandle (S h)) ;;
  ret h.

Definition setTimeout (t : task) : M handle :=
  h <- read nextHandle ;;
  pending <- read timeouts ;;
  write (set_timeouts (pending ++ [(h, t)])) ;;
  write (set_nextHandle (S h)) ;;
  ret h.

(** [clearInterval(id)]: cancels the timer with that identifier, if there
    is one; [clearInterval(null)] does nothing. *)
Definition clearInterval (id : option handle) : M unit :=
  match id with
  | None => ret tt
  | Some h =>
    live <- read intervals ;;
    pending <- read timeouts ;;
    write (set_intervals (removeHandle h live)) ;;
    write (set_timeouts (removeTask h pending))
  end.

(** *** INITIALIZATION *)

Definition updateUIForLevel (name : level) (seconds : Z) (keepScore : bool)
  : M unit :=
  write (set_lvlNameSpan (levelName name)) ;;
  write (set_secondsSpan seconds) ;;
  write (set_timeLeftSpan seconds) ;;
  write (set_currentWords (wordsByLevel name)) ;;
  if keepScore then
    currentTotal <- read scoreTotal ;;
    words <- read currentWords ;;
    write (set_scoreTotal (currentTotal + Z.of_nat (length words)))
  else
    words <- read currentWords ;;
    write (set_scoreTotal (Z.of_nat (length words))).

(** *** AUDIO FEEDBACK *)

Definition playErrorSound : M unit :=
  supported <- read audioSupported ;;
  if supported then
    n <- read tones ;;
    write (set_tones (S n))
  else
    log <- read console ;;
    write (set_console (log ++ ["Audio not supported"])).

Definition showInputError : M unit :=
  write (set_inputError true) ;;
  playErrorSound ;;
  _ <- setTimeout RemoveErrorClass ;;
  ret tt.

Definition resetInputError : M unit :=
  write (set_inputError false).

(** *** WORD MANAGEMENT *)

(** [Math.floor(Math.random() * n)] *)
Definition floorTimes (r : random) (n : nat) : nat :=
  (num r * n) / (num r + gap r + 1).

(** [array.splice(i, 1)]: removes the element at [i] when there is one. *)
Fixpoint splice1 {A : Type} (i : nat) (l : list A) : list A :=
  match i, l with
  | _, [] => []
  | O, _ :: r => r
  | S j, x :: r => x :: splice1 j r
  end.

(** Returns [None] for [undefined]. *)
Definition getRandomWord : M (option string) :=
  o <- ask ;;
  words <- read currentWords ;;
  let randomIndex := floorTimes (nextRandom o) (length words) in
  let randomWord := nth_error words randomIndex in
  write (set_currentWords (splice1 randomIndex words)) ;;
  ret randomWord.

Definition displayCurrentWord (word : option string) : M unit :=
  write (set_theWord match word with Some w => w | None => "undefined" end).

Definition displayUpcomingWords : M unit :=
  words <- read currentWords ;;
  write (set_upcomingWords words).

(** *** TIMER LOGIC *)

Definition startTimer : M unit :=
  first <- read isFirstWord ;;
  seconds <- read defaultLevelSeconds ;;
  let timeForThisWord := if first then (seconds + 3)%Z else seconds in
  write (set_timeLeftSpan timeForThisWord) ;;
  write (set_isFirstWord false) ;;
  h <- setInterval ;;
  write (set_currentTimer (Some h)).

Definition generateNextWord : M unit :=
  randomWord <- getRandomWord ;;
  displayCurrentWord randomWord ;;
  displayUpcomingWords ;;
  startTimer.

(** *** LOCAL STORAGE *)

Definition getScoreHistory : M json :=
  stored <- read localStorage ;;
  match stored with
  | None => ret (JArray [])
  | Some text =>
    if truthy text then
      match Json.parse text with
      | Some v => ret v
      | None => throw SyntaxError
      end
    else ret (JArray [])
  end.

Definition scoreData (score total : Z) (lvl : level) (status date : string)
  : json :=
  JObject
    [ (unitsOf "score", JNumber (ofZ score));
      (unitsOf "total", JNumber (ofZ total));
      (unitsOf "level", JString (unitsOf (levelName lvl)));
      (unitsOf "status", JString (unitsOf status));
      (unitsOf "date", JString (unitsOf date)) ].

(** [JSON.stringify] is modelled on part of the values only.  On a
    history outside that part the program still pushes the entry and
    rewrites the store, with a text the model does not have: the run is
    then [Unmodelled], and the state that comes with it is not the
    program's.  Statements about what is stored exclude such runs by
    their premises ([printableStore] and the bounds on the numbers). *)
Definition saveScore (score total : Z) (lvl : level) (status : string)
  : M unit :=
  o <- ask ;;
  let entry := scoreData score total lvl status (isoDate o) in
  scoreHistory <- getScoreHistory ;;
  match scoreHistory with
  | JArray items =>
    match Json.stringify (JArray (items ++ [entry])) with
    | Some text => write (set_localStorage (Some text))
    | None => unmodelled
    end
  | _ => throw TypeError
  end.

Definition saveGameScore (status : string) : M unit :=
  score <- read scoreGot ;;
  total <- read scoreTotal ;;
  lvl <- read defaultLevelName ;;
  saveScore score total lvl status.

(** *** GAME END *)

Definition displayLevelCompleteMessage (nextLevel : level) : M unit :=
  spans <- read finishMessage ;;
  write (set_finishMessage (spans ++ [("good", LevelComplete nextLevel)])).

Definition displayEndMessage (message : notice) (className : string) : M unit :=
  spans <- read finishMessage ;;
  write (set_finishMessage (spans ++ [(className, message)])).

Definition advanceToNextLevel : M unit :=
  name <- read defaultLevelName ;;
  let currentLevelIndex := indexOf name levelProgression in
  let nextLevel := at_ levelProgression (currentLevelIndex + 1) in
  saveGameScore "win" ;;
  match nextLevel with
  | Some next =>
    displayLevelCompleteMessage next ;;
    _ <- setTimeout (StartLevel next) ;;
    ret tt
  | None => unmodelled
  end.

(** The arrow function [advanceToNextLevel] hands to [setTimeout]. *)
Definition startLevelCallback (nextLevel : level) : M unit :=
  write (set_defaultLevelName nextLevel) ;;
  write (set_defaultLevelSeconds (lvls nextLevel)) ;;
  seconds <- read defaultLevelSeconds ;;
  updateUIForLevel nextLevel seconds true ;;
  write (set_levelSelect nextLevel) ;;
  write (set_finishMessage []) ;;
  write (set_isFirstWord true) ;;
  generateNextWord.

Definition endGame (status : string) : M unit :=
  if String.eqb status "win" then
    name <- read defaultLevelName ;;
    let currentLevelIndex := indexOf name levelProgression in
    let hasNextLevel :=
      (currentLevelIndex <? Z.of_nat (length levelProgression) - 1)%Z in
    if hasNextLevel then advanceToNextLevel
    else
      displayEndMessage AllLevelsCompleted "good" ;;
      write (set_upcomingAttached false) ;;
      saveGameScore status
  else
    displayEndMessage GameOver "bad" ;;
    saveGameScore status.

(** *** ANSWER VALIDATION *)

Definition incrementScore : M unit :=
  got <- read scoreGot ;;
  write (set_scoreGot (got + 1)).

Definition handleCorrectAnswer : M unit :=
  write (set_inputValue "") ;;
  resetInputError ;;
  incrementScore ;;
  words <- read currentWords ;;
  if (0 <? length words)%nat then generateNextWord else endGame "win".

Definition handleWrongAnswer : M unit :=
  write (set_inputValue "") ;;
  resetInputError ;;
  words <- read currentWords ;;
  if (0 <? length words)%nat then generateNextWord else endGame "win".

Definition checkAnswer : M unit :=
  word <- read theWord ;;
  value <- read inputValue ;;
  let currentWord := toLowerCase word in
  let userInput := toLowerCase value in
  if String.eqb currentWord userInput then handleCorrectAnswer
  else handleWrongAnswer.

(** The arrow function [startTimer] hands to [setInterval]. *)
Definition intervalCallback : M unit :=
  left <- read timeLeftSpan ;;
  write (set_timeLeftSpan (left - 1)) ;;
  now <- read timeLeftSpan ;;
  if (now =? 0)%Z then
    timer <- read currentTimer ;;
    clearInterval timer ;;
    checkAnswer
  else ret tt.

(** *** EVENT HANDLERS *)

Definition handleLevelChange : M unit :=
  value <- read levelSelect ;;
  write (set_defaultLevelName value) ;;
  write (set_defaultLevelSeconds (lvls value)) ;;
  name <- read defaultLevelName ;;
  seconds <- read defaultLevelSeconds ;;
  updateUIForLevel name seconds false.

Definition handleStartGame : M unit :=
  write (set_startButton false) ;;
  write (set_inputFocused true) ;;
  write (set_isFirstWord true) ;;
  generateNextWord.

Definition handleInputValidation : M unit :=
  word <- read theWord ;;
  value <- read inputValue ;;
  let currentWord := toLowerCase word in
  let userInput := toLowerCase value in
  if truthy userInput && negb (startsWith currentWord userInput) then
    showInputError ;;
    value <- read inputValue ;;
    write (set_inputValue (sliceButLast value))
  else resetInputError.

Definition handleEnterKey (key : string) : M unit :=
  if String.eqb key "Enter" then
    word <- read theWord ;;
    value <- read inputValue ;;
    let currentWord := toLowerCase word in
    let userInput := toLowerCase value in
    if String.eqb currentWord userInput then
      timer <- read currentTimer ;;
      clearInterval timer ;;
      handleCorrectAnswer
    else if (0 <? String.length userInput)%nat then showInputError
    else ret tt
  else ret tt.

Definition initializeGame : M unit :=
  name <- read defaultLevelName ;;
  seconds <- read defaultLevelSeconds ;;
  updateUIForLevel name seconds false.

(** ** Events

    What [attachEventListeners] wires up, and the two kinds of timer
    callbacks.  An event that cannot occur in the current state (a click on
    a button that is gone, a timer that is not pending) leaves it as it
    is. *)

Inductive event : Type :=
| Change (value : level)
| Paste (text : string)
| Input (value : string)
| Keydown (key : string)
| ClickStart
| IntervalFires (h : handle)
| TimeoutFires (h : handle).

Definition runTask (t : task) : M unit :=
  match t with
  | RemoveErrorClass => write (set_inputError false)
  | StartLevel nextLevel => startLevelCallback nextLevel
  end.

Definition dispatch (e : event) : M unit :=
  match e with
  | Change value =>
    shown <- read levelSelect ;;
    if level_eqb value shown then ret tt
    else write (set_levelSelect value) ;; handleLevelChange
  | Paste _ => ret tt
  | Input value => write (set_inputValue value) ;; handleInputValidation
  | Keydown key => handleEnterKey key
  | ClickStart =>
    present <- read startButton ;;
    if present then handleStartGame else ret tt
  | IntervalFires h =>
    live <- read intervals ;;
    if existsb (Nat.eqb h) live then intervalCallback else ret tt
  | TimeoutFires h =>
    pending <- read timeouts ;;
    match find (fun x => Nat.eqb (fst x) h) pending with
    | Some (_, t) => write (set_timeouts (removeTask h pending)) ;; runTask t
    | None => ret tt
    end
  end.

Definition step (o : oracle) (e : event) (s : state) : state :=
  snd (dispatch e o s).

Fixpoint run (es : list (oracle * event)) (s : state) : state :=
  match es with
  | [] => s
  | (o, e) :: r => run r (step o e s)
  end.

(** ** The page when the script has run

    The markup is not part of the script; what the script reads from it is
    the text of [.the-word], the number in [.score .got] and the selected
    option.  The other cells are written by [initializeGame] before they are
    read. *)

Record markup : Type := { wordText : string; gotText : Z; selected : level }.

Definition emptyMarkup : markup :=
  {| wordText := ""; gotText := 0; selected := Easy |}.

Definition idle : oracle :=
  {| nextRandom := {| num := 0; gap := 0 |}; isoDate := "" |}.

Definition parsedPage (m : markup) (storage : option string) (audio : bool)
  : state :=
  mkState Easy (lvls Easy) [] None true
          true (selected m) "" 0 (wordText m) [] true "" false false
          0 (gotText m) 0 []
          [] [] 1 storage audio 0 [].

Definition loaded (m : markup) (storage : option string) (audio : bool)
  : state :=
  snd (initializeGame idle (parsedPage m storage audio)).

(** [window.location.reload()], the restart button: the script starts over
    on the same markup; the storage is what persists. *)
Definition reload (m : markup) (s : state) : state :=
  loaded m (localStorage s) (audioSupported s).

Inductive reachable (s0 : state) : state -> Prop :=
| reach_start : reachable s0 s0
| reach_step (s : state) (o : oracle) (e : event) :
    reachable s0 s -> reachable s0 (step o e s).

End Game.

(** ** Vocabulary of the specification

    The words the specification uses, defined on their own so that the
    handlers can be compared with them. *)

Module Spec.

Import JsString Json Game.

(** [p] is a case-insensitive prefix of [t]: [t] begins with the
    characters of [p], letter case aside. *)
Fixpoint ciPrefix (p t : string) : bool :=
  match p, t with
  | EmptyString, _ => true
  | String a p', String b t' =>
    Ascii.eqb (lowerUnit a) (lowerUnit b) && ciPrefix p' t'
  | String _ _, EmptyString => false
  end.

(** [a] and [b] are equal, letter case aside. *)
Fixpoint ciEqual (a b : string) : bool :=
  match a, b with
  | EmptyString, EmptyString => true
  | String x a', String y b' =>
    Ascii.eqb (lowerUnit x) (lowerUnit y) && ciEqual a' b'
  | _, _ => false
  end.

(** The words returned by successive calls of [getRandomWord] with nothing
    else touching the pool in between, one random draw per call. *)
Fixpoint selections (os : list oracle) (s : state) : list (option string) :=
  match os with
  | [] => []
  | o :: r =>
    match getRandomWord o s with
    | (Ret w, s') => w :: selections r s'
    | (_, _) => []
    end
  end.

(** One second passes on the current timer. *)
Definition tick (o : oracle) (s : state) : state :=
  match currentTimer s with
  | Some h => step o (IntervalFires h) s
  | None => s
  end.

Fixpoint ticks (o : oracle) (n : nat) (s : state) : state :=
  match n with
  | O => s
  | S k => ticks o k (tick o s)
  end.

(** The current word is left unanswered until its timer runs out. *)
Definition letTimeOut (o : oracle) (s : state) : state :=
  ticks o (Z.to_nat (timeLeftSpan s)) s.

Fixpoint letTimeOutTimes (o : oracle) (n : nat) (s : state) : state :=
  match n with
  | O => s
  | S k => letTimeOutTimes o k (letTimeOut o s)
  end.

(** Every identifier handed out so far is below the next one. *)
Definition handlesFresh (s : state) : Prop :=
  (forall h, In h (intervals s) -> (h < nextHandle s)%nat)
  /\ (forall h t, In (h, t) (timeouts s) -> (h < nextHandle s)%nat)
  /\ (forall h, currentTimer s = Some h -> (h < nextHandle s)%nat).

(** At most one timer is live, and it is the one [currentTimer] names. *)
Definition oneTimer (s : state) : Prop :=
  intervals s = [] \/ exists h, currentTimer s = Some h /\ intervals s = [h].

(** The per-word budget in force is the one of the current level. *)
Definition secondsOfLevel (s : state) : Prop :=
  defaultLevelSeconds s = lvls (defaultLevelName s).

(** The state [generateNextWord] leaves when it draws the word [w]. *)
Definition withNextWord (o : oracle) (w : string) (s : state) : state :=
  let i := floorTimes (nextRandom o) (length (currentWords s)) in
  set_currentTimer (Some (nextHandle s))
    (set_nextHandle (S (nextHandle s))
      (set_intervals (intervals s ++ [nextHandle s])
        (set_isFirstWord false
          (set_timeLeftSpan
             (if isFirstWord s then (defaultLevelSeconds s + 3)%Z
              else defaultLevelSeconds s)
            (set_upcomingWords (splice1 i (currentWords s))
              (set_theWord w
                (set_currentWords (splice1 i (currentWords s)) s))))))).

(** The state after [clearInterval(currentTimer)]. *)
Definition timerCleared (s : state) : state :=
  match currentTimer s with
  | Some h =>
    set_timeouts (removeTask h (timeouts s))
      (set_intervals (removeHandle h (intervals s)) s)
  | None => s
  end.

(** The state once the answer is taken: the field is emptied, the error
    mark removed and, for a correct answer, the score incremented. *)
Definition answered (correct : bool) (s : state) : state :=
  let r := set_inputError false (set_inputValue "" s) in
  if correct then set_scoreGot (scoreGot s + 1)%Z r else r.

(** The stored history is readable and holds [items]. *)
Definition storedHistory (s : state) (items : list json) : Prop :=
  fst (getScoreHistory idle s) = Ret (JArray items).

(** The text [saveScore] writes when the history read is [items]. *)
Definition historyWith (items : list json) (s : state) (status date : string)
  : option string :=
  Json.stringify
    (JArray (items ++
       [scoreData (scoreGot s) (scoreTotal s) (defaultLevelName s) status date])).

(** [resolves o correct r s']: from [r], the state in which the timer has
    been cleared, the answer is taken as [correct] and either the next word
    is drawn or, on an empty pool, the game is taken to the end of the
    tier. *)
Definition resolves (o : oracle) (correct : bool) (r s' : state) : Prop :=
  (currentWords r <> [] ->
   exists w, In w (currentWords r)
             /\ s' = withNextWord o w (answered correct r))
  /\ (currentWords r = [] ->
      s' = snd (endGame "win" o (answered correct r))).

(** The fields that make up the game proper. *)
Definition sameGame (s u : state) : Prop :=
  defaultLevelName u = defaultLevelName s
  /\ currentWords u = currentWords s /\ theWord u = theWord s
  /\ scoreGot u = scoreGot s /\ scoreTotal u = scoreTotal s
  /\ localStorage u = localStorage s
  /\ finishMessage u = finishMessage s
  /\ currentTimer u = currentTimer s /\ intervals u = intervals s
  /\ timeLeftSpan u = timeLeftSpan s.

(** [u] comes from [s] through keystrokes, pastes, key presses that are
    not a submission of the word on display, and the timeouts that remove
    the error mark. *)
Inductive keysOnly (s : state) : state -> Prop :=
| keys_none : keysOnly s s
| keys_input (u : state) (o : oracle) (v : string) :
    keysOnly s u -> keysOnly s (step o (Input v) u)
| keys_paste (u : state) (o : oracle) (v : string) :
    keysOnly s u -> keysOnly s (step o (Paste v) u)
| keys_down (u : state) (o : oracle) (key : string) :
    keysOnly s u ->
    key <> "Enter" \/ ciEqual (inputValue u) (theWord u) = false ->
    keysOnly s (step o (Keydown key) u)
| keys_error_timeout (u : state) (o : oracle) (h : handle) :
    keysOnly s u ->
    find (fun x => Nat.eqb (fst x) h) (timeouts u)
    = Some (h, RemoveErrorClass) ->
    keysOnly s (step o (TimeoutFires h) u).

(** The store is as the game leaves it: absent, or holding the text
    [JSON.stringify] gave for a history. *)
Definition gameStore (s : state) : Prop :=
  localStorage s = None
  \/ exists items text,
       Json.stringify (JArray items) = Some text
       /\ localStorage s = Some text.

(** The history in the store, when it can be read, is one the model can
    write back: [JSON.stringify] is modelled on integers in canonical form
    below 2^53 in absolute value, strings of code units below 256, [true],
    [false], [null], arrays, and objects whose keys are distinct and do
    not start with a digit.  Every history the game wrote is of this
    kind. *)
Definition printableStore (s : state) : Prop :=
  forall items, storedHistory s items -> Json.stringify (JArray items) <> None.

(** The level shown everywhere is the level in play: the budget, the level
    select, the level name and the seconds shown all belong to
    [defaultLevelName]. *)
Definition levelInSync (s : state) : Prop :=
  defaultLevelSeconds s = lvls (defaultLevelName s)
  /\ levelSelect s = defaultLevelName s
  /\ lvlNameSpan s = levelName (defaultLevelName s)
  /\ secondsSpan s = lvls (defaultLevelName s).

(** The event is one that earns a point in [s]: Enter, or the tick of a
    live timer that takes the countdown to zero, while the field equals the
    word on display, letter case aside. *)
Definition scores (e : event) (s : state) : bool :=
  match e with
  | Keydown key =>
    String.eqb key "Enter" && ciEqual (inputValue s) (theWord s)
  | IntervalFires h =>
    existsb (Nat.eqb h) (intervals s) && (timeLeftSpan s =? 1)%Z
    && ciEqual (inputValue s) (theWord s)
  | _ => false
  end.

(** The characters of [cs] are typed one after the other at the end of the
    field, each keystroke followed by its input event.  A character here is
    one code unit below 256; a character that the browser delivers as two
    code units in one input event (one outside the Basic Multilingual
    Plane) is not such a keystroke. *)
Fixpoint typeKeys (o : oracle) (cs : string) (s : state) : state :=
  match cs with
  | EmptyString => s
  | String c r =>
    typeKeys o r (step o (Input (inputValue s ++ String c "")) s)
  end.

(** The state with what concerns the sound left out: whether the browser
    has an audio context, the tones played and the console. *)
Definition silenced (s : state) : state :=
  set_console [] (set_tones 0 (set_audioSupported false s)).

(** *** Sample states, for the runs below *)

(** A draw at a quarter of the pool, and a fixed time stamp. *)
Definition sampleOracle : oracle :=
  {| nextRandom := {| num := 1; gap := 2 |};
     isoDate := "2024-01-01T00:00:00.000Z" |}.

(** The Easy tier right after the start button was clicked. *)
Definition firstRound : state :=
  step sampleOracle ClickStart (loaded emptyMarkup None true).

(** The first round with "ju" typed and one second left. *)
Definition lastSecond : state :=
  ticks sampleOracle 7 (step sampleOracle (Input "ju") firstRound).

(** The word on display is typed in full and submitted. *)
Definition answerCorrectly (o : oracle) (s : state) : state :=
  step o (Keydown "Enter") (step o (Input (theWord s)) s).

Fixpoint answerCorrectlyTimes (o : oracle) (n : nat) (s : state) : state :=
  match n with
  | O => s
  | S k => answerCorrectlyTimes o k (answerCorrectly o s)
  end.

(** The Easy tier played to its end with every answer correct. *)
Definition easyCompleted : state :=
  answerCorrectlyTimes sampleOracle 30 firstRound.

(** The last word of the Hard tier, one second before its time is up, in
    a game started on Hard. *)
Definition lastHardSecond : state :=
  let s := letTimeOutTimes sampleOracle 29
             (step sampleOracle ClickStart
                (step sampleOracle (Change Hard)
                   (loaded emptyMarkup None true))) in
  ticks sampleOracle 4 s.

(** The same game when that time is up. *)
Definition wonGame : state := tick sampleOracle lastHardSecond.

(** The last word of the Easy tier typed in full, not yet submitted, in a
    game in which the twenty-nine words before it timed out, on a page
    loaded with the given store. *)
Definition lastEasyWordTyped (storage : option string) : state :=
  let u := letTimeOutTimes sampleOracle 29
             (step sampleOracle ClickStart (loaded emptyMarkup storage true)) in
  step sampleOracle (Input (theWord u)) u.

End Spec.

(** * Tactics

    Symbolic execution of the handlers: unfold them, then split on every
    test they make. *)

Import JsString Json Game Spec.

Ltac run_handlers :=
  cbv beta iota zeta delta
    [step dispatch runTask handleEnterKey handleCorrectAnswer handleWrongAnswer
     handleInputValidation handleStartGame handleLevelChange
     checkAnswer intervalCallback startLevelCallback endGame advanceToNextLevel
     saveGameScore saveScore getScoreHistory incrementScore
     generateNextWord getRandomWord displayCurrentWord displayUpcomingWords
     startTimer updateUIForLevel showInputError resetInputError playErrorSound
     displayEndMessage displayLevelCompleteMessage initializeGame
     setInterval setTimeout clearInterval
     bind ret read write ask throw unmodelled].

Ltac split_match :=
  match goal with
  | |- context [match ?x with _ => _ end] =>
    lazymatch x with
    | context [match _ with _ => _ end] => fail
    | _ => destruct x eqn:?
    end
  end.

Ltac all_cases := run_handlers; repeat (split_match; cbn [fst snd]); cbn.

(** Reduce the projections of a state that was built by setters. *)
Ltac fields :=
  cbn [fst snd
       defaultLevelName defaultLevelSeconds currentWords currentTimer
       isFirstWord startButton levelSelect lvlNameSpan secondsSpan theWord
       upcomingWords upcomingAttached inputValue inputError inputFocused
       timeLeftSpan scoreGot scoreTotal finishMessage intervals timeouts
       nextHandle localStorage audioSupported tones console
       set_defaultLevelName set_defaultLevelSeconds set_currentWords
       set_currentTimer set_isFirstWord set_startButton set_levelSelect
       set_lvlNameSpan set_secondsSpan set_theWord set_upcomingWords
       set_upcomingAttached set_inputValue set_inputError set_inputFocused
       set_timeLeftSpan set_scoreGot set_scoreTotal set_finishMessage
       set_intervals set_timeouts set_nextHandle set_localStorage
       set_audioSupported set_tones set_console].

Ltac handles_step F1 F2 F3 :=
  repeat match goal with
  | H : In _ (filter _ _) |- _ => apply filter_In in H; destruct H as [H _]
  | H : In _ (removeHandle _ _) |- _ => apply filter_In in H; destruct H as [H _]
  | H : In _ (removeTask _ _) |- _ => apply filter_In in H; destruct H as [H _]
  | H : In _ (_ ++ _) |- _ => apply in_app_or in H; destruct H as [H|H]
  | H : In _ [_] |- _ => destruct H as [H|[]]
  | H : (_, _) = (_, _) |- _ => injection H as ? ?; subst
  | H : Some _ = Some _ |- _ => injection H as ?; subst
  | H : In _ (intervals _) |- _ => apply F1 in H
  | H : In (_, _) (timeouts _) |- _ => apply F2 in H
  | H : currentTimer ?s = Some _, E : currentTimer ?s = _ |- _ =>
    rewrite E in H; try discriminate H
  | H : currentTimer _ = Some _ |- _ => apply F3 in H
  end;
  try (specialize (F3 _ eq_refl)); try lia; try congruence.

(** Closed statements about sample runs: split the conjunctions and run
    the model on each part. *)
Ltac conjuncts := repeat match goal with |- _ /\ _ => split end.
Ltac by_running := conjuncts; vm_compute; reflexivity.
Ltac running_each :=
  repeat (match goal with |- _ /\ _ => split end; [vm_compute; reflexivity|]).

Ltac parser_case H :=
  match type of H with
  | match ?x with _ => _ end = _ => destruct x eqn:?; try discriminate H
  | (if ?b then _ else _) = _ => destruct b eqn:?; try discriminate H
  | (let (_, _) := ?x in _) = _ => destruct x eqn:?; try discriminate H
  end.

(** * Properties *)

Local Open Scope Z_scope.

(** ** Running the model *)

Example toLowerCase_hello : toLowerCase "HeLLo" = "hello".
Proof. reflexivity. Qed.

Example ofZ_samples : ofZ 30 = "30" /\ ofZ (-7) = "-7" /\ ofZ 0 = "0".
Proof. repeat split; reflexivity. Qed.

Example parse_samples :
  Json.parse "[]" = Some (JArray [])
  /\ Json.parse " [ 1 , true ] " = Some (JArray [JNumber "1"; JBool true])
  /\ Json.parse "{" = None
  /\ Json.parse "[1,]" = None
  /\ Json.parse "01" = None.
Proof. repeat split; reflexivity. Qed.

(** The page right after the script has run, on the markup with an empty
    word element, score 0 and "Easy" selected. *)
Example loaded_page :
  let s := loaded emptyMarkup None true in
  currentWords s = wordsByLevel Easy /\ scoreTotal s = 30
  /\ timeLeftSpan s = 5 /\ theWord s = "" /\ startButton s = true
  /\ intervals s = [] /\ currentTimer s = None.
Proof. repeat split; reflexivity. Qed.

(** The restart button: the page starts over, the store stays. *)
Example reload_keeps_store :
  localStorage (reload emptyMarkup easyCompleted) = localStorage easyCompleted
  /\ scoreGot (reload emptyMarkup easyCompleted) = 0
  /\ timeouts (reload emptyMarkup easyCompleted) = []
  /\ startButton (reload emptyMarkup easyCompleted) = true.
Proof. by_running. Qed.


(** ** Tier switch and cumulative total (C5) *)

Lemma wordsByLevel_length :
  length (wordsByLevel Easy) = 30%nat
  /\ length (wordsByLevel Normal) = 32%nat
  /\ length (wordsByLevel Hard) = 30%nat.
Proof. repeat split; reflexivity. Qed.

Lemma updateUIForLevel_returns (t : level) (seconds : Z) (keep : bool)
      (o : oracle) (s : state) :
  fst (updateUIForLevel t seconds keep o s) = Ret tt.
Proof. destruct keep; reflexivity. Qed.

Lemma updateUIForLevel_pool (t : level) (seconds : Z) (keep : bool)
      (o : oracle) (s : state) :
  currentWords (snd (updateUIForLevel t seconds keep o s)) = wordsByLevel t.
Proof. destruct keep; reflexivity. Qed.

(** C5. Resetting for tier [t] without [keepScore] sets the cumulative
    total to the length of [t]'s word list, resetting with [keepScore] adds
    that length to the prior total; Easy has 30 words, Normal 32, and the
    advance to Normal after a game reset for Easy leaves the total at 62. *)
Theorem reset_total (t : level) (seconds : Z) (o : oracle) (s : state) :
  scoreTotal (snd (updateUIForLevel t seconds false o s))
    = Z.of_nat (length (wordsByLevel t))
  /\ scoreTotal (snd (updateUIForLevel t seconds true o s))
    = scoreTotal s + Z.of_nat (length (wordsByLevel t))
  /\ length (wordsByLevel Easy) = 30%nat
  /\ length (wordsByLevel Normal) = 32%nat
  /\ scoreTotal
       (snd (startLevelCallback Normal o
               (snd (updateUIForLevel Easy (lvls Easy) false o s)))) = 62.
Proof.
  repeat split; reflexivity.
Qed.

(** The end-to-end run of the specification: Easy completed with all
    answers correct stores one entry, score 30 of 30, and the advance to
    Normal brings the total to 62 and the bonus back. *)
Example easy_tier_all_correct :
  scoreGot easyCompleted = 30 /\ scoreTotal easyCompleted = 30
  /\ currentWords easyCompleted = [] /\ intervals easyCompleted = []
  /\ option_map Json.parse (localStorage easyCompleted)
     = Some (Some (JArray
                     [scoreData 30 30 Easy "win" (isoDate sampleOracle)]))
  /\ finishMessage easyCompleted = [("good", LevelComplete Normal)]
  /\ timeouts easyCompleted = [(31%nat, StartLevel Normal)]
  /\ let s := step sampleOracle (TimeoutFires 31%nat) easyCompleted in
     defaultLevelName s = Normal /\ scoreTotal s = 62 /\ scoreGot s = 30
     /\ timeLeftSpan s = 7 /\ length (currentWords s) = 31%nat
     /\ finishMessage s = [] /\ intervals s = [32%nat].
Proof. cbv zeta. by_running. Qed.


(** ** Strings *)

Lemma toLowerCase_length (s : string) :
  String.length (toLowerCase s) = String.length s.
Proof. induction s as [|c r IH]; simpl; [reflexivity | now rewrite IH]. Qed.

Lemma toLowerCase_empty (s : string) :
  toLowerCase s = "" <-> s = "".
Proof. destruct s; simpl; split; intro H; try reflexivity; discriminate. Qed.

Lemma truthy_false (s : string) : truthy s = false <-> s = "".
Proof. destruct s; simpl; split; intro H; try reflexivity; discriminate. Qed.

(** The handler's prefix test, [currentWord.startsWith(userInput)] on the
    lower-cased strings, is the specification's case-insensitive prefix. *)
Lemma startsWith_lower (p t : string) :
  startsWith (toLowerCase t) (toLowerCase p) = ciPrefix p t.
Proof.
  unfold startsWith. revert t.
  induction p as [|a p IH]; intros t.
  - destruct t; reflexivity.
  - destruct t as [|b t]; simpl; [reflexivity|].
    destruct (ascii_dec (lowerUnit a) (lowerUnit b)) as [E|N].
    + rewrite E, Ascii.eqb_refl. simpl. apply IH.
    + apply Ascii.eqb_neq in N. rewrite N. reflexivity.
Qed.

(** The handlers' equality test, [===] on the lower-cased strings, is the
    specification's case-insensitive equality. *)
Lemma eqb_lower (a b : string) :
  String.eqb (toLowerCase a) (toLowerCase b) = ciEqual a b.
Proof.
  revert b. induction a as [|x a IH]; intros [|y b]; simpl; try reflexivity.
  destruct (Ascii.eqb (lowerUnit x) (lowerUnit y)); simpl; [apply IH | reflexivity].
Qed.

Lemma ciEqual_sym (a b : string) : ciEqual a b = ciEqual b a.
Proof.
  revert b. induction a as [|x a IH]; intros [|y b]; simpl; try reflexivity.
  rewrite Ascii.eqb_sym, IH. reflexivity.
Qed.

Lemma ciEqual_prefix (a b : string) : ciEqual a b = true -> ciPrefix a b = true.
Proof.
  revert b. induction a as [|x a IH]; intros [|y b]; simpl; try easy.
  intros H. apply andb_true_iff in H as [H1 H2].
  rewrite H1. simpl. now apply IH.
Qed.

Lemma sliceButLast_length (s : string) :
  s <> "" -> S (String.length (sliceButLast s)) = String.length s.
Proof.
  induction s as [|c r IH]; intros H; [congruence|].
  destruct r as [|d r']; [reflexivity|].
  change (sliceButLast (String c (String d r')))
    with (String c (sliceButLast (String d r'))).
  simpl String.length. f_equal. apply IH. discriminate.
Qed.

(** Removing the last character undoes a keystroke at the end. *)
Lemma sliceButLast_append (p : string) (c : ascii) :
  sliceButLast (p ++ String c "") = p.
Proof.
  induction p as [|d p IH]; [reflexivity|].
  change (sliceButLast (String d (p ++ String c "")) = String d p).
  destruct (p ++ String c "")%string as [|a r] eqn:E.
  - destruct p; discriminate.
  - change (String d (sliceButLast (String a r)) = String d p).
    f_equal. exact IH.
Qed.

Lemma typeAt_end (p : string) (c : ascii) :
  typeAt (String.length p) c p = (p ++ String c "")%string.
Proof. induction p as [|d p IH]; simpl; [reflexivity | now rewrite IH]. Qed.

(** ** The pool *)

Lemma floorTimes_bound (r : random) (n : nat) :
  (0 < n)%nat -> (floorTimes r n < n)%nat.
Proof.
  intros H. unfold floorTimes.
  apply Nat.Div0.div_lt_upper_bound. nia.
Qed.

Lemma floorTimes_zero (r : random) : floorTimes r 0 = 0%nat.
Proof.
  unfold floorTimes. rewrite Nat.mul_0_r. apply Nat.Div0.div_0_l.
Qed.

Lemma splice1_length {A : Type} (i : nat) (l : list A) :
  (i < length l)%nat -> S (length (splice1 i l)) = length l.
Proof.
  revert i. induction l as [|x l IH]; intros i H; simpl in H; [lia|].
  destruct i as [|j]; simpl; [reflexivity|].
  f_equal. apply IH. lia.
Qed.

Lemma splice1_incl {A : Type} (i : nat) (l : list A) (x : A) :
  In x (splice1 i l) -> In x l.
Proof.
  revert i. induction l as [|y l IH]; intros i H; [destruct i; exact H|].
  destruct i as [|j]; simpl in *; [now right|].
  destruct H as [H|H]; [now left | right; eauto].
Qed.

Lemma splice1_NoDup {A : Type} (i : nat) (l : list A) :
  NoDup l -> NoDup (splice1 i l).
Proof.
  revert i. induction l as [|y l IH]; intros i H; [destruct i; exact H|].
  inversion H as [|? ? Hy Hl]; subst.
  destruct i as [|j]; simpl; [exact Hl|].
  constructor; [|now apply IH].
  intros Hin. apply Hy. eapply splice1_incl; eauto.
Qed.

(** In a pool without duplicates, the word taken out is no longer in it. *)
Lemma splice1_removes {A : Type} (i : nat) (l : list A) (x : A) :
  NoDup l -> nth_error l i = Some x -> ~ In x (splice1 i l).
Proof.
  revert i. induction l as [|y l IH]; intros i H E; [destruct i; discriminate|].
  inversion H as [|? ? Hy Hl]; subst.
  destruct i as [|j]; simpl in *.
  - injection E as ->. exact Hy.
  - intros [Heq|Hin].
    + subst. apply Hy. eapply nth_error_In; eauto.
    + eapply IH; eauto.
Qed.

Lemma NoDup_checked (l : list string) :
  (fix check (l : list string) : bool :=
     match l with
     | [] => true
     | x :: r => negb (existsb (String.eqb x) r) && check r
     end) l = true -> NoDup l.
Proof.
  induction l as [|x r IH]; intros H; [constructor|].
  apply andb_true_iff in H as [H1 H2].
  constructor; [|now apply IH].
  intros Hin. apply negb_true_iff in H1.
  assert (existsb (String.eqb x) r = true) as E.
  { apply existsb_exists. exists x. split; [exact Hin | apply String.eqb_refl]. }
  congruence.
Qed.

(** No tier lists a word twice. *)
Lemma wordsByLevel_NoDup (t : level) : NoDup (wordsByLevel t).
Proof. destruct t; apply NoDup_checked; vm_compute; reflexivity. Qed.

Lemma wordsByLevel_nonempty (t : level) : wordsByLevel t <> [].
Proof. destruct t; discriminate. Qed.

(** ** Invariants of the reachable states *)

Lemma step_pool (o : oracle) (e : event) (s : state) :
  currentWords (step o e s) = currentWords s
  \/ (exists i, currentWords (step o e s) = splice1 i (currentWords s))
  \/ (exists t, currentWords (step o e s) = wordsByLevel t)
  \/ (exists t i, currentWords (step o e s) = splice1 i (wordsByLevel t)).
Proof.
  destruct e; all_cases;
    solve [ now left
          | right; left; eexists; reflexivity
          | right; right; left; eexists; reflexivity
          | right; right; right; eexists; eexists; reflexivity ].
Qed.

Lemma step_pool_NoDup (o : oracle) (e : event) (s : state) :
  NoDup (currentWords s) -> NoDup (currentWords (step o e s)).
Proof.
  intros H.
  destruct (step_pool o e s) as [E|[[i E]|[[t E]|[t [i E]]]]]; rewrite E.
  - exact H.
  - now apply splice1_NoDup.
  - apply wordsByLevel_NoDup.
  - apply splice1_NoDup, wordsByLevel_NoDup.
Qed.

Lemma step_secondsOfLevel (o : oracle) (e : event) (s : state) :
  secondsOfLevel s -> secondsOfLevel (step o e s).
Proof.
  unfold secondsOfLevel. intros H.
  destruct e; all_cases; solve [exact H | reflexivity].
Qed.

(** Until a timer has been started, the first-word flag is still set;
    equivalently, once it is cleared some timer has been started. *)
Lemma step_firstWord (o : oracle) (e : event) (s : state) :
  (isFirstWord s = true \/ currentTimer s <> None) ->
  (isFirstWord (step o e s) = true \/ currentTimer (step o e s) <> None).
Proof.
  intros H.
  destruct e; all_cases;
    solve [exact H | right; congruence | intuition congruence].
Qed.

Lemma removeHandle_In (h x : handle) (l : list handle) :
  In h (removeHandle x l) <-> In h l /\ h <> x.
Proof.
  unfold removeHandle. rewrite filter_In, negb_true_iff, Nat.eqb_neq. tauto.
Qed.

Lemma removeTask_In (h x : handle) (t : task) (l : list (handle * task)) :
  In (h, t) (removeTask x l) <-> In (h, t) l /\ h <> x.
Proof.
  unfold removeTask. rewrite filter_In, negb_true_iff, Nat.eqb_neq. tauto.
Qed.

Lemma step_handlesFresh (o : oracle) (e : event) (s : state) :
  handlesFresh s -> handlesFresh (step o e s).
Proof.
  intros (F1 & F2 & F3). unfold handlesFresh.
  destruct e; all_cases;
    (split; [intros | split; intros]);
    cbn in *; handles_step F1 F2 F3.
Qed.

Lemma loaded_handlesFresh (m : markup) (st : option string) (a : bool) :
  handlesFresh (loaded m st a).
Proof.
  repeat split; cbn; intros; try contradiction; discriminate.
Qed.

Lemma reachable_handlesFresh (s0 s : state) :
  handlesFresh s0 -> reachable s0 s -> handlesFresh s.
Proof.
  intros H0 R. induction R as [|s o e R IH]; [exact H0|].
  apply step_handlesFresh, IH.
Qed.

Lemma reachable_pool_NoDup (s0 s : state) :
  NoDup (currentWords s0) -> reachable s0 s -> NoDup (currentWords s).
Proof.
  intros H0 R. induction R as [|s o e R IH]; [exact H0|].
  apply step_pool_NoDup, IH.
Qed.

Lemma reachable_secondsOfLevel (s0 s : state) :
  secondsOfLevel s0 -> reachable s0 s -> secondsOfLevel s.
Proof.
  intros H0 R. induction R as [|s o e R IH]; [exact H0|].
  apply step_secondsOfLevel, IH.
Qed.

Lemma reachable_firstWord (s0 s : state) :
  (isFirstWord s0 = true \/ currentTimer s0 <> None) -> reachable s0 s ->
  isFirstWord s = true \/ currentTimer s <> None.
Proof.
  intros H0 R. induction R as [|s o e R IH]; [exact H0|].
  apply step_firstWord, IH.
Qed.

Lemma reachable_trans (s0 s1 s2 : state) :
  reachable s0 s1 -> reachable s1 s2 -> reachable s0 s2.
Proof.
  intros R1 R2. induction R2 as [|s o e R IH]; [exact R1|].
  now constructor.
Qed.

Lemma reachable_run (s0 : state) (es : list (oracle * event)) :
  reachable s0 (run es s0).
Proof.
  assert (forall s, reachable s0 s -> reachable s0 (run es s)) as G.
  { induction es as [|[o e] es IH]; intros s R; simpl; [exact R|].
    apply IH. now constructor. }
  apply G. constructor.
Qed.

Lemma reachable_tick (s0 s : state) (o : oracle) :
  reachable s0 s -> reachable s0 (tick o s).
Proof.
  intros R. unfold tick. destruct (currentTimer s); [now constructor | exact R].
Qed.

Lemma reachable_ticks (s0 s : state) (o : oracle) (n : nat) :
  reachable s0 s -> reachable s0 (ticks o n s).
Proof.
  revert s. induction n as [|n IH]; intros s R; simpl; [exact R|].
  apply IH, reachable_tick, R.
Qed.

Lemma reachable_letTimeOutTimes (s0 s : state) (o : oracle) (n : nat) :
  reachable s0 s -> reachable s0 (letTimeOutTimes o n s).
Proof.
  revert s. induction n as [|n IH]; intros s R; simpl; [exact R|].
  apply IH. unfold letTimeOut. apply reachable_ticks, R.
Qed.

(** ** What the handlers do, step by step *)

Lemma pool_draw (o : oracle) (words : list string) :
  words <> [] ->
  exists w,
    nth_error words (floorTimes (nextRandom o) (length words)) = Some w
    /\ In w words.
Proof.
  intros H.
  assert (floorTimes (nextRandom o) (length words) < length words)%nat as B.
  { apply floorTimes_bound. destruct words; [congruence | simpl; lia]. }
  destruct (nth_error words (floorTimes (nextRandom o) (length words)))
    as [w|] eqn:E.
  - exists w. split; [reflexivity | eapply nth_error_In; eauto].
  - apply nth_error_None in E. lia.
Qed.

Lemma generateNextWord_next (o : oracle) (s : state) :
  currentWords s <> [] ->
  exists w,
    nth_error (currentWords s)
              (floorTimes (nextRandom o) (length (currentWords s))) = Some w
    /\ In w (currentWords s)
    /\ generateNextWord o s = (Ret tt, withNextWord o w s).
Proof.
  intros H. destruct (pool_draw o _ H) as (w & E & I).
  exists w. repeat split; try assumption.
  unfold generateNextWord, getRandomWord, displayCurrentWord,
    displayUpcomingWords, startTimer, setInterval, withNextWord.
  cbv beta iota zeta delta [bind ret read write ask]. cbn.
  rewrite E. destruct (isFirstWord s); reflexivity.
Qed.

Lemma pool_guard (words : list string) :
  (0 <? length words)%nat = true <-> words <> [].
Proof.
  destruct words; simpl; split; intro H;
    first [discriminate | congruence | reflexivity].
Qed.

Lemma handleCorrectAnswer_next (o : oracle) (s : state) :
  currentWords s <> [] ->
  exists w,
    In w (currentWords s)
    /\ handleCorrectAnswer o s = (Ret tt, withNextWord o w (answered true s)).
Proof.
  intros H.
  destruct (generateNextWord_next o (answered true s) H) as (w & _ & I & G).
  exists w. split; [exact I|].
  unfold handleCorrectAnswer, resetInputError, incrementScore.
  cbv beta iota zeta delta [bind ret read write ask]. cbn.
  apply pool_guard in H. cbn in H. rewrite H. exact G.
Qed.

Lemma handleCorrectAnswer_last (o : oracle) (s : state) :
  currentWords s = [] ->
  handleCorrectAnswer o s = endGame "win" o (answered true s).
Proof.
  intros H.
  unfold handleCorrectAnswer, resetInputError, incrementScore.
  cbv beta iota zeta delta [bind ret read write ask]. cbn.
  rewrite H. reflexivity.
Qed.

Lemma handleWrongAnswer_next (o : oracle) (s : state) :
  currentWords s <> [] ->
  exists w,
    In w (currentWords s)
    /\ handleWrongAnswer o s = (Ret tt, withNextWord o w (answered false s)).
Proof.
  intros H.
  destruct (generateNextWord_next o (answered false s) H) as (w & _ & I & G).
  exists w. split; [exact I|].
  unfold handleWrongAnswer, resetInputError.
  cbv beta iota zeta delta [bind ret read write ask]. cbn.
  apply pool_guard in H. cbn in H. rewrite H. exact G.
Qed.

Lemma handleWrongAnswer_last (o : oracle) (s : state) :
  currentWords s = [] ->
  handleWrongAnswer o s = endGame "win" o (answered false s).
Proof.
  intros H.
  unfold handleWrongAnswer, resetInputError.
  cbv beta iota zeta delta [bind ret read write ask]. cbn.
  rewrite H. reflexivity.
Qed.

Lemma clearInterval_current (o : oracle) (s : state) :
  clearInterval (currentTimer s) o s = (Ret tt, timerCleared s).
Proof. unfold timerCleared. destruct (currentTimer s); reflexivity. Qed.

(** Enter on a matching input: the timer is cleared, then the answer is
    handled as correct. *)
Lemma enter_equal (o : oracle) (s : state) :
  ciEqual (inputValue s) (theWord s) = true ->
  dispatch (Keydown "Enter") o s = handleCorrectAnswer o (timerCleared s).
Proof.
  intros E. rewrite ciEqual_sym, <- eqb_lower in E.
  unfold dispatch, handleEnterKey. cbn [String.eqb Ascii.eqb Bool.eqb].
  unfold bind at 1. unfold read at 1. unfold bind at 1. unfold read at 1.
  cbv beta iota. rewrite E.
  unfold bind at 1. unfold read at 1. cbv beta iota.
  unfold bind at 1. rewrite clearInterval_current. reflexivity.
Qed.

(** Enter on a non-matching input: error feedback when there is input,
    nothing otherwise. *)
Lemma enter_different (o : oracle) (s : state) :
  ciEqual (inputValue s) (theWord s) = false ->
  dispatch (Keydown "Enter") o s
  = if truthy (inputValue s) then showInputError o s else (Ret tt, s).
Proof.
  intros E. rewrite ciEqual_sym, <- eqb_lower in E.
  unfold dispatch, handleEnterKey. cbn [String.eqb Ascii.eqb Bool.eqb].
  unfold bind at 1. unfold read at 1. unfold bind at 1. unfold read at 1.
  cbv beta iota. rewrite E.
  destruct (inputValue s); reflexivity.
Qed.

(** The tick that takes the countdown to zero: the timer is cleared and the
    answer checked. *)
Lemma last_tick (o : oracle) (h : handle) (s : state) :
  In h (intervals s) -> timeLeftSpan s = 1 ->
  dispatch (IntervalFires h) o s
  = checkAnswer o (timerCleared (set_timeLeftSpan 0 s)).
Proof.
  intros L T.
  assert (existsb (Nat.eqb h) (intervals s) = true) as E.
  { apply existsb_exists. exists h. split; [exact L | apply Nat.eqb_refl]. }
  unfold dispatch, intervalCallback.
  cbv beta iota zeta delta [bind ret read write ask]. cbn [fst snd].
  rewrite E. cbn. rewrite T. cbn.
  unfold timerCleared. cbn.
  destruct (currentTimer s); reflexivity.
Qed.

(** A tick that does not reach zero only counts down. *)
Lemma earlier_tick (o : oracle) (h : handle) (s : state) :
  In h (intervals s) -> timeLeftSpan s <> 1 ->
  dispatch (IntervalFires h) o s
  = (Ret tt, set_timeLeftSpan (timeLeftSpan s - 1) s).
Proof.
  intros L T.
  assert (existsb (Nat.eqb h) (intervals s) = true) as E.
  { apply existsb_exists. exists h. split; [exact L | apply Nat.eqb_refl]. }
  unfold dispatch, intervalCallback.
  cbv beta iota zeta delta [bind ret read write ask]. cbn [fst snd].
  rewrite E. cbn.
  destruct (timeLeftSpan s - 1 =? 0) eqn:Z0; [|reflexivity].
  apply Z.eqb_eq in Z0. lia.
Qed.

Lemma checkAnswer_correct (o : oracle) (s : state) :
  ciEqual (inputValue s) (theWord s) = true ->
  checkAnswer o s = handleCorrectAnswer o s.
Proof.
  intros E. rewrite ciEqual_sym, <- eqb_lower in E.
  unfold checkAnswer.
  unfold bind at 1. unfold read at 1. unfold bind at 1. unfold read at 1.
  cbv beta iota. rewrite E. reflexivity.
Qed.

Lemma checkAnswer_wrong (o : oracle) (s : state) :
  ciEqual (inputValue s) (theWord s) = false ->
  checkAnswer o s = handleWrongAnswer o s.
Proof.
  intros E. rewrite ciEqual_sym, <- eqb_lower in E.
  unfold checkAnswer.
  unfold bind at 1. unfold read at 1. unfold bind at 1. unfold read at 1.
  cbv beta iota. rewrite E. reflexivity.
Qed.

(** The total changes only on a tier switch: a level change or the
    callback of the automatic advance. *)
Lemma total_only_on_tier_switch (o : oracle) (e : event) (s : state) :
  (forall v, e <> Change v) -> (forall h, e <> TimeoutFires h) ->
  scoreTotal (step o e s) = scoreTotal s.
Proof.
  intros H1 H2.
  destruct e; try (exfalso; eapply H1; reflexivity);
    try (exfalso; eapply H2; reflexivity);
    all_cases; reflexivity.
Qed.

(** ** [JSON.parse] always answers

    The parser is given fuel; twice the length of the text is enough, so
    a text is rejected only for its syntax. *)

Lemma skipWs_length (l : list ascii) : (length (skipWs l) <= length l)%nat.
Proof.
  induction l as [|c r IH]; simpl; [lia|].
  destruct (isWs c); simpl; lia.
Qed.

Lemma lexString_length (l k : list ascii) (us : list N) :
  lexString l = Some (us, k) -> (length k < length l)%nat.
Proof.
  revert k us.
  induction l as [l IH] using (well_founded_induction
                                 (Wf_nat.well_founded_ltof _ (@length ascii))).
  unfold Wf_nat.ltof in IH.
  intros k us H. destruct l as [|c r]; [discriminate|].
  cbn [lexString] in H.
  destruct (Ascii.eqb c quote).
  { injection H as _ <-. simpl. lia. }
  destruct (Ascii.eqb c "\").
  - destruct r as [|e r1]; [discriminate|].
    repeat match type of H with
    | (if ?b then _ else _) = _ => destruct b
    | match lexString ?x with _ => _ end = _ =>
      let E := fresh "E" in
      destruct (lexString x) as [[? ?]|] eqn:E; [|discriminate];
      apply IH in E; [|simpl; lia]
    | match ?x with _ => _ end = _ => destruct x; try discriminate
    | Some _ = Some _ => injection H as _ <-
    end; try discriminate; simpl in *; lia.
  - destruct (N_of_ascii c <? 32)%N; [discriminate|].
    destruct (lexString r) as [[us' k']|] eqn:E; [|discriminate].
    injection H as _ <-. apply IH in E; simpl; lia.
Qed.

Lemma digits_length (l : list ascii) :
  (length (snd (digits l)) <= length l)%nat.
Proof.
  induction l as [|c r IH]; simpl; [lia|].
  destruct (isDigit c); [|simpl; lia].
  destruct (digits r) as [ds k]. simpl in *. lia.
Qed.

Lemma lexExponent_length (acc l x k : list ascii) :
  lexExponent acc l = Some (x, k) -> (length k <= length l)%nat.
Proof.
  unfold lexExponent. intros H.
  destruct l as [|c r]; [injection H as _ <-; lia|].
  destruct (Ascii.eqb c "e" || Ascii.eqb c "E").
  - destruct r as [|s r'].
    + cbn in H. discriminate.
    + destruct (Ascii.eqb s "+" || Ascii.eqb s "-").
      * pose proof (digits_length r') as D.
        destruct (digits r') as [[|d ds] k']; [discriminate|].
        injection H as _ <-. simpl in *. lia.
      * pose proof (digits_length (s :: r')) as D.
        destruct (digits (s :: r')) as [[|d ds] k']; [discriminate|].
        injection H as _ <-. simpl in *. lia.
  - injection H as _ <-. lia.
Qed.

Lemma lexFraction_length (acc l x k : list ascii) :
  lexFraction acc l = Some (x, k) -> (length k <= length l)%nat.
Proof.
  unfold lexFraction. intros H.
  destruct l as [|c r]; [injection H as _ <-; lia|].
  destruct (Ascii.eqb c ".").
  - pose proof (digits_length r) as D.
    destruct (digits r) as [[|d ds] k']; [discriminate|].
    apply lexExponent_length in H. simpl in *. lia.
  - apply lexExponent_length in H. exact H.
Qed.

Lemma lexNumber_length (l k : list ascii) (lit : string) :
  l <> [] -> lexNumber l = Some (lit, k) -> (length k < length l)%nat.
Proof.
  intros NE H. unfold lexNumber in H.
  destruct l as [|c r]; [congruence|].
  destruct (Ascii.eqb c "-").
  - destruct r as [|d r']; [discriminate|].
    destruct (Ascii.eqb d "0").
    + destruct (lexFraction _ r') as [[x k']|] eqn:E; [|discriminate].
      injection H as _ <-. apply lexFraction_length in E. simpl. lia.
    + destruct (isDigit d); [|discriminate].
      pose proof (digits_length r') as D.
      destruct (digits r') as [ds k1].
      destruct (lexFraction _ k1) as [[x k']|] eqn:E; [|discriminate].
      injection H as _ <-. apply lexFraction_length in E. simpl in *. lia.
  - destruct (Ascii.eqb c "0").
    + destruct (lexFraction _ r) as [[x k']|] eqn:E; [|discriminate].
      injection H as _ <-. apply lexFraction_length in E. simpl. lia.
    + destruct (isDigit c); [|discriminate].
      pose proof (digits_length r) as D.
      destruct (digits r) as [ds k1].
      destruct (lexFraction _ k1) as [[x k']|] eqn:E; [|discriminate].
      injection H as _ <-. apply lexFraction_length in E. simpl in *. lia.
Qed.

Lemma stripPrefix_length (p l k : list ascii) :
  stripPrefix p l = Some k -> (length k + length p = length l)%nat.
Proof.
  revert l. induction p as [|a p IH]; intros l H.
  - injection H as <-. simpl. lia.
  - destruct l as [|b l]; [discriminate|]. simpl in H.
    destruct (Ascii.eqb a b); [|discriminate].
    apply IH in H. simpl. lia.
Qed.

Lemma skipWs_cons_length (l r : list ascii) (c : ascii) :
  skipWs l = c :: r -> (length r < length l)%nat.
Proof.
  intros H. pose proof (skipWs_length l) as L. rewrite H in L.
  simpl in L. lia.
Qed.

(** Whatever is parsed takes at least one character. *)
Lemma parse_consumes (n : nat) :
  (forall l v k, parseValue n l = Parsed v k -> (length k < length l)%nat)
  /\ (forall l vs k, parseElements n l = Parsed vs k ->
                     (length k < length l)%nat)
  /\ (forall l ms k, parseMembers n l = Parsed ms k ->
                     (length k < length l)%nat).
Proof.
  induction n as [|n (IV & IE & IM)]; [repeat split; intros; discriminate|].
  split; [|split].
  - intros l v k H. cbn [parseValue] in H. cbv zeta in H.
    destruct (skipWs l) as [|c r] eqn:W; [discriminate|].
    apply skipWs_cons_length in W as W'.
    destruct (Ascii.eqb c quote).
    { destruct (lexString r) as [[us k']|] eqn:E; [|discriminate].
      injection H as _ <-. apply lexString_length in E. lia. }
    destruct (Ascii.eqb c "[").
    { destruct (skipWs r) as [|d k'] eqn:W2; [discriminate|].
      apply skipWs_cons_length in W2.
      destruct (Ascii.eqb d "]").
      - injection H as _ <-. lia.
      - destruct (parseElements n r) as [vs k2| |] eqn:E; try discriminate.
        injection H as _ <-. apply IE in E. lia. }
    destruct (Ascii.eqb c "{").
    { destruct (skipWs r) as [|d k'] eqn:W2; [discriminate|].
      apply skipWs_cons_length in W2.
      destruct (Ascii.eqb d "}").
      - injection H as _ <-. lia.
      - destruct (parseMembers n r) as [vs k2| |] eqn:E; try discriminate.
        injection H as _ <-. apply IM in E. lia. }
    destruct (Ascii.eqb c "-" || isDigit c).
    { destruct (lexNumber (c :: r)) as [[lit k']|] eqn:E; [|discriminate].
      injection H as _ <-. apply lexNumber_length in E; [|discriminate].
      simpl in E. lia. }
    repeat parser_case H;
      injection H as _ <-;
      match goal with
      | E : stripPrefix _ _ = Some _ |- _ =>
        apply stripPrefix_length in E; simpl in E; lia
      end.
  - intros l vs k H. cbn [parseElements] in H.
    destruct (parseValue n l) as [v k1| |] eqn:E; try discriminate.
    apply IV in E.
    destruct (skipWs k1) as [|c k2] eqn:W; [discriminate|].
    apply skipWs_cons_length in W.
    destruct (Ascii.eqb c ",").
    + destruct (parseElements n k2) as [vs' k3| |] eqn:E2; try discriminate.
      injection H as _ <-. apply IE in E2. lia.
    + destruct (Ascii.eqb c "]"); [|discriminate].
      injection H as _ <-. lia.
  - intros l ms k H. cbn [parseMembers] in H.
    destruct (skipWs l) as [|q r] eqn:W; [discriminate|].
    apply skipWs_cons_length in W.
    destruct (Ascii.eqb q quote); [|discriminate].
    destruct (lexString r) as [[key k1]|] eqn:E; [|discriminate].
    apply lexString_length in E.
    destruct (skipWs k1) as [|c k2] eqn:W2; [discriminate|].
    apply skipWs_cons_length in W2.
    destruct (Ascii.eqb c ":"); [|discriminate].
    destruct (parseValue n k2) as [v k3| |] eqn:E2; try discriminate.
    apply IV in E2.
    destruct (skipWs k3) as [|d k4] eqn:W3; [discriminate|].
    apply skipWs_cons_length in W3.
    destruct (Ascii.eqb d ",").
    + destruct (parseMembers n k4) as [ms' k5| |] eqn:E3; try discriminate.
      injection H as _ <-. apply IM in E3. lia.
    + destruct (Ascii.eqb d "}"); [|discriminate].
      injection H as _ <-. lia.
Qed.

(** With fuel above twice the length of the text the parser does not run
    out of it. *)
Lemma parse_fuel (n : nat) :
  (forall l, (2 * length l < n)%nat -> parseValue n l <> NoFuel)
  /\ (forall l, (2 * length l + 1 < n)%nat -> parseElements n l <> NoFuel)
  /\ (forall l, (2 * length l + 1 < n)%nat -> parseMembers n l <> NoFuel).
Proof.
  induction n as [|n (IV & IE & IM)]; [repeat split; intros; lia|].
  split; [|split].
  - intros l B H. cbn [parseValue] in H. cbv zeta in H.
    destruct (skipWs l) as [|c r] eqn:W; [discriminate|].
    apply skipWs_cons_length in W.
    destruct (Ascii.eqb c quote).
    { destruct (lexString r) as [[us k']|]; discriminate. }
    destruct (Ascii.eqb c "[").
    { destruct (skipWs r) as [|d k'] eqn:W2; [discriminate|].
      destruct (Ascii.eqb d "]"); [discriminate|].
      destruct (parseElements n r) as [vs k2| |] eqn:E; try discriminate.
      apply IE in E; [exact E | lia]. }
    destruct (Ascii.eqb c "{").
    { destruct (skipWs r) as [|d k'] eqn:W2; [discriminate|].
      destruct (Ascii.eqb d "}"); [discriminate|].
      destruct (parseMembers n r) as [vs k2| |] eqn:E; try discriminate.
      apply IM in E; [exact E | lia]. }
    destruct (Ascii.eqb c "-" || isDigit c).
    { destruct (lexNumber (c :: r)) as [[lit k']|]; discriminate. }
    repeat parser_case H.
  - intros l B H. cbn [parseElements] in H.
    destruct (parseValue n l) as [v k1| |] eqn:E; try discriminate.
    + apply (proj1 (parse_consumes n)) in E.
      destruct (skipWs k1) as [|c k2] eqn:W; [discriminate|].
      apply skipWs_cons_length in W.
      destruct (Ascii.eqb c ",").
      * destruct (parseElements n k2) as [vs' k3| |] eqn:E2; try discriminate.
        apply IE in E2; [exact E2 | lia].
      * destruct (Ascii.eqb c "]"); discriminate.
    + apply IV in E; [exact E | lia].
  - intros l B H. cbn [parseMembers] in H.
    destruct (skipWs l) as [|q r] eqn:W; [discriminate|].
    apply skipWs_cons_length in W.
    destruct (Ascii.eqb q quote); [|discriminate].
    destruct (lexString r) as [[key k1]|] eqn:E; [|discriminate].
    apply lexString_length in E.
    destruct (skipWs k1) as [|c k2] eqn:W2; [discriminate|].
    apply skipWs_cons_length in W2.
    destruct (Ascii.eqb c ":"); [|discriminate].
    destruct (parseValue n k2) as [v k3| |] eqn:E2; try discriminate.
    + apply (proj1 (parse_consumes n)) in E2.
      destruct (skipWs k3) as [|d k4] eqn:W3; [discriminate|].
      apply skipWs_cons_length in W3.
      destruct (Ascii.eqb d ",").
      * destruct (parseMembers n k4) as [ms' k5| |] eqn:E3; try discriminate.
        apply IM in E3; [exact E3 | lia].
      * destruct (Ascii.eqb d "}"); discriminate.
    + apply IV in E2; [exact E2 | lia].
Qed.

Lemma parseText_total (text : string) : parseText text <> NoFuel.
Proof.
  unfold parseText. intros H.
  destruct (parseValue _ _) as [v k| |] eqn:E; try discriminate.
  - destruct (skipWs k); discriminate.
  - apply (proj1 (parse_fuel _)) in E; [exact E | lia].
Qed.

(** So [None] from [parse] is a syntax error. *)
Lemma parse_None_syntax (text : string) :
  Json.parse text = None -> parseText text = Unexpected.
Proof.
  unfold Json.parse. pose proof (parseText_total text) as T.
  destruct (parseText text); congruence.
Qed.

(** ** What [JSON.stringify] writes, [JSON.parse] reads *)

Lemma chars_app (a b : string) :
  list_ascii_of_string (a ++ b)
  = list_ascii_of_string a ++ list_ascii_of_string b.
Proof. induction a as [|c a IH]; simpl; [reflexivity | now rewrite IH]. Qed.

Lemma N_of_ascii_lt (c : ascii) : (N_of_ascii c < 256)%N.
Proof. destruct c as [[] [] [] [] [] [] [] []]; reflexivity. Qed.

Lemma eqb_ascii_of_N (u v : N) :
  (u < 256)%N -> (v < 256)%N -> u <> v ->
  Ascii.eqb (ascii_of_N u) (ascii_of_N v) = false.
Proof.
  intros U V D. apply Ascii.eqb_neq. intros E.
  apply (f_equal N_of_ascii) in E.
  rewrite !N_ascii_embedding in E by assumption. contradiction.
Qed.

(** The escapes of the control characters without a short form. *)
Lemma hex_escape_reads (u : N) :
  (u < 32)%N ->
  hex4 "0" "0" (hexDigit (u / 16)) (hexDigit (u mod 16)) = Some u.
Proof.
  intros B.
  assert (forallb
            (fun n =>
               match hex4 "0" "0" (hexDigit (N.of_nat n / 16))
                          (hexDigit (N.of_nat n mod 16)) with
               | Some x => (x =? N.of_nat n)%N
               | None => false
               end) (seq 0 32) = true) as C by (vm_compute; reflexivity).
  rewrite forallb_forall in C.
  specialize (C (N.to_nat u)).
  rewrite N2Nat.id in C.
  destruct (hex4 _ _ _ _) as [x|].
  - f_equal. apply N.eqb_eq, C, in_seq. lia.
  - assert (false = true) as X by (apply C, in_seq; lia). discriminate X.
Qed.

(** One escaped code unit in front of a string body is read back as that
    code unit. *)
Lemma escapeUnit_reads (u : N) (e : string) (tail k : list ascii)
      (us : list N) :
  escapeUnit u = Some e ->
  lexString tail = Some (us, k) ->
  lexString (list_ascii_of_string e ++ tail) = Some (u :: us, k).
Proof.
  unfold escapeUnit. intros E T.
  destruct (u =? 34)%N eqn:Q34.
  { injection E as <-. apply N.eqb_eq in Q34. subst u.
    cbn. now rewrite T. }
  destruct (u =? 92)%N eqn:Q92.
  { injection E as <-. apply N.eqb_eq in Q92. subst u.
    cbn. now rewrite T. }
  destruct (u =? 8)%N eqn:Q8.
  { injection E as <-. apply N.eqb_eq in Q8. subst u. cbn. now rewrite T. }
  destruct (u =? 9)%N eqn:Q9.
  { injection E as <-. apply N.eqb_eq in Q9. subst u. cbn. now rewrite T. }
  destruct (u =? 10)%N eqn:Q10.
  { injection E as <-. apply N.eqb_eq in Q10. subst u. cbn. now rewrite T. }
  destruct (u =? 12)%N eqn:Q12.
  { injection E as <-. apply N.eqb_eq in Q12. subst u. cbn. now rewrite T. }
  destruct (u =? 13)%N eqn:Q13.
  { injection E as <-. apply N.eqb_eq in Q13. subst u. cbn. now rewrite T. }
  apply N.eqb_neq in Q34, Q92.
  destruct (u <? 32)%N eqn:L32.
  { injection E as <-. apply N.ltb_lt in L32.
    change (lexString
              ("\"%char :: "u"%char :: "0"%char :: "0"%char
               :: hexDigit (u / 16) :: hexDigit (u mod 16) :: tail)
            = Some (u :: us, k)).
    cbn [lexString]. cbn [Ascii.eqb Bool.eqb quote andb].
    rewrite (hex_escape_reads u L32), T. reflexivity. }
  destruct (u <? 256)%N eqn:L256; [|discriminate].
  injection E as <-. apply N.ltb_lt in L256. apply N.ltb_ge in L32.
  change (lexString (ascii_of_N u :: tail) = Some (u :: us, k)).
  cbn [lexString].
  change quote with (ascii_of_N 34).
  change "\"%char with (ascii_of_N 92).
  rewrite (eqb_ascii_of_N u 34), (eqb_ascii_of_N u 92) by (try lia; assumption).
  rewrite N_ascii_embedding by assumption.
  destruct (u <? 32)%N eqn:X; [apply N.ltb_lt in X; lia|].
  now rewrite T.
Qed.

Lemma escapeUnits_reads (us : list N) (body : string) (rest : list ascii) :
  escapeUnits us = Some body ->
  lexString (list_ascii_of_string body ++ quote :: rest) = Some (us, rest).
Proof.
  revert body. induction us as [|u us IH]; intros body E.
  - injection E as <-. cbn. reflexivity.
  - cbn [escapeUnits] in E.
    destruct (escapeUnit u) as [e|] eqn:U; [|discriminate].
    destruct (escapeUnits us) as [b|] eqn:B; [|discriminate].
    injection E as <-.
    rewrite chars_app, <- app_assoc.
    apply (escapeUnit_reads u e _ rest us U). now apply IH.
Qed.

(** A quoted string is read back, whatever follows it. *)
Lemma quoteUnits_reads (us : list N) (t : string) (rest : list ascii) :
  quoteUnits us = Some t ->
  exists body,
    list_ascii_of_string t ++ rest
    = quote :: list_ascii_of_string body ++ quote :: rest
    /\ lexString (list_ascii_of_string body ++ quote :: rest)
       = Some (us, rest).
Proof.
  unfold quoteUnits. intros E.
  destruct (escapeUnits us) as [body|] eqn:B; [|discriminate].
  injection E as <-. exists body. split.
  - cbn. rewrite chars_app, <- app_assoc. reflexivity.
  - now apply escapeUnits_reads.
Qed.

(** *** Numbers *)

Lemma digits_uint (d : Decimal.uint) (rest : list ascii) :
  endsNumber rest = true ->
  digits (list_ascii_of_string (NilEmpty.string_of_uint d) ++ rest)
  = (list_ascii_of_string (NilEmpty.string_of_uint d), rest).
Proof.
  intros E. induction d as [|d IH|d IH|d IH|d IH|d IH|d IH|d IH|d IH|d IH|d IH];
    try (cbn [NilEmpty.string_of_uint list_ascii_of_string app digits];
         change (isDigit _) with true; cbv iota; rewrite IH; reflexivity).
  cbn. destruct rest as [|c r]; [reflexivity|].
  cbn in E. cbn. destruct (isDigit c); [discriminate | reflexivity].
Qed.

Lemma lexFraction_stops (acc rest : list ascii) :
  endsNumber rest = true -> lexFraction acc rest = Some (acc, rest).
Proof.
  intros E. destruct rest as [|c r]; [reflexivity|].
  cbn in E. unfold lexFraction, lexExponent.
  destruct (Ascii.eqb c "."); [rewrite !andb_false_r in E; discriminate|].
  destruct (Ascii.eqb c "e"); [rewrite !andb_false_r in E; discriminate|].
  destruct (Ascii.eqb c "E"); [rewrite !andb_false_r in E; discriminate|].
  reflexivity.
Qed.

(** The decimal digits of a positive number: at least one, the first not
    a zero. *)
Lemma to_uint_head (p : positive) :
  exists c cs,
    list_ascii_of_string (NilEmpty.string_of_uint (Pos.to_uint p)) = c :: cs
    /\ isDigit c = true /\ Ascii.eqb c "0" = false
    /\ Ascii.eqb c "-" = false.
Proof.
  assert (Decimal.unorm (Pos.to_uint p) = Pos.to_uint p) as U.
  { pose proof (DecimalPos.Unsigned.to_of (Pos.to_uint p)) as T.
    rewrite DecimalPos.Unsigned.of_to in T. symmetry. exact T. }
  assert (Decimal.nzhead (Pos.to_uint p) = Pos.to_uint p) as H.
  { rewrite <- U at 2. symmetry. apply DecimalFacts.unorm_nzhead.
    intros N. apply DecimalFacts.unorm_0 in N. rewrite U in N.
    revert N. apply DecimalPos.Unsigned.to_uint_nonzero. }
  pose proof (DecimalFacts.nzhead_nonzero (Pos.to_uint p)) as NZ.
  rewrite H in NZ.
  pose proof (DecimalPos.Unsigned.to_uint_nonnil p) as NN.
  destruct (Pos.to_uint p) as [|d|d|d|d|d|d|d|d|d|d];
    try congruence;
    try (eexists; eexists; split; [reflexivity|]; repeat split; reflexivity).
Qed.

Lemma lexNumber_ofZ (z : Z) (rest : list ascii) :
  endsNumber rest = true ->
  lexNumber (list_ascii_of_string (ofZ z) ++ rest) = Some (ofZ z, rest).
Proof.
  intros E. unfold ofZ. destruct z as [|p|p].
  - change (lexNumber ("0"%char :: rest) = Some ("0", rest)).
    unfold lexNumber. cbn [Ascii.eqb Bool.eqb andb app].
    now rewrite lexFraction_stops.
  - cbn [Z.to_int NilZero.string_of_int].
    pose proof (DecimalPos.Unsigned.to_uint_nonnil p) as NN.
    assert (NilZero.string_of_uint (Pos.to_uint p)
            = NilEmpty.string_of_uint (Pos.to_uint p)) as S
        by (destruct (Pos.to_uint p); [congruence | reflexivity ..]).
    rewrite S.
    destruct (to_uint_head p) as (c & cs & C & D & Z0 & M).
    pose proof (digits_uint (Pos.to_uint p) rest E) as G.
    rewrite C in G |- *. cbn [app] in G |- *.
    unfold lexNumber. rewrite M, Z0, D.
    cbn [digits] in G. rewrite D in G.
    destruct (digits (cs ++ rest)) as [ds k].
    injection G as -> ->.
    cbn [app]. rewrite lexFraction_stops by exact E.
    rewrite <- C, string_of_list_ascii_of_string. reflexivity.
  - cbn [Z.to_int NilZero.string_of_int].
    pose proof (DecimalPos.Unsigned.to_uint_nonnil p) as NN.
    assert (NilZero.string_of_uint (Pos.to_uint p)
            = NilEmpty.string_of_uint (Pos.to_uint p)) as S
        by (destruct (Pos.to_uint p); [congruence | reflexivity ..]).
    rewrite S.
    destruct (to_uint_head p) as (c & cs & C & D & Z0 & M).
    pose proof (digits_uint (Pos.to_uint p) rest E) as G.
    cbn [list_ascii_of_string app].
    rewrite C in G |- *. cbn [app] in G |- *.
    unfold lexNumber. cbn [Ascii.eqb Bool.eqb andb].
    rewrite Z0, D.
    cbn [digits] in G. rewrite D in G.
    destruct (digits (cs ++ rest)) as [ds k].
    injection G as -> ->.
    cbn [app]. rewrite lexFraction_stops by exact E.
    change (string_of_list_ascii ("-"%char :: c :: cs))
      with (String "-" (string_of_list_ascii (c :: cs))).
    rewrite <- C, string_of_list_ascii_of_string. reflexivity.
Qed.

Lemma safeInteger_ofZ (lit : string) :
  safeInteger lit = true -> exists z, lit = ofZ z.
Proof.
  unfold safeInteger. intros H.
  destruct (NilZero.int_of_string lit) as [d|]; [|discriminate].
  apply andb_true_iff in H as [H _].
  apply String.eqb_eq in H. eexists. symmetry. exact H.
Qed.

(** The text of a number starts with a minus sign or a digit. *)
Lemma ofZ_head (z : Z) :
  exists c cs,
    list_ascii_of_string (ofZ z) = c :: cs
    /\ (Ascii.eqb c "-" || isDigit c) = true
    /\ isWs c = false /\ Ascii.eqb c quote = false
    /\ Ascii.eqb c "[" = false /\ Ascii.eqb c "{" = false
    /\ Ascii.eqb c "]" = false /\ Ascii.eqb c "}" = false.
Proof.
  unfold ofZ. destruct z as [|p|p].
  - eexists; eexists; split; [reflexivity|]. repeat split; reflexivity.
  - cbn [Z.to_int NilZero.string_of_int].
    pose proof (DecimalPos.Unsigned.to_uint_nonnil p) as NN.
    assert (NilZero.string_of_uint (Pos.to_uint p)
            = NilEmpty.string_of_uint (Pos.to_uint p)) as S
        by (destruct (Pos.to_uint p); [congruence | reflexivity ..]).
    rewrite S.
    destruct (Pos.to_uint p) as [|d|d|d|d|d|d|d|d|d|d]; try congruence;
      (eexists; eexists; split; [reflexivity|]; repeat split; reflexivity).
  - eexists; eexists; split; [reflexivity|]. repeat split; reflexivity.
Qed.

(** *** Values *)

Lemma endsValue_endsNumber (rest : list ascii) :
  endsValue rest = true -> endsNumber rest = true.
Proof.
  destruct rest as [|c r]; [reflexivity|]. cbn. intros H.
  apply orb_true_iff in H as [H|H]; [apply orb_true_iff in H as [H|H]|];
    apply Ascii.eqb_eq in H; subst c; reflexivity.
Qed.

Lemma skipWs_head (c : ascii) (r : list ascii) :
  isWs c = false -> skipWs (c :: r) = c :: r.
Proof. intros H. cbn. now rewrite H. Qed.

Lemma stringify_array (items : list json) :
  stringify (JArray items)
  = match stringifyItems items with
    | Some parts => Some ("[" ++ String.concat "," parts ++ "]")%string
    | None => None
    end.
Proof. reflexivity. Qed.

Lemma stringify_object (members : list (list N * json)) :
  stringify (JObject members)
  = if plainKeys (map fst members) then
      match stringifyMembers members with
      | Some parts => Some ("{" ++ String.concat "," parts ++ "}")%string
      | None => None
      end
    else None.
Proof. reflexivity. Qed.

Lemma stringify_head (v : json) (t : string) :
  stringify v = Some t ->
  exists c cs, list_ascii_of_string t = c :: cs /\ startsValue c.
Proof.
  unfold startsValue. destruct v as [|[]|lit|us|items|members].
  - intros [= <-]. eexists; eexists; split; [reflexivity|].
    repeat split; reflexivity.
  - intros [= <-]. eexists; eexists; split; [reflexivity|].
    repeat split; reflexivity.
  - intros [= <-]. eexists; eexists; split; [reflexivity|].
    repeat split; reflexivity.
  - cbn [stringify]. destruct (safeInteger lit) eqn:S; [|discriminate].
    intros [= <-]. destruct (safeInteger_ofZ lit S) as (z & ->).
    destruct (ofZ_head z) as (c & cs & C & _ & W & _ & _ & _ & B & K).
    exists c, cs. repeat split; assumption.
  - cbn [stringify]. unfold quoteUnits.
    destruct (escapeUnits us); [|discriminate].
    intros [= <-]. eexists; eexists; split; [reflexivity|].
    repeat split; reflexivity.
  - rewrite stringify_array.
    destruct (stringifyItems items); [|discriminate].
    intros [= <-]. eexists; eexists; split; [reflexivity|].
    repeat split; reflexivity.
  - rewrite stringify_object.
    destruct (plainKeys _); [|discriminate].
    destruct (stringifyMembers members); [|discriminate].
    intros [= <-]. eexists; eexists; split; [reflexivity|].
    repeat split; reflexivity.
Qed.

Lemma concat_cons2 (a b : string) (ps : list string) :
  String.concat "," (a :: b :: ps)
  = (a ++ "," ++ String.concat "," (b :: ps))%string.
Proof. reflexivity. Qed.

Lemma stringifyItems_cons (x : json) (r : list json) (ps : list string) :
  stringifyItems (x :: r) = Some ps ->
  exists a b,
    stringify x = Some a /\ stringifyItems r = Some b /\ ps = a :: b.
Proof.
  change (stringifyItems (x :: r))
    with (match stringify x, stringifyItems r with
          | Some a, Some b => Some (a :: b)
          | _, _ => None
          end).
  destruct (stringify x) as [a|]; [|discriminate].
  destruct (stringifyItems r) as [b|]; [|discriminate].
  intros [= <-]. now exists a, b.
Qed.

Lemma items_read (items : list json) :
  Forall reads items -> items <> [] ->
  forall parts, stringifyItems items = Some parts ->
  forall n rest,
    (2 * length (list_ascii_of_string (String.concat "," parts)
                 ++ "]"%char :: rest) + 1 < n)%nat ->
    parseElements n
      (list_ascii_of_string (String.concat "," parts) ++ "]"%char :: rest)
    = Parsed items rest.
Proof.
  intros F. induction F as [|x items R F IH]; [congruence|].
  intros _ parts S n rest B.
  apply stringifyItems_cons in S as (a & ps & A & P & ->).
  destruct n as [|f]; [lia|]. cbn [parseElements].
  destruct items as [|y items'].
  - (* the last item *)
    injection P as <-. cbn [String.concat] in B |- *.
    rewrite (R a A f ("]"%char :: rest)); [|reflexivity|lia].
    rewrite skipWs_head by reflexivity.
    cbn [Ascii.eqb Bool.eqb andb]. reflexivity.
  - pose proof P as P'.
    apply stringifyItems_cons in P' as (b & ps' & _ & _ & ->).
    rewrite concat_cons2 in B |- *.
    rewrite !chars_app, <- !app_assoc in B |- *.
    cbn [list_ascii_of_string app] in B |- *.
    rewrite !length_app in B. cbn [length] in B.
    rewrite (R a A f); [|reflexivity|rewrite !length_app; cbn [length]; lia].
    rewrite skipWs_head by reflexivity.
    cbn [Ascii.eqb Bool.eqb andb].
    assert (y :: items' <> []) as NE by discriminate.
    rewrite (IH NE (b :: ps') P f rest).
    + reflexivity.
    + rewrite !length_app. cbn [length]. rewrite !length_app in B.
      cbn [length] in B. lia.
Qed.

Lemma stringifyMembers_cons (k : list N) (x : json)
      (r : list (list N * json)) (ps : list string) :
  stringifyMembers ((k, x) :: r) = Some ps ->
  exists q a b,
    quoteUnits k = Some q /\ stringify x = Some a
    /\ stringifyMembers r = Some b /\ ps = (q ++ ":" ++ a)%string :: b.
Proof.
  change (stringifyMembers ((k, x) :: r))
    with (match quoteUnits k, stringify x, stringifyMembers r with
          | Some q, Some a, Some b => Some ((q ++ ":" ++ a)%string :: b)
          | _, _, _ => None
          end).
  destruct (quoteUnits k) as [q|]; [|discriminate].
  destruct (stringify x) as [a|]; [|discriminate].
  destruct (stringifyMembers r) as [b|]; [|discriminate].
  intros [= <-]. now exists q, a, b.
Qed.

Lemma members_read (members : list (list N * json)) :
  Forall (fun m => reads (snd m)) members -> members <> [] ->
  forall parts, stringifyMembers members = Some parts ->
  forall n rest,
    (2 * length (list_ascii_of_string (String.concat "," parts)
                 ++ "}"%char :: rest) + 1 < n)%nat ->
    parseMembers n
      (list_ascii_of_string (String.concat "," parts) ++ "}"%char :: rest)
    = Parsed members rest.
Proof.
  intros F. induction F as [|[k x] members R F IH]; [congruence|].
  intros _ parts S n rest B. cbn [snd] in R.
  apply stringifyMembers_cons in S as (q & a & ps & Q & A & P & ->).
  destruct n as [|f]; [lia|]. cbn [parseMembers].
  destruct members as [|[k' y] members'].
  - (* the last member *)
    injection P as <-. cbn [String.concat] in B |- *.
    rewrite !chars_app, <- !app_assoc in B |- *.
    cbn [list_ascii_of_string app] in B |- *.
    destruct (quoteUnits_reads k q
                (":"%char :: list_ascii_of_string a ++ "}"%char :: rest) Q)
      as (body & E & L).
    rewrite E in B |- *.
    rewrite skipWs_head by reflexivity.
    rewrite Ascii.eqb_refl, L.
    rewrite skipWs_head by reflexivity.
    cbn [Ascii.eqb Bool.eqb andb].
    rewrite (R a A f ("}"%char :: rest)).
    + rewrite skipWs_head by reflexivity.
      cbn [Ascii.eqb Bool.eqb andb]. reflexivity.
    + reflexivity.
    + cbn [length] in B. rewrite !length_app in B. cbn [length] in B.
      rewrite !length_app in B. cbn [length] in B.
      rewrite !length_app. cbn [length]. lia.
  - pose proof P as P'.
    apply stringifyMembers_cons in P' as (q' & b & ps' & _ & _ & _ & ->).
    rewrite concat_cons2 in B |- *.
    rewrite !chars_app, <- !app_assoc in B |- *.
    cbn [list_ascii_of_string app] in B |- *.
    match goal with
    | |- context [list_ascii_of_string q ++ ?tail] =>
      destruct (quoteUnits_reads k q tail Q) as (body & E & L)
    end.
    rewrite E in B |- *.
    rewrite skipWs_head by reflexivity.
    rewrite Ascii.eqb_refl, L.
    rewrite skipWs_head by reflexivity.
    cbn [Ascii.eqb Bool.eqb andb].
    cbn [length] in B. rewrite !length_app in B. cbn [length] in B.
    rewrite !length_app in B. cbn [length] in B.
    rewrite (R a A f).
    + rewrite skipWs_head by reflexivity.
      cbn [Ascii.eqb Bool.eqb andb].
      assert ((k', y) :: members' <> []) as NE by discriminate.
      rewrite (IH NE _ P f rest); [reflexivity|]. lia.
    + reflexivity.
    + rewrite length_app. cbn [length]. lia.
Qed.

(** Every value [stringify] can write is read back by the parser. *)
Lemma value_reads (v : json) : reads v.
Proof.
  induction v as [|b|lit|us|items IH|members IH] using json_induction;
    intros t S n rest E B; (destruct n as [|f]; [lia|]).
  - injection S as <-. destruct rest; reflexivity.
  - destruct b; injection S as <-; destruct rest; reflexivity.
  - cbn [stringify] in S. destruct (safeInteger lit) eqn:I; [|discriminate].
    injection S as <-. destruct (safeInteger_ofZ lit I) as (z & ->).
    destruct (ofZ_head z) as (c & cs & C & D & W & Q & A & O & _).
    cbn [parseValue]. rewrite C. cbn [app].
    rewrite skipWs_head by exact W. cbv zeta. rewrite Q, A, O, D.
    change (c :: cs ++ rest) with ((c :: cs) ++ rest). rewrite <- C.
    rewrite lexNumber_ofZ by (now apply endsValue_endsNumber).
    reflexivity.
  - cbn [stringify] in S.
    destruct (quoteUnits_reads us t rest S) as (body & X & L).
    cbn [parseValue]. rewrite X.
    rewrite skipWs_head by reflexivity. cbv zeta.
    rewrite Ascii.eqb_refl, L. reflexivity.
  - rewrite stringify_array in S.
    destruct (stringifyItems items) as [parts|] eqn:Q; [|discriminate].
    injection S as <-.
    cbn [list_ascii_of_string app] in B |- *.
    rewrite chars_app, <- app_assoc in B |- *.
    cbn [list_ascii_of_string app] in B |- *.
    cbn [parseValue]. rewrite skipWs_head by reflexivity. cbv zeta.
    cbn [Ascii.eqb Bool.eqb andb quote].
    destruct items as [|x items'].
    + injection Q as <-. cbn [String.concat list_ascii_of_string app].
      rewrite skipWs_head by reflexivity.
      cbn [Ascii.eqb Bool.eqb andb]. reflexivity.
    + pose proof Q as Q'.
      apply stringifyItems_cons in Q' as (a & ps & A & _ & ->).
      destruct (stringify_head x a A) as (c & cs & C & W & K & _).
      assert (exists tail,
                 list_ascii_of_string (String.concat "," (a :: ps))
                 ++ "]"%char :: rest = c :: tail) as (tail & T).
      { destruct ps as [|b ps'].
        - cbn [String.concat]. rewrite C. eexists. reflexivity.
        - rewrite concat_cons2, chars_app, C. eexists. reflexivity. }
      rewrite T at 1. rewrite skipWs_head by exact W. rewrite K.
      cbn [length] in B.
      rewrite (items_read _ IH ltac:(discriminate) _ Q f rest); [reflexivity|].
      lia.
  - rewrite stringify_object in S.
    destruct (plainKeys (map fst members)); [|discriminate].
    destruct (stringifyMembers members) as [parts|] eqn:Q; [|discriminate].
    injection S as <-.
    cbn [list_ascii_of_string app] in B |- *.
    rewrite chars_app, <- app_assoc in B |- *.
    cbn [list_ascii_of_string app] in B |- *.
    cbn [parseValue]. rewrite skipWs_head by reflexivity. cbv zeta.
    cbn [Ascii.eqb Bool.eqb andb quote].
    destruct members as [|[k x] members'].
    + injection Q as <-. cbn [String.concat list_ascii_of_string app].
      rewrite skipWs_head by reflexivity.
      cbn [Ascii.eqb Bool.eqb andb]. reflexivity.
    + pose proof Q as Q'.
      apply stringifyMembers_cons in Q' as (q & a & ps & K & _ & _ & ->).
      assert (exists tail,
                 list_ascii_of_string
                   (String.concat "," ((q ++ ":" ++ a)%string :: ps))
                 ++ "}"%char :: rest = quote :: tail) as (tail & T).
      { unfold quoteUnits in K.
        destruct (escapeUnits k) as [body|]; [|discriminate].
        injection K as <-.
        destruct ps as [|b ps'].
        - cbn [String.concat]. eexists. reflexivity.
        - rewrite concat_cons2. eexists. reflexivity. }
      rewrite T at 1. rewrite skipWs_head by reflexivity.
      cbn [Ascii.eqb Bool.eqb andb quote].
      cbn [length] in B.
      rewrite (members_read _ IH ltac:(discriminate) _ Q f rest);
        [reflexivity|].
      lia.
Qed.

(** [JSON.parse(JSON.stringify(v))] is [v]. *)
Lemma stringify_parse (v : json) (t : string) :
  stringify v = Some t -> Json.parse t = Some v.
Proof.
  intros S. unfold Json.parse, parseText.
  pose proof (value_reads v t S
                (2 * length (list_ascii_of_string t) + 1)%nat []
                eq_refl) as R.
  rewrite List.app_nil_r in R. rewrite R by lia. reflexivity.
Qed.

(** [endGame] touches the end message, the upcoming-words element, the
    storage and the pending timeouts, and nothing of the round. *)
Lemma endGame_frame (status : string) (o : oracle) (s : state) :
  let s' := snd (endGame status o s) in
  scoreGot s' = scoreGot s /\ scoreTotal s' = scoreTotal s
  /\ currentWords s' = currentWords s /\ theWord s' = theWord s
  /\ inputValue s' = inputValue s /\ inputError s' = inputError s
  /\ defaultLevelName s' = defaultLevelName s
  /\ defaultLevelSeconds s' = defaultLevelSeconds s
  /\ currentTimer s' = currentTimer s /\ intervals s' = intervals s
  /\ timeLeftSpan s' = timeLeftSpan s /\ isFirstWord s' = isFirstWord s
  /\ startButton s' = startButton s.
Proof.
  all_cases; repeat split; reflexivity.
Qed.

Lemma showInputError_frame (o : oracle) (s : state) :
  let s' := snd (showInputError o s) in
  fst (showInputError o s) = Ret tt
  /\ inputError s' = true
  /\ timeouts s' = timeouts s ++ [(nextHandle s, RemoveErrorClass)]
  /\ (tones s' = S (tones s)
      \/ console s' = console s ++ ["Audio not supported"])
  /\ theWord s' = theWord s /\ inputValue s' = inputValue s
  /\ currentWords s' = currentWords s
  /\ scoreGot s' = scoreGot s /\ scoreTotal s' = scoreTotal s
  /\ defaultLevelName s' = defaultLevelName s
  /\ currentTimer s' = currentTimer s /\ intervals s' = intervals s
  /\ timeLeftSpan s' = timeLeftSpan s /\ isFirstWord s' = isFirstWord s
  /\ localStorage s' = localStorage s /\ finishMessage s' = finishMessage s.
Proof.
  all_cases; repeat split; try reflexivity; auto.
Qed.

Lemma timerCleared_frame (s : state) :
  let s' := timerCleared s in
  currentWords s' = currentWords s /\ scoreGot s' = scoreGot s
  /\ theWord s' = theWord s /\ inputValue s' = inputValue s
  /\ nextHandle s' = nextHandle s /\ currentTimer s' = currentTimer s
  /\ defaultLevelName s' = defaultLevelName s
  /\ defaultLevelSeconds s' = defaultLevelSeconds s
  /\ isFirstWord s' = isFirstWord s /\ timeLeftSpan s' = timeLeftSpan s
  /\ scoreTotal s' = scoreTotal s /\ localStorage s' = localStorage s
  /\ finishMessage s' = finishMessage s.
Proof.
  unfold timerCleared.
  destruct (currentTimer s) eqn:E; cbn; repeat split; auto.
Qed.


Lemma removeHandle_single (h : handle) : removeHandle h [h] = [].
Proof. unfold removeHandle. cbn. now rewrite Nat.eqb_refl. Qed.

Lemma not_live_no_tick (o : oracle) (h : handle) (s : state) :
  ~ In h (intervals s) -> step o (IntervalFires h) s = s.
Proof.
  intros N. unfold step, dispatch.
  cbv beta iota zeta delta [bind ret read write ask]. cbn [fst snd].
  destruct (existsb (Nat.eqb h) (intervals s)) eqn:E; [|reflexivity].
  apply existsb_exists in E as (x & I & X).
  apply Nat.eqb_eq in X. subst x. contradiction.
Qed.

(** *** How a round is resolved *)

Lemma handleCorrectAnswer_resolves (o : oracle) (r : state) :
  resolves o true r (snd (handleCorrectAnswer o r)).
Proof.
  split; intros W.
  - destruct (handleCorrectAnswer_next o r W) as (w & I & G).
    exists w. now rewrite G.
  - now rewrite handleCorrectAnswer_last.
Qed.

Lemma handleWrongAnswer_resolves (o : oracle) (r : state) :
  resolves o false r (snd (handleWrongAnswer o r)).
Proof.
  split; intros W.
  - destruct (handleWrongAnswer_next o r W) as (w & I & G).
    exists w. now rewrite G.
  - now rewrite handleWrongAnswer_last.
Qed.

(** Enter on the matching input resolves the round as correct. *)
Lemma enter_resolves (o : oracle) (s : state) :
  ciEqual (inputValue s) (theWord s) = true ->
  resolves o true (timerCleared s) (step o (Keydown "Enter") s).
Proof.
  intros E. unfold step. rewrite (enter_equal o s E).
  apply handleCorrectAnswer_resolves.
Qed.

(** The tick that reaches zero resolves the round, as correct when the
    field holds the target and as wrong otherwise. *)
Lemma timeout_resolves (o : oracle) (h : handle) (s : state) :
  In h (intervals s) -> timeLeftSpan s = 1 ->
  resolves o (ciEqual (inputValue s) (theWord s))
           (timerCleared (set_timeLeftSpan 0 s))
           (step o (IntervalFires h) s).
Proof.
  intros L T. unfold step. rewrite (last_tick o h s L T).
  destruct (timerCleared_frame (set_timeLeftSpan 0 s))
    as (_ & _ & W & V & _).
  destruct (ciEqual (inputValue s) (theWord s)) eqn:E.
  - rewrite checkAnswer_correct by (rewrite W, V; exact E).
    apply handleCorrectAnswer_resolves.
  - rewrite checkAnswer_wrong by (rewrite W, V; exact E).
    apply handleWrongAnswer_resolves.
Qed.

(** What a resolved round looks like, whichever way it went. *)
Lemma resolves_facts (o : oracle) (correct : bool) (r s' : state) :
  resolves o correct r s' ->
  scoreGot s' = (if correct then scoreGot r + 1 else scoreGot r)
  /\ inputValue s' = "" /\ inputError s' = false
  /\ scoreTotal s' = scoreTotal r
  /\ defaultLevelName s' = defaultLevelName r
  /\ defaultLevelSeconds s' = defaultLevelSeconds r
  /\ isFirstWord s'
     = match currentWords r with [] => isFirstWord r | _ => false end
  /\ (currentWords r <> [] ->
      S (length (currentWords s')) = length (currentWords r)
      /\ In (theWord s') (currentWords r)
      /\ currentTimer s' = Some (nextHandle r)
      /\ intervals s' = intervals r ++ [nextHandle r]
      /\ timeLeftSpan s'
         = if isFirstWord r then defaultLevelSeconds r + 3
           else defaultLevelSeconds r)
  /\ (currentWords r = [] ->
      currentWords s' = [] /\ theWord s' = theWord r
      /\ currentTimer s' = currentTimer r /\ intervals s' = intervals r).
Proof.
  intros (N & Z).
  destruct (currentWords r) as [|x l] eqn:W.
  - rewrite (Z eq_refl).
    destruct (endGame_frame "win" o (answered correct r))
      as (A & B & C & D & E & F & G & H & I & J & K & L & _).
    rewrite A, B, C, D, E, F, G, H, I, J, L.
    destruct correct; cbn; rewrite W; repeat split; congruence.
  - destruct N as (w & I & ->); [discriminate|].
    assert (floorTimes (nextRandom o) (length (x :: l)) < length (x :: l))%nat
      as B by (apply floorTimes_bound; simpl; lia).
    destruct correct; cbn; rewrite W; repeat split;
      first [congruence | exact (splice1_length _ _ B) | exact I].
Qed.

(** Enter on an input that does not match leaves the round pending. *)
Lemma enter_pending (o : oracle) (s : state) :
  ciEqual (inputValue s) (theWord s) = false ->
  let e := step o (Keydown "Enter") s in
  e = (if truthy (inputValue s) then snd (showInputError o s) else s)
  /\ theWord e = theWord s /\ inputValue e = inputValue s
  /\ currentWords e = currentWords s
  /\ scoreGot e = scoreGot s /\ scoreTotal e = scoreTotal s
  /\ defaultLevelName e = defaultLevelName s
  /\ currentTimer e = currentTimer s /\ intervals e = intervals s
  /\ timeLeftSpan e = timeLeftSpan s /\ isFirstWord e = isFirstWord s
  /\ localStorage e = localStorage s /\ finishMessage e = finishMessage s.
Proof.
  intros E e. subst e. unfold step. rewrite (enter_different o s E).
  destruct (truthy (inputValue s)); [|cbn; repeat split; reflexivity].
  destruct (showInputError_frame o s)
    as (_ & _ & _ & _ & A & B & C & D & F & G & H & I & J & K & L & M).
  repeat split; assumption.
Qed.

(** ** Sample states *)

(** A game on the Easy tier right after the start button was clicked:
    "Jump" is the target and the first timer runs. *)
Example firstRound_target :
  theWord firstRound = "Jump" /\ timeLeftSpan firstRound = 8
  /\ intervals firstRound = [1%nat] /\ currentTimer firstRound = Some 1%nat
  /\ length (currentWords firstRound) = 29%nat.
Proof. repeat split; reflexivity. Qed.

Lemma firstRound_reachable :
  reachable (loaded emptyMarkup None true) firstRound.
Proof. unfold firstRound. constructor. constructor. Qed.

Lemma firstRound_fresh : handlesFresh firstRound.
Proof.
  apply (reachable_handlesFresh (loaded emptyMarkup None true)).
  - apply loaded_handlesFresh.
  - apply firstRound_reachable.
Qed.

(** "ju" typed against "Jump", one second left. *)
Example lastSecond_state :
  theWord lastSecond = "Jump" /\ inputValue lastSecond = "ju"
  /\ timeLeftSpan lastSecond = 1 /\ intervals lastSecond = [1%nat]
  /\ currentTimer lastSecond = Some 1%nat
  /\ ciEqual (inputValue lastSecond) (theWord lastSecond) = false.
Proof. by_running. Qed.


(** ** Submission (C7) *)



(** ** Timeout and wrong submission (C3) *)




(** ** One live timer (C2) *)

Lemma startTimer_adds (o : oracle) (s : state) :
  let s' := snd (startTimer o s) in
  intervals s' = intervals s ++ [nextHandle s]
  /\ currentTimer s' = Some (nextHandle s)
  /\ timeouts s' = timeouts s.
Proof. repeat split; reflexivity. Qed.

(** After a round is resolved from a state whose only live timer is the
    current one, at most one timer is live and the old one is gone. *)
Lemma resolved_one_timer (o : oracle) (h : handle) (s : state)
      (correct : bool) (s' : state) :
  handlesFresh s -> currentTimer s = Some h -> intervals s = [h] ->
  resolves o correct (timerCleared s) s' ->
  oneTimer s' /\ ~ In h (intervals s').
Proof.
  intros (F1 & F2 & F3) C L R.
  destruct (resolves_facts o correct _ s' R)
    as (_ & _ & _ & _ & _ & _ & _ & N & Z).
  assert (intervals (timerCleared s) = []) as I.
  { unfold timerCleared. rewrite C. cbn. rewrite L.
    apply removeHandle_single. }
  destruct (timerCleared_frame s) as (_ & _ & _ & _ & X & _).
  destruct (currentWords (timerCleared s)) as [|x l] eqn:W.
  - destruct (Z eq_refl) as (_ & _ & _ & J).
    split.
    + left. now rewrite J.
    + rewrite J, I. intros [].
  - destruct N as (_ & _ & T & J & _); [discriminate|].
    split.
    + right. exists (nextHandle (timerCleared s)).
      rewrite J, I. split; [exact T | reflexivity].
    + rewrite J, I, X. cbn. intros [E|[]].
      apply F3 in C. lia.
Qed.

(** C2, as the code has it.  [startTimer] itself cancels nothing: it adds a
    timer next to the live one.  It is the callers that resolve a round,
    Enter on the matching input and the tick that reaches zero, that cancel
    the current timer first; from a state whose only live timer is the
    current one they lead to a state with at most one live timer, in which
    the previous instance is gone and its tick changes nothing. *)
Theorem callers_cancel_before_start
        (o o' : oracle) (h : handle) (s : state) :
  handlesFresh s -> currentTimer s = Some h -> intervals s = [h] ->
  intervals (snd (startTimer o s)) = [h; nextHandle s]
  /\ (ciEqual (inputValue s) (theWord s) = true ->
      let s' := step o (Keydown "Enter") s in
      oneTimer s' /\ ~ In h (intervals s')
      /\ step o' (IntervalFires h) s' = s')
  /\ (timeLeftSpan s = 1 ->
      let s' := step o (IntervalFires h) s in
      oneTimer s' /\ ~ In h (intervals s')
      /\ step o' (IntervalFires h) s' = s').
Proof.
  intros F C L. split; [|split].
  - destruct (startTimer_adds o s) as (A & _). rewrite A, L. reflexivity.
  - intros E s'.
    destruct (resolved_one_timer o h s true s' F C L (enter_resolves o s E))
      as (R1 & R2).
    repeat split; try assumption. now apply not_live_no_tick.
  - intros T s'.
    assert (In h (intervals s)) as I by (rewrite L; now left).
    assert (timerCleared (set_timeLeftSpan 0 s)
            = timerCleared (set_timeLeftSpan 0 s)) as _ by reflexivity.
    destruct (resolved_one_timer o h (set_timeLeftSpan 0 s) _ s' F C L
                (timeout_resolves o h s I T)) as (R1 & R2).
    repeat split; try assumption. now apply not_live_no_tick.
Qed.

(** C2 fails as stated: with the first timer live, [startTimer] leaves two
    timers live, and a tick of the previous one still counts down.  Such a
    state is reached by pressing Enter on the empty field of the fresh page
    and clicking the start button afterwards. *)
Lemma startTimer_keeps_previous :
  let s := snd (startTimer sampleOracle firstRound) in
  intervals firstRound = [1%nat]
  /\ intervals s = [1%nat; 2%nat]
  /\ timeLeftSpan (step sampleOracle (IntervalFires 1%nat) s)
     = timeLeftSpan s - 1
  /\ intervals
       (run [(sampleOracle, Keydown "Enter"); (sampleOracle, ClickStart)]
            (loaded emptyMarkup None true)) = [1%nat; 2%nat].
Proof. cbv zeta. by_running. Qed.

Lemma callers_cancel_witness :
  (handlesFresh firstRound /\ currentTimer firstRound = Some 1%nat
   /\ intervals firstRound = [1%nat])
  /\ intervals (snd (startTimer sampleOracle firstRound))
     = [1%nat; nextHandle firstRound].
Proof.
  split.
  - split; [exact firstRound_fresh | split; reflexivity].
  - exact (proj1 (callers_cancel_before_start sampleOracle sampleOracle
                    1%nat firstRound firstRound_fresh eq_refl eq_refl)).
Defined.

(** ** Live validation of the input (C9) *)

(** What the input handler does with the field's new content [v]. *)
Lemma input_validation (o : oracle) (v : string) (s : state) :
  let s' := step o (Input v) s in
  (v <> "" -> ciPrefix v (theWord s) = false ->
   inputError s' = true
   /\ inputValue s' = sliceButLast v
   /\ S (String.length (inputValue s')) = String.length v
   /\ timeouts s' = timeouts s ++ [(nextHandle s, RemoveErrorClass)]
   /\ (tones s' = S (tones s)
       \/ console s' = console s ++ ["Audio not supported"]))
  /\ (v = "" \/ ciPrefix v (theWord s) = true ->
      inputError s' = false /\ inputValue s' = v)
  /\ theWord s' = theWord s /\ currentWords s' = currentWords s
  /\ scoreGot s' = scoreGot s /\ scoreTotal s' = scoreTotal s
  /\ defaultLevelName s' = defaultLevelName s
  /\ currentTimer s' = currentTimer s /\ intervals s' = intervals s
  /\ timeLeftSpan s' = timeLeftSpan s /\ isFirstWord s' = isFirstWord s
  /\ localStorage s' = localStorage s /\ finishMessage s' = finishMessage s.
Proof.
  intros s'. subst s'. unfold step, dispatch, handleInputValidation.
  cbv beta iota zeta delta [bind ret read write ask]. cbn [fst snd].
  cbn [theWord inputValue set_inputValue].
  rewrite startsWith_lower.
  destruct v as [|c v'].
  - cbn. repeat split; try reflexivity; intros; congruence.
  - cbn [toLowerCase truthy andb].
    destruct (ciPrefix (String c v') (theWord s)) eqn:P.
    + cbn. repeat split; try reflexivity; intros; try congruence.
    + cbn [negb].
      unfold showInputError, playErrorSound, setTimeout.
      cbv beta iota zeta delta [bind ret read write ask]. cbn [fst snd].
      cbn [audioSupported set_inputError set_inputValue].
      destruct (audioSupported s) eqn:A;
        cbn -[sliceButLast String.length];
        (repeat split; try reflexivity; intros; try congruence;
         [apply sliceButLast_length; discriminate | auto
         | destruct H; congruence | destruct H; congruence]).
Qed.

(** A keystroke at the end of the field that breaks the prefix is taken
    back: the field returns to what it held before. *)
Lemma keystroke_at_end_rejected (o : oracle) (p : string) (c : ascii)
      (s : state) :
  ciPrefix (p ++ String c "") (theWord s) = false ->
  inputValue (step o (Input (typeAt (String.length p) c p)) s) = p.
Proof.
  intros P. rewrite typeAt_end.
  destruct (input_validation o (p ++ String c "") s) as (A & _).
  destruct A as (_ & A & _); [destruct p; discriminate | exact P |].
  rewrite A. apply sliceButLast_append.
Qed.

(** C9 on a keystroke that is not at the end of the field.  With "ju" typed
    against the target "Jump", an "x" typed in front of it gives "xju"; the
    handler signals the error and drops the last character, so the field
    holds "xj": the character just typed stays and the "u" typed before is
    lost. *)
Theorem keystroke_in_front_keeps_typed_character :
  let s := step sampleOracle (Input "ju")
             (step sampleOracle (Input "j") firstRound) in
  let s' := step sampleOracle (Input (typeAt 0 "x" (inputValue s))) s in
  theWord s = "Jump" /\ inputValue s = "ju" /\ inputError s = false
  /\ typeAt 0 "x" (inputValue s) = "xju"
  /\ inputError s' = true /\ inputValue s' = "xj" /\ inputValue s' <> "ju".
Proof.
  cbv zeta. running_each.
  vm_compute. discriminate.
Qed.

(** ** Bonus time (C8) *)

Lemma startTimer_duration (o : oracle) (s : state) :
  timeLeftSpan (snd (startTimer o s))
  = (if isFirstWord s then defaultLevelSeconds s + 3
     else defaultLevelSeconds s)
  /\ isFirstWord (snd (startTimer o s)) = false.
Proof. split; reflexivity. Qed.

(** The start button arms the bonus: the first word runs for the budget
    plus three seconds. *)
Lemma start_bonus (o : oracle) (s : state) :
  startButton s = true -> secondsOfLevel s ->
  timeLeftSpan (step o ClickStart s) = lvls (defaultLevelName s) + 3
  /\ isFirstWord (step o ClickStart s) = false.
Proof.
  intros B L. unfold step, dispatch.
  cbv beta iota zeta delta [bind ret read write ask]. cbn [fst snd].
  rewrite B. cbn. rewrite <- L. split; reflexivity.
Qed.

(** So does the callback of the automatic advance. *)
Lemma advance_bonus (o : oracle) (next : level) (s : state) :
  let s' := snd (startLevelCallback next o s) in
  fst (startLevelCallback next o s) = Ret tt
  /\ defaultLevelName s' = next
  /\ defaultLevelSeconds s' = lvls next
  /\ timeLeftSpan s' = lvls next + 3
  /\ isFirstWord s' = false
  /\ S (length (currentWords s')) = length (wordsByLevel next)
  /\ In (theWord s') (wordsByLevel next)
  /\ scoreTotal s' = scoreTotal s + Z.of_nat (length (wordsByLevel next)).
Proof.
  assert (exists w, nth_error (wordsByLevel next)
            (floorTimes (nextRandom o) (length (wordsByLevel next))) = Some w
            /\ In w (wordsByLevel next)) as (w & E & I)
      by (apply pool_draw, wordsByLevel_nonempty).
  assert (floorTimes (nextRandom o) (length (wordsByLevel next))
          < length (wordsByLevel next))%nat as B.
  { apply floorTimes_bound. destruct next; simpl; lia. }
  cbv zeta. unfold startLevelCallback, updateUIForLevel, generateNextWord,
    getRandomWord, displayCurrentWord, displayUpcomingWords, startTimer,
    setInterval.
  cbv beta iota zeta delta [bind ret read write ask]. cbn [fst snd].
  cbn -[wordsByLevel lvls floorTimes Z.add]. rewrite E.
  repeat split; try reflexivity.
  - apply splice1_length, B.
  - exact I.
Qed.

(** Later words of the tier run for the budget alone. *)
Lemma later_words_no_bonus (o : oracle) (correct : bool) (r s' : state) :
  resolves o correct r s' -> isFirstWord r = false ->
  currentWords r <> [] ->
  timeLeftSpan s' = defaultLevelSeconds r /\ isFirstWord s' = false.
Proof.
  intros R F W.
  destruct (resolves_facts o correct r s' R)
    as (_ & _ & _ & _ & _ & _ & G & N & _).
  destruct (N W) as (_ & _ & _ & _ & T).
  rewrite F in T. split; [exact T|].
  rewrite G. destruct (currentWords r); [congruence | reflexivity].
Qed.

(** A manual change of level switches the tier and leaves the flag as it
    is. *)
Lemma level_change_keeps_flag (o : oracle) (t : level) (s : state) :
  isFirstWord (step o (Change t) s) = isFirstWord s
  /\ (level_eqb t (levelSelect s) = false ->
      defaultLevelName (step o (Change t) s) = t
      /\ defaultLevelSeconds (step o (Change t) s) = lvls t
      /\ currentWords (step o (Change t) s) = wordsByLevel t).
Proof.
  unfold step, dispatch, handleLevelChange, updateUIForLevel.
  cbv beta iota zeta delta [bind ret read write ask]. cbn [fst snd].
  destruct (level_eqb t (levelSelect s)); cbn; repeat split;
    intros; try reflexivity; congruence.
Qed.

(** C8 on a tier entered by a manual change of level.  The game is started
    on Easy, the level select is set to Normal while the first word is up,
    and the word is left to time out: the next word is the first word of
    Normal, whose budget is 4 seconds, and its timer is started with 4
    seconds, not 7. *)
Theorem manual_change_first_word_without_bonus :
  let s := letTimeOut sampleOracle
             (step sampleOracle (Change Normal) firstRound) in
  defaultLevelName s = Normal
  /\ In (theWord s) (wordsByLevel Normal)
  /\ S (length (currentWords s)) = length (wordsByLevel Normal)
  /\ lvls Normal = 4
  /\ timeLeftSpan s = 4
  /\ timeLeftSpan s <> lvls Normal + 3.
Proof.
  cbv zeta.
  repeat (match goal with |- _ /\ _ => split end; [vm_compute; auto 30|]).
  vm_compute. discriminate.
Qed.

(** ** Selection without replacement (C6) *)

Lemma getRandomWord_draw (o : oracle) (s : state) :
  let i := floorTimes (nextRandom o) (length (currentWords s)) in
  getRandomWord o s
  = (Ret (nth_error (currentWords s) i),
     set_currentWords (splice1 i (currentWords s)) s).
Proof. reflexivity. Qed.

Lemma selections_in (os : list oracle) (s : state) (j : nat) (w : string) :
  nth_error (selections os s) j = Some (Some w) -> In w (currentWords s).
Proof.
  revert s j. induction os as [|o os IH]; intros s j H.
  - destruct j; discriminate.
  - cbn [selections] in H. rewrite getRandomWord_draw in H.
    destruct j as [|j]; cbn in H.
    + injection H as H. eapply nth_error_In; eauto.
    + apply IH in H. cbn in H. eapply splice1_incl; eauto.
Qed.

Lemma selections_distinct (os : list oracle) (s : state) :
  NoDup (currentWords s) ->
  forall i j w, (i < j)%nat ->
    nth_error (selections os s) i = Some (Some w) ->
    nth_error (selections os s) j <> Some (Some w).
Proof.
  revert s. induction os as [|o os IH]; intros s D i j w L Hi Hj.
  - destruct i; discriminate.
  - cbn [selections] in Hi, Hj. rewrite getRandomWord_draw in Hi, Hj.
    destruct j as [|j]; [lia|]. cbn in Hj.
    destruct i as [|i]; cbn in Hi.
    + injection Hi as Hi. apply selections_in in Hj. cbn in Hj.
      revert Hj. now apply splice1_removes.
    + refine (IH _ _ i j w _ Hi Hj); [|lia].
      cbn. now apply splice1_NoDup.
Qed.

Lemma loaded_pool_NoDup (m : markup) (st : option string) (a : bool) :
  NoDup (currentWords (loaded m st a)).
Proof. apply (wordsByLevel_NoDup Easy). Qed.

(** C6. In every state of a game, a selection from a non-empty pool
    returns a word of the pool and removes it: the word is no longer in the
    pool and the pool is exactly one word shorter.  Between two resets of
    the pool, that is over any number of successive selections, no word is
    returned twice. *)
Theorem selection_without_replacement
        (m : markup) (st : option string) (a : bool)
        (o : oracle) (os : list oracle) (s : state) :
  reachable (loaded m st a) s ->
  (currentWords s <> [] ->
   exists w,
     fst (getRandomWord o s) = Ret (Some w)
     /\ In w (currentWords s)
     /\ ~ In w (currentWords (snd (getRandomWord o s)))
     /\ S (length (currentWords (snd (getRandomWord o s))))
        = length (currentWords s))
  /\ (forall i j w, i <> j ->
        nth_error (selections os s) i = Some (Some w) ->
        nth_error (selections os s) j <> Some (Some w)).
Proof.
  intros R.
  assert (NoDup (currentWords s)) as D
      by (eapply reachable_pool_NoDup; [apply loaded_pool_NoDup | exact R]).
  split.
  - intros W. destruct (pool_draw o _ W) as (w & E & I).
    exists w. rewrite getRandomWord_draw. cbn. repeat split.
    + now rewrite E.
    + exact I.
    + now apply splice1_removes.
    + apply splice1_length, floorTimes_bound.
      destruct (currentWords s); [congruence | simpl; lia].
  - intros i j w N Hi Hj.
    destruct (Nat.lt_ge_cases i j) as [L|L].
    + exact (selections_distinct os s D i j w L Hi Hj).
    + assert (j < i)%nat as L' by lia.
      exact (selections_distinct os s D j i w L' Hj Hi).
Qed.

Lemma selection_witness :
  reachable (loaded emptyMarkup None true) firstRound
  /\ forall i j w, i <> j ->
       nth_error (selections [sampleOracle; sampleOracle] firstRound) i
       = Some (Some w) ->
       nth_error (selections [sampleOracle; sampleOracle] firstRound) j
       <> Some (Some w).
Proof.
  split; [exact firstRound_reachable|].
  exact (proj2 (selection_without_replacement emptyMarkup None true
                  sampleOracle [sampleOracle; sampleOracle] firstRound
                  firstRound_reachable)).
Defined.

Example selections_sample :
  selections [sampleOracle; sampleOracle; sampleOracle] firstRound
  = [Some "Fast"; Some "Slow"; Some "Run"].
Proof. vm_compute. reflexivity. Qed.

(** ** The pool when a word is drawn (C10) *)

(** The calls after an answer are guarded: a word is drawn only from a
    non-empty pool, and then it is a word of the pool. *)
Lemma guarded_draw (o : oracle) (correct : bool) (r s' : state) :
  resolves o correct r s' ->
  (currentWords r <> [] -> In (theWord s') (currentWords r))
  /\ (currentWords r = [] -> theWord s' = theWord r).
Proof.
  intros R.
  destruct (resolves_facts o correct r s' R)
    as (_ & _ & _ & _ & _ & _ & _ & N & Z).
  split; intros W.
  - now destruct (N W) as (_ & I & _).
  - now destruct (Z W) as (_ & I & _).
Qed.

(** The start handler draws without looking at the pool; on an empty pool
    the word is [undefined]. *)
Lemma start_draws_unguarded (o : oracle) (s : state) :
  startButton s = true -> currentWords s = [] ->
  theWord (step o ClickStart s) = "undefined"
  /\ fst (getRandomWord o
            (set_isFirstWord true
               (set_inputFocused true (set_startButton false s))))
     = Ret None.
Proof.
  intros B W. unfold step, dispatch.
  cbv beta iota zeta delta [bind ret read write ask]. cbn [fst snd].
  rewrite B. rewrite getRandomWord_draw.
  unfold handleStartGame, generateNextWord.
  cbv beta iota zeta delta [bind ret read write ask]. cbn [fst snd].
  rewrite getRandomWord_draw. cbn. rewrite W.
  rewrite floorTimes_zero. cbn. split; reflexivity.
Qed.

(** C10 on a game begun from the keyboard.  On the fresh page the word
    element and the field are both empty, so Enter counts as a correct
    answer and starts the first round while the start button stays in the
    page.  When the thirty words of the tier have been played the pool is
    empty, and a click on the start button draws from it: the word on
    display is [undefined]. *)
Theorem start_click_draws_from_empty_pool :
  let page := loaded emptyMarkup None true in
  let s := letTimeOutTimes sampleOracle 30
             (step sampleOracle (Keydown "Enter") page) in
  reachable page (step sampleOracle ClickStart s)
  /\ startButton s = true /\ currentWords s = []
  /\ fst (getRandomWord sampleOracle
            (set_isFirstWord true
               (set_inputFocused true (set_startButton false s))))
     = Ret None
  /\ theWord (step sampleOracle ClickStart s) = "undefined".
Proof.
  cbv zeta. split.
  - constructor. apply reachable_letTimeOutTimes. constructor. constructor.
  - by_running.
Qed.

(** ** The score store (C1) *)

Lemma getScoreHistory_reads (o : oracle) (s : state) :
  snd (getScoreHistory o s) = s.
Proof.
  unfold getScoreHistory.
  cbv beta iota zeta delta [bind ret read write ask throw]. cbn [fst snd].
  destruct (localStorage s) as [text|]; [|reflexivity].
  destruct (truthy text); [|reflexivity].
  destruct (Json.parse text); reflexivity.
Qed.

Lemma getScoreHistory_storage (o o' : oracle) (s s' : state) :
  localStorage s = localStorage s' ->
  fst (getScoreHistory o s) = fst (getScoreHistory o' s').
Proof.
  intros E. unfold getScoreHistory.
  cbv beta iota zeta delta [bind ret read write ask throw]. cbn [fst snd].
  rewrite <- E.
  destruct (localStorage s) as [text|]; [|reflexivity].
  destruct (truthy text); [|reflexivity].
  destruct (Json.parse text); reflexivity.
Qed.

Lemma stringify_array_text (items : list json) (text : string) :
  stringify (JArray items) = Some text -> truthy text = true.
Proof.
  rewrite stringify_array.
  destruct (stringifyItems items); [|discriminate].
  intros [= <-]. reflexivity.
Qed.

(** A store in the state the game leaves it in is read as the history it
    holds. *)
Lemma gameStore_reads (o : oracle) (s : state) :
  gameStore s -> exists items, fst (getScoreHistory o s) = Ret (JArray items).
Proof.
  intros [E|(items & text & S & E)];
    unfold getScoreHistory;
    cbv beta iota zeta delta [bind ret read write ask throw]; cbn [fst snd];
    rewrite E.
  - now exists [].
  - exists items.
    rewrite (stringify_array_text items text S).
    now rewrite (stringify_parse _ _ S).
Qed.

(** C1, as the code has it.  Reading the score history changes nothing.  It
    returns the empty history when the stored value is absent or the empty
    string; on a store that holds what the game wrote it returns that
    history, a sequence, and throws nothing; when the stored text is valid
    JSON it returns the value of that text; when the stored text is not
    empty and not valid JSON, the read throws a [SyntaxError]. *)
Theorem read_history (o : oracle) (s : state) :
  snd (getScoreHistory o s) = s
  /\ (localStorage s = None \/ localStorage s = Some "" ->
      fst (getScoreHistory o s) = Ret (JArray []))
  /\ (gameStore s ->
      exists items, fst (getScoreHistory o s) = Ret (JArray items))
  /\ (forall text v,
        localStorage s = Some text -> text <> "" ->
        Json.parse text = Some v ->
        fst (getScoreHistory o s) = Ret v)
  /\ (forall text,
        localStorage s = Some text -> text <> "" ->
        Json.parse text = None ->
        parseText text = Unexpected
        /\ fst (getScoreHistory o s) = Throw SyntaxError).
Proof.
  split; [apply getScoreHistory_reads|].
  split; [|split; [apply gameStore_reads|]];
    unfold getScoreHistory;
    cbv beta iota zeta delta [bind ret read write ask throw]; cbn [fst snd].
  - intros [E|E]; rewrite E; reflexivity.
  - split.
    + intros text v E N P. rewrite E.
      destruct text; [congruence|]. cbn [truthy]. now rewrite P.
    + intros text E N P. rewrite E. split; [now apply parse_None_syntax|].
      destruct text; [congruence|]. cbn [truthy]. now rewrite P.
Qed.

(** C1 fails as stated: on a store that holds the text of an unfinished
    object, the read throws instead of returning the empty history. *)
Lemma corrupt_store_throws :
  let s := loaded emptyMarkup (Some "{") true in
  localStorage s = Some "{"
  /\ Json.parse "{" = None
  /\ fst (getScoreHistory idle s) = Throw SyntaxError
  /\ fst (getScoreHistory idle s) <> Ret (JArray []).
Proof.
  cbv zeta. running_each.
  vm_compute. discriminate.
Qed.

Lemma read_history_witness :
  let s := loaded emptyMarkup (Some "{") true in
  (localStorage s = Some "{" /\ "{" <> "" /\ Json.parse "{" = None)
  /\ fst (getScoreHistory idle s) = Throw SyntaxError.
Proof.
  cbv zeta.
  assert (localStorage (loaded emptyMarkup (Some "{") true) = Some "{") as E
      by reflexivity.
  assert ("{" <> "") as N by discriminate.
  assert (Json.parse "{" = None) as P by reflexivity.
  split; [exact (conj E (conj N P))|].
  exact (proj2 (proj2 (proj2 (proj2 (proj2 (read_history idle _)))) "{" E N P)).
Defined.

(** What [saveScore] does on a readable history: one entry more. *)
Lemma saveScore_appends (score total : Z) (lvl : level) (status : string)
      (o : oracle) (s : state) (items : list json) (text : string) :
  storedHistory s items ->
  Json.stringify
    (JArray (items ++ [scoreData score total lvl status (isoDate o)]))
  = Some text ->
  saveScore score total lvl status o s
  = (Ret tt, set_localStorage (Some text) s).
Proof.
  intros H T. unfold storedHistory in H.
  rewrite (getScoreHistory_storage idle o s s eq_refl) in H.
  pose proof (getScoreHistory_reads o s) as R.
  unfold saveScore.
  cbv beta iota zeta delta [bind ret read write ask throw unmodelled].
  destruct (getScoreHistory o s) as [out s1]. cbn in H, R. subst out s1.
  rewrite T. reflexivity.
Qed.

(** On a store that cannot be read, nothing is saved. *)
Lemma saveScore_corrupt (score total : Z) (lvl : level) (status : string)
      (o : oracle) (s : state) :
  fst (getScoreHistory idle s) = Throw SyntaxError ->
  saveScore score total lvl status o s = (Throw SyntaxError, s).
Proof.
  intros H.
  rewrite (getScoreHistory_storage idle o s s eq_refl) in H.
  pose proof (getScoreHistory_reads o s) as R.
  unfold saveScore.
  cbv beta iota zeta delta [bind ret read write ask throw unmodelled].
  destruct (getScoreHistory o s) as [out s1]. cbn in H, R. subst out s1.
  reflexivity.
Qed.

(** A history written by [saveScore] is read back with its entry. *)
Example save_then_read :
  let s := snd (saveScore 3 30 Easy "win" sampleOracle
                  (loaded emptyMarkup None true)) in
  fst (getScoreHistory idle s)
  = Ret (JArray [scoreData 3 30 Easy "win" (isoDate sampleOracle)]).
Proof. vm_compute. reflexivity. Qed.

(** *** The store the game writes *)

(** Whatever the game does, the store stays in such a state. *)
Lemma step_gameStore (o : oracle) (e : event) (s : state) :
  gameStore s -> gameStore (step o e s).
Proof.
  intros G. unfold gameStore in *.
  destruct e; all_cases;
    solve [ exact G
          | right; eexists; eexists; split; [eassumption | reflexivity] ].
Qed.

Lemma reachable_gameStore (s0 s : state) :
  gameStore s0 -> reachable s0 s -> gameStore s.
Proof.
  intros H0 R. induction R as [|s o e R IH]; [exact H0|].
  apply step_gameStore, IH.
Qed.

(** After [saveScore] the history read is the one read before with the new
    entry at its end. *)
Lemma saveScore_then_read (score total : Z) (lvl : level) (status : string)
      (o : oracle) (s : state) (items : list json) (text : string) :
  storedHistory s items ->
  Json.stringify
    (JArray (items ++ [scoreData score total lvl status (isoDate o)]))
  = Some text ->
  storedHistory (snd (saveScore score total lvl status o s))
                (items ++ [scoreData score total lvl status (isoDate o)]).
Proof.
  intros H T. rewrite (saveScore_appends _ _ _ _ o s items text H T).
  unfold storedHistory, getScoreHistory.
  cbv beta iota zeta delta [bind ret read write ask throw]. cbn [fst snd].
  cbn [localStorage set_localStorage].
  rewrite (stringify_array_text _ text T).
  now rewrite (stringify_parse _ _ T).
Qed.

(** A store that holds the text of a history reads as that history. *)
Lemma stored_text_reads (s : state) (items : list json) (text : string) :
  localStorage s = Some text ->
  Json.stringify (JArray items) = Some text ->
  storedHistory s items.
Proof.
  intros E T. unfold storedHistory, getScoreHistory.
  cbv beta iota zeta delta [bind ret read write ask throw]. cbn [fst snd].
  rewrite E, (stringify_array_text _ text T).
  now rewrite (stringify_parse _ _ T).
Qed.

(** *** Histories the model can write back *)

Lemma to_int_not_nil (z : Z) :
  Z.to_int z <> Decimal.Pos Decimal.Nil
  /\ Z.to_int z <> Decimal.Neg Decimal.Nil.
Proof.
  destruct z as [|p|p]; cbn; split; try discriminate;
    intros [= H]; revert H; apply Unsigned.to_uint_nonnil.
Qed.

Lemma safeInteger_of (z : Z) :
  Z.abs z < 2 ^ 53 -> safeInteger (ofZ z) = true.
Proof.
  intros B. unfold safeInteger, ofZ.
  destruct (to_int_not_nil z) as (P & N).
  rewrite NilZero.isi by assumption.
  cbv zeta. rewrite DecimalZ.of_to, String.eqb_refl.
  apply Z.ltb_lt in B. now rewrite B.
Qed.

Lemma escapeUnit_ascii (c : ascii) : escapeUnit (N_of_ascii c) <> None.
Proof.
  pose proof (N_of_ascii_lt c) as B. unfold escapeUnit.
  repeat match goal with
         | |- context [if ?b then _ else _] => destruct b eqn:?; try discriminate
         end.
  match goal with
  | H : (_ <? 256)%N = false |- _ => apply N.ltb_ge in H; lia
  end.
Qed.

Lemma quoteUnits_string (s : string) : quoteUnits (unitsOf s) <> None.
Proof.
  unfold quoteUnits.
  assert (escapeUnits (unitsOf s) <> None) as E.
  { unfold unitsOf.
    induction s as [|c r IH]; cbn [list_ascii_of_string map escapeUnits];
      [discriminate|].
    pose proof (escapeUnit_ascii c) as A.
    destruct (escapeUnit (N_of_ascii c)); [|congruence].
    destruct (escapeUnits (map N_of_ascii (list_ascii_of_string r)));
      [discriminate | congruence]. }
  destruct (escapeUnits (unitsOf s)); [discriminate | congruence].
Qed.

(** A score entry has a text whenever its two numbers are below 2^53. *)
Lemma scoreData_stringifies (score total : Z) (lvl : level)
      (status date : string) :
  Z.abs score < 2 ^ 53 -> Z.abs total < 2 ^ 53 ->
  stringify (scoreData score total lvl status date) <> None.
Proof.
  intros S T. unfold scoreData. rewrite stringify_object.
  change (plainKeys _) with true. cbv iota.
  unfold stringifyMembers.
  cbn [stringify]. rewrite (safeInteger_of _ S), (safeInteger_of _ T).
  pose proof (quoteUnits_string (levelName lvl)) as Q1.
  pose proof (quoteUnits_string status) as Q2.
  pose proof (quoteUnits_string date) as Q3.
  change (quoteUnits (unitsOf "score"))
    with (Some (String quote ("score" ++ String quote ""))).
  change (quoteUnits (unitsOf "total"))
    with (Some (String quote ("total" ++ String quote ""))).
  change (quoteUnits (unitsOf "level"))
    with (Some (String quote ("level" ++ String quote ""))).
  change (quoteUnits (unitsOf "status"))
    with (Some (String quote ("status" ++ String quote ""))).
  change (quoteUnits (unitsOf "date"))
    with (Some (String quote ("date" ++ String quote ""))).
  cbv iota.
  destruct (quoteUnits (unitsOf (levelName lvl))); [|congruence].
  destruct (quoteUnits (unitsOf status)); [|congruence].
  destruct (quoteUnits (unitsOf date)); [|congruence].
  discriminate.
Qed.

Lemma stringifyItems_snoc (items : list json) (x : json) :
  stringifyItems items <> None -> stringify x <> None ->
  stringifyItems (items ++ [x]) <> None.
Proof.
  intros I X. induction items as [|y r IH].
  - change (stringifyItems ([] ++ [x]))
      with (match stringify x, stringifyItems [] with
            | Some a, Some b => Some (a :: b)
            | _, _ => None
            end).
    destruct (stringify x); [discriminate | congruence].
  - revert I.
    change (stringifyItems (y :: r))
      with (match stringify y, stringifyItems r with
            | Some a, Some b => Some (a :: b)
            | _, _ => None
            end).
    change (stringifyItems ((y :: r) ++ [x]))
      with (match stringify y, stringifyItems (r ++ [x]) with
            | Some a, Some b => Some (a :: b)
            | _, _ => None
            end).
    destruct (stringify y); [|congruence].
    destruct (stringifyItems r); [|congruence].
    intros _.
    destruct (stringifyItems (r ++ [x])); [discriminate|].
    exfalso. apply IH; congruence.
Qed.

Lemma stringify_snoc (items : list json) (x : json) (t : string) :
  stringify (JArray items) = Some t -> stringify x <> None ->
  stringify (JArray (items ++ [x])) <> None.
Proof.
  rewrite !stringify_array. intros I X.
  pose proof (stringifyItems_snoc items x) as S.
  destruct (stringifyItems items); [|discriminate].
  destruct (stringifyItems (items ++ [x])); [discriminate|].
  exfalso. apply S; congruence.
Qed.

Lemma history_with_entry (items : list json) (a : state)
      (status date : string) :
  Json.stringify (JArray items) <> None ->
  Z.abs (scoreGot a) < 2 ^ 53 -> Z.abs (scoreTotal a) < 2 ^ 53 ->
  exists text, historyWith items a status date = Some text.
Proof.
  intros I S T. unfold historyWith.
  destruct (stringify (JArray items)) as [t|] eqn:E; [|congruence].
  pose proof (stringify_snoc items
                (scoreData (scoreGot a) (scoreTotal a) (defaultLevelName a)
                   status date) t E
                (scoreData_stringifies _ _ _ _ _ S T)) as N.
  destruct (stringify
              (JArray (items ++
                 [scoreData (scoreGot a) (scoreTotal a) (defaultLevelName a)
                    status date]))) as [text|]; [|congruence].
  now exists text.
Qed.

(** ** The end of the last tier (C4) *)


(** On a tier that has a successor, the end of the tier stores the entry,
    shows the notice and schedules the start of the next tier. *)
Lemma endGame_advances (o : oracle) (a : state) (items : list json)
      (text : string) (next : level) :
  at_ levelProgression (indexOf (defaultLevelName a) levelProgression + 1)
  = Some next ->
  storedHistory a items ->
  historyWith items a "win" (isoDate o) = Some text ->
  endGame "win" o a
  = (Ret tt,
     set_nextHandle (S (nextHandle a))
       (set_timeouts (timeouts a ++ [(nextHandle a, StartLevel next)])
          (set_finishMessage
             (finishMessage a ++ [("good", LevelComplete next)])
             (set_localStorage (Some text) a)))).
Proof.
  intros N H T.
  assert (defaultLevelName a <> Hard) as NH.
  { intros E. rewrite E in N. discriminate N. }
  unfold endGame, advanceToNextLevel, saveGameScore,
    displayLevelCompleteMessage, setTimeout.
  cbv beta iota zeta delta [bind ret read write ask unmodelled].
  cbn [fst snd]. cbn [String.eqb Ascii.eqb Bool.eqb].
  assert ((indexOf (defaultLevelName a) levelProgression
           <? Z.of_nat (length levelProgression) - 1) = true) as I.
  { destruct (defaultLevelName a); [reflexivity | reflexivity | congruence]. }
  rewrite I, N.
  unfold historyWith in T.
  rewrite (saveScore_appends _ _ _ _ o a items text H T).
  reflexivity.
Qed.


Lemma keydown_other (o : oracle) (key : string) (s : state) :
  key <> "Enter" -> step o (Keydown key) s = s.
Proof.
  intros N. unfold step, dispatch, handleEnterKey.
  apply String.eqb_neq in N. rewrite N. reflexivity.
Qed.

Lemma sameGame_refl (s : state) : sameGame s s.
Proof. repeat split. Qed.

Lemma sameGame_trans (s u v : state) :
  sameGame s u -> sameGame u v -> sameGame s v.
Proof.
  unfold sameGame. intros (A1&A2&A3&A4&A5&A6&A7&A8&A9&A10)
    (B1&B2&B3&B4&B5&B6&B7&B8&B9&B10).
  repeat split; congruence.
Qed.

Lemma keysOnly_sameGame (s u : state) : keysOnly s u -> sameGame s u.
Proof.
  intros K. induction K as [|u o v K IH|u o v K IH|u o key K IH N|u o h K IH F].
  - apply sameGame_refl.
  - apply (sameGame_trans s u _ IH).
    destruct (input_validation o v u)
      as (_ & _ & A & B & C & D & E & G & H & I & _ & J & L).
    repeat split; assumption.
  - exact IH.
  - apply (sameGame_trans s u _ IH).
    destruct (string_dec key "Enter") as [->|NE].
    + destruct N as [N|N]; [congruence|].
      destruct (enter_pending o u N)
        as (_ & A & _ & B & C & D & E & G & H & I & _ & J & L).
      repeat split; assumption.
    + rewrite keydown_other by exact NE. apply sameGame_refl.
  - apply (sameGame_trans s u _ IH).
    unfold step, dispatch.
    cbv beta iota zeta delta [bind ret read write ask]. cbn [fst snd].
    rewrite F. repeat split; reflexivity.
Qed.


Example wonGame_state :
  defaultLevelName wonGame = Hard /\ currentWords wonGame = []
  /\ theWord wonGame = "Performance" /\ scoreGot wonGame = 0
  /\ intervals wonGame = [] /\ timeouts wonGame = []
  /\ finishMessage wonGame = [("good", AllLevelsCompleted)]
  /\ option_map Json.parse (localStorage wonGame)
     = Some (Some (JArray
                     [scoreData 0 30 Hard "win" (isoDate sampleOracle)])).
Proof. by_running. Qed.



(** * Further properties of the handlers

    More of what the handlers do: the score store as the game writes it,
    the end of a tier and the advance to the next one, the invariants of
    the page, the score, typing, the countdown and the start of a game. *)

Lemma wonGame_reachable : reachable (loaded emptyMarkup None true) wonGame.
Proof.
  unfold wonGame, lastHardSecond.
  apply reachable_tick, reachable_ticks, reachable_letTimeOutTimes.
  constructor. constructor. constructor.
Qed.

Lemma lastEasyWordTyped_reachable (st : option string) :
  reachable (loaded emptyMarkup st true) (lastEasyWordTyped st).
Proof.
  unfold lastEasyWordTyped. constructor.
  apply reachable_letTimeOutTimes. constructor. constructor.
Qed.

Lemma lastEasyWordTyped_fresh (st : option string) :
  handlesFresh (lastEasyWordTyped st).
Proof.
  apply (reachable_handlesFresh (loaded emptyMarkup st true)).
  - apply loaded_handlesFresh.
  - apply lastEasyWordTyped_reachable.
Qed.

(** ** The score store *)

Lemma storedHistory_cases (s : state) (items : list json) :
  match localStorage s with
  | None => items = []
  | Some text =>
    if truthy text then Json.parse text = Some (JArray items)
    else items = []
  end ->
  storedHistory s items.
Proof.
  unfold storedHistory, getScoreHistory.
  cbv beta iota zeta delta [bind ret read write ask throw]. cbn [fst snd].
  destruct (localStorage s) as [text|]; [|now intros ->].
  destruct (truthy text); [|now intros ->].
  now intros ->.
Qed.

(** The runs that stay within the model: on such a store no handler
    leaves it. *)
Lemma printableStore_storage (s u : state) :
  localStorage u = localStorage s -> printableStore s -> printableStore u.
Proof.
  intros E P items H. apply P. unfold storedHistory in *. rewrite <- H.
  now apply getScoreHistory_storage.
Qed.

Lemma getScoreHistory_covered (o : oracle) (s : state) :
  fst (getScoreHistory o s) <> Unmodelled.
Proof.
  unfold getScoreHistory.
  cbv beta iota zeta delta [bind ret read write ask throw]. cbn [fst snd].
  destruct (localStorage s) as [text|]; [|discriminate].
  destruct (truthy text); [|discriminate].
  destruct (Json.parse text); discriminate.
Qed.

Lemma saveScore_covered (score total : Z) (lvl : level) (status : string)
      (o : oracle) (s : state) :
  printableStore s -> Z.abs score < 2 ^ 53 -> Z.abs total < 2 ^ 53 ->
  fst (saveScore score total lvl status o s) <> Unmodelled.
Proof.
  intros P S T.
  pose proof (getScoreHistory_covered o s) as C.
  pose proof (getScoreHistory_reads o s) as R.
  pose proof (getScoreHistory_storage idle o s s eq_refl) as I.
  unfold saveScore.
  cbv beta iota zeta delta [bind ret read write ask throw unmodelled].
  destruct (getScoreHistory o s) as [out s1]. cbn in C, R, I. subst s1.
  destruct out as [v|x|]; [|discriminate|congruence].
  destruct v; try discriminate.
  assert (stringify (JArray items) <> None) as Q by (apply P; exact I).
  destruct (stringify (JArray items)) as [t|] eqn:E; [|congruence].
  pose proof (stringify_snoc items _ t E
                (scoreData_stringifies score total lvl status (isoDate o) S T))
    as N.
  destruct (stringify
              (JArray (items ++ [scoreData score total lvl status (isoDate o)])));
    [discriminate | congruence].
Qed.

Lemma endGame_covered (o : oracle) (a : state) :
  printableStore a ->
  Z.abs (scoreGot a) < 2 ^ 53 -> Z.abs (scoreTotal a) < 2 ^ 53 ->
  fst (endGame "win" o a) <> Unmodelled.
Proof.
  intros P S T.
  pose proof (saveScore_covered (scoreGot a) (scoreTotal a)
                (defaultLevelName a) "win" o a P S T) as R.
  assert (forall f : list (string * notice),
            fst (saveScore (scoreGot a) (scoreTotal a) (defaultLevelName a)
                   "win" o
                   (set_upcomingAttached false (set_finishMessage f a)))
            <> Unmodelled) as R2.
  { intros f. apply saveScore_covered; [|exact S | exact T].
    now apply (printableStore_storage a). }
  unfold endGame, advanceToNextLevel, saveGameScore, displayEndMessage,
    displayLevelCompleteMessage, setTimeout.
  cbv beta iota zeta delta [bind ret read write ask unmodelled].
  cbn [String.eqb Ascii.eqb Bool.eqb fst snd].
  destruct (defaultLevelName a) eqn:D;
    cbn [indexOf levelProgression level_eqb Z.ltb length Z.of_nat
         Pos.of_succ_nat Pos.succ Z.sub Z.add Z.opp Z.pos_sub Z.compare
         Pos.compare Pos.compare_cont Pos.pred_double Z.succ_double
         Z.pred_double Z.double Pos.add];
    cbv beta; rewrite ?D;
    cbn [indexOf levelProgression level_eqb Z.ltb Z.add Z.compare Pos.add
         at_ nth_error Z.to_nat Pos.to_nat Pos.iter_op Nat.add].
  - destruct (saveScore (scoreGot a) (scoreTotal a) Easy "win" o a)
      as [out s1]. cbn in R. destruct out; [discriminate..|congruence].
  - destruct (saveScore (scoreGot a) (scoreTotal a) Normal "win" o a)
      as [out s1]. cbn in R. destruct out; [discriminate..|congruence].
  - cbn -[saveScore]. rewrite D. apply R2.
Qed.

Lemma answer_covered (o : oracle) (correct : bool) (r : state) :
  printableStore r ->
  Z.abs (scoreGot r) + 1 < 2 ^ 53 -> Z.abs (scoreTotal r) < 2 ^ 53 ->
  fst ((if correct then handleCorrectAnswer else handleWrongAnswer) o r)
  <> Unmodelled.
Proof.
  intros P S T.
  assert (printableStore (answered correct r)) as PA
      by (apply (printableStore_storage r); [destruct correct|]; easy).
  destruct (currentWords r) as [|x l] eqn:W.
  - destruct correct.
    + rewrite handleCorrectAnswer_last by exact W.
      apply endGame_covered; [exact PA | cbn; lia | exact T].
    + rewrite handleWrongAnswer_last by exact W.
      apply endGame_covered; [exact PA | cbn; lia | exact T].
  - destruct correct.
    + destruct (handleCorrectAnswer_next o r) as (w & _ & ->);
        [congruence | discriminate].
    + destruct (handleWrongAnswer_next o r) as (w & _ & ->);
        [congruence | discriminate].
Qed.

Lemma timerCleared_printable (s : state) :
  printableStore s -> printableStore (timerCleared s).
Proof.
  destruct (timerCleared_frame s)
    as (_ & _ & _ & _ & _ & _ & _ & _ & _ & _ & _ & S1 & _).
  now apply printableStore_storage.
Qed.

Lemma dispatch_covered (o : oracle) (e : event) (s : state) :
  printableStore s ->
  Z.abs (scoreGot s) + 1 < 2 ^ 53 -> Z.abs (scoreTotal s) < 2 ^ 53 ->
  fst (dispatch e o s) <> Unmodelled.
Proof.
  intros P S T.
  destruct (timerCleared_frame s)
    as (_ & G1 & _ & _ & _ & _ & _ & _ & _ & _ & T1 & _).
  destruct e as [v|t|v|key| |h|h].
  - all_cases; discriminate.
  - discriminate.
  - all_cases; discriminate.
  - destruct (String.eqb key "Enter") eqn:K.
    + apply String.eqb_eq in K. subst key.
      destruct (ciEqual (inputValue s) (theWord s)) eqn:E.
      * rewrite (enter_equal o s E).
        apply (answer_covered o true);
          [now apply timerCleared_printable | rewrite G1; exact S
          | rewrite T1; exact T].
      * rewrite (enter_different o s E).
        destruct (truthy (inputValue s)); [|discriminate].
        destruct (showInputError_frame o s) as (A & _). now rewrite A.
    + unfold dispatch, handleEnterKey. rewrite K. discriminate.
  - all_cases; discriminate.
  - destruct (existsb (Nat.eqb h) (intervals s)) eqn:L.
    + apply existsb_exists in L as (x & L & X).
      apply Nat.eqb_eq in X. subst x.
      destruct (Z.eq_dec (timeLeftSpan s) 1) as [Z1|Z1].
      * rewrite (last_tick o h s L Z1).
        set (r := timerCleared (set_timeLeftSpan 0 s)).
        destruct (timerCleared_frame (set_timeLeftSpan 0 s))
          as (_ & G2 & W2 & V2 & _ & _ & _ & _ & _ & _ & T2 & _).
        assert (printableStore r) as PR.
        { apply timerCleared_printable.
          now apply (printableStore_storage s). }
        destruct (ciEqual (inputValue r) (theWord r)) eqn:E.
        -- rewrite (checkAnswer_correct o r E).
           apply (answer_covered o true);
             [exact PR | subst r; rewrite G2; exact S
             | subst r; rewrite T2; exact T].
        -- rewrite (checkAnswer_wrong o r E).
           apply (answer_covered o false);
             [exact PR | subst r; rewrite G2; exact S
             | subst r; rewrite T2; exact T].
      * rewrite (earlier_tick o h s L Z1). discriminate.
    + unfold dispatch.
      cbv beta iota zeta delta [bind ret read write ask]. cbn [fst snd].
      rewrite L. discriminate.
  - unfold dispatch.
    cbv beta iota zeta delta [bind ret read write ask]. cbn [fst snd].
    destruct (find (fun x => Nat.eqb (fst x) h) (timeouts s)) as [[h' t]|];
      [|discriminate].
    cbv beta iota zeta delta [bind ret read write ask]. cbn [fst snd].
    destruct t as [|next]; [discriminate|].
    unfold runTask.
    destruct (advance_bonus o next
                (set_timeouts (removeTask h (timeouts s)) s)) as (A & _).
    rewrite A. discriminate.
Qed.

(** X1. The store is append-only.  As long as the history in the store,
    when it can be read, is one the model can write back (every history
    the game wrote is) and the score and the total are below 2^53, the run
    of every handler is within the model and, whatever the event, either
    the stored text is left as it is, or the history that was readable
    before is readable after with exactly one entry more at its end: the
    score and the total shown, the level in play, the outcome "win" and the
    time stamp of the moment.  No event removes or rewrites an entry, and
    no entry with another outcome is ever stored. *)
Theorem store_append_only (o : oracle) (e : event) (s : state) :
  printableStore s ->
  Z.abs (scoreGot s) + 1 < 2 ^ 53 -> Z.abs (scoreTotal s) < 2 ^ 53 ->
  let s' := step o e s in
  fst (dispatch e o s) <> Unmodelled
  /\ (localStorage s' = localStorage s
      \/ exists items,
           storedHistory s items
           /\ storedHistory s'
                (items ++ [scoreData (scoreGot s') (scoreTotal s)
                                     (defaultLevelName s) "win" (isoDate o)])).
Proof.
  intros P S T. cbv zeta. split; [now apply dispatch_covered|].
  clear P S T.
  destruct e; all_cases; try (left; reflexivity).
  all: right.
  all: first [ match goal with
       | H : Json.parse _ = Some (JArray ?items) |- _ => exists items
       end | exists [] ].
  all: (split;
        [ apply storedHistory_cases;
          repeat match goal with
                 | H : localStorage _ = _ |- _ => cbn in H; rewrite H; clear H
                 | H : truthy _ = _ |- _ => rewrite H; clear H
                 end; first [assumption | reflexivity]
        | eapply stored_text_reads; [reflexivity | eassumption] ]).
Qed.

Lemma store_append_only_witness :
  let s := lastEasyWordTyped None in
  let s' := step sampleOracle (Keydown "Enter") s in
  localStorage s' <> localStorage s
  /\ fst (dispatch (Keydown "Enter") sampleOracle s) <> Unmodelled
  /\ (localStorage s' = localStorage s
      \/ exists items,
           storedHistory s items
           /\ storedHistory s'
                (items ++ [scoreData (scoreGot s') (scoreTotal s)
                                     (defaultLevelName s) "win"
                                     (isoDate sampleOracle)])).
Proof.
  cbv zeta.
  assert (localStorage (step sampleOracle (Keydown "Enter")
                          (lastEasyWordTyped None))
          <> localStorage (lastEasyWordTyped None)) as D
      by (vm_compute; discriminate).
  assert (printableStore (lastEasyWordTyped None)) as P.
  { intros items H. unfold storedHistory in H. vm_compute in H.
    injection H as <-. discriminate. }
  assert (Z.abs (scoreGot (lastEasyWordTyped None)) + 1 < 2 ^ 53) as S
      by (vm_compute; reflexivity).
  assert (Z.abs (scoreTotal (lastEasyWordTyped None)) < 2 ^ 53) as T
      by (vm_compute; reflexivity).
  exact (conj D (store_append_only sampleOracle (Keydown "Enter")
                   (lastEasyWordTyped None) P S T)).
Defined.

(** X2. On a page loaded with a store that is absent or holds what the
    game wrote, the history can be read in every state the game reaches:
    [getScoreHistory] returns a sequence, throws nothing and changes
    nothing. *)
Theorem history_stays_readable (o : oracle) (s0 s : state) :
  gameStore s0 -> reachable s0 s ->
  exists items, getScoreHistory o s = (Ret (JArray items), s).
Proof.
  intros G R.
  destruct (gameStore_reads o s (reachable_gameStore s0 s G R)) as (items & E).
  exists items.
  rewrite (surjective_pairing (getScoreHistory o s)), E.
  now rewrite getScoreHistory_reads.
Qed.

Lemma history_stays_readable_witness :
  exists items, getScoreHistory idle wonGame = (Ret (JArray items), wonGame).
Proof.
  apply (history_stays_readable idle (loaded emptyMarkup None true) wonGame).
  - left. reflexivity.
  - exact wonGame_reachable.
Defined.

Lemma saveScore_stops (score total : Z) (lvl : level) (status : string)
      (o : oracle) (s : state) (text : string) :
  localStorage s = Some text -> truthy text = true ->
  (forall items, Json.parse text <> Some (JArray items)) ->
  saveScore score total lvl status o s
  = (Throw match Json.parse text with
           | None => SyntaxError
           | Some _ => TypeError
           end, s).
Proof.
  intros L T N. unfold saveScore, getScoreHistory.
  cbv beta iota zeta delta [bind ret read write ask throw unmodelled].
  rewrite L, T.
  destruct (Json.parse text) as [v|]; [|reflexivity].
  destruct v; try reflexivity.
  exfalso. eapply N. reflexivity.
Qed.

(** X3. [saveScore] on a store it cannot extend.  When the stored text is
    not empty and is not the text of an array, nothing is saved and the
    state is left as it was: the call throws a SyntaxError when the text is
    not valid JSON ([JSON.parse]) and a TypeError when it is valid JSON for
    something else than an array (the value has no [push]). *)
Theorem saveScore_unreadable (score total : Z) (lvl : level) (status : string)
        (o : oracle) (s : state) (text : string) :
  localStorage s = Some text -> truthy text = true ->
  (forall items, Json.parse text <> Some (JArray items)) ->
  saveScore score total lvl status o s
  = (Throw match Json.parse text with
           | None => SyntaxError
           | Some _ => TypeError
           end, s).
Proof.
  intros L T N.
  pose proof (getScoreHistory_reads o s) as R.
  unfold saveScore.
  cbv beta iota zeta delta [bind ret read write ask throw unmodelled].
  destruct (getScoreHistory o s) as [out s1] eqn:G. cbn in R. subst s1.
  assert (out = match Json.parse text with
                | Some v => Ret v
                | None => Throw SyntaxError
                end) as O.
  { revert G. unfold getScoreHistory.
    cbv beta iota zeta delta [bind ret read write ask throw]. cbn [fst snd].
    rewrite L, T. destruct (Json.parse text); now intros [= <-]. }
  subst out.
  destruct (Json.parse text) as [v|]; [|reflexivity].
  destruct v; try reflexivity.
  exfalso. eapply N. reflexivity.
Qed.

Lemma saveScore_unreadable_witness :
  saveScore 3 30 Easy "win" sampleOracle (loaded emptyMarkup (Some "{}") true)
  = (Throw TypeError, loaded emptyMarkup (Some "{}") true)
  /\ saveScore 3 30 Easy "win" sampleOracle
       (loaded emptyMarkup (Some "[1,") true)
     = (Throw SyntaxError, loaded emptyMarkup (Some "[1,") true).
Proof.
  split.
  - refine (saveScore_unreadable 3 30 Easy "win" sampleOracle
              (loaded emptyMarkup (Some "{}") true) "{}" eq_refl eq_refl _).
    intros items H. vm_compute in H. discriminate H.
  - refine (saveScore_unreadable 3 30 Easy "win" sampleOracle
              (loaded emptyMarkup (Some "[1,") true) "[1," eq_refl eq_refl _).
    intros items H. vm_compute in H. discriminate H.
Defined.

(** X4. The end of a tier on a store that cannot be extended.  When the
    last word of a tier is submitted correctly and the stored text is not
    empty and is not the text of an array, the handler throws after the point was counted:
    the store is left as it was and no timer is started.  On a tier that
    has a successor nothing else happens either: no notice is shown and no
    advance is scheduled, so the game stays where it is. *)
Theorem tier_end_on_unreadable_store (o : oracle) (s : state) (text : string) :
  ciEqual (inputValue s) (theWord s) = true -> currentWords s = [] ->
  localStorage s = Some text -> truthy text = true ->
  (forall items, Json.parse text <> Some (JArray items)) ->
  let s' := step o (Keydown "Enter") s in
  (exists e, fst (dispatch (Keydown "Enter") o s) = Throw e)
  /\ localStorage s' = localStorage s
  /\ scoreGot s' = scoreGot s + 1
  /\ (forall h, In h (intervals s') ->
                In h (intervals s) /\ currentTimer s <> Some h)
  /\ (defaultLevelName s <> Hard ->
      finishMessage s' = finishMessage s
      /\ forall h t, In (h, t) (timeouts s') -> In (h, t) (timeouts s)).
Proof.
  intros E W L T N s'. subst s'. unfold step.
  rewrite (enter_equal o s E).
  destruct (timerCleared_frame s)
    as (W1 & G1 & _ & _ & _ & _ & L1 & _ & _ & _ & _ & S1 & F1).
  rewrite handleCorrectAnswer_last by (rewrite W1; exact W).
  set (a := answered true (timerCleared s)).
  assert (saveGameScore "win" o a
          = (Throw match Json.parse text with
                   | None => SyntaxError
                   | Some _ => TypeError
                   end, a)) as SV.
  { unfold saveGameScore.
    cbv beta iota zeta delta [bind ret read write ask]. cbn [fst snd].
    apply saveScore_stops; try assumption.
    subst a. cbn. rewrite S1. exact L. }
  assert (forall h, In h (intervals (timerCleared s)) ->
                    In h (intervals s) /\ currentTimer s <> Some h) as IV.
  { intros h. unfold timerCleared.
    destruct (currentTimer s) as [c|]; cbn.
    - intros H. apply removeHandle_In in H. split; [tauto|].
      intros [= ->]. tauto.
    - intros H. split; [exact H | discriminate]. }
  assert (forall h t, In (h, t) (timeouts (timerCleared s)) ->
                      In (h, t) (timeouts s)) as TV.
  { intros h t. unfold timerCleared.
    destruct (currentTimer s) as [c|]; cbn; [|tauto].
    intros H. apply removeTask_In in H. tauto. }
  unfold endGame, advanceToNextLevel, displayEndMessage.
  cbv beta iota zeta delta [bind ret read write ask unmodelled].
  cbn [String.eqb Ascii.eqb Bool.eqb fst snd].
  assert (defaultLevelName a = defaultLevelName s) as LA
      by (subst a; cbn; exact L1).
  rewrite LA.
  destruct (defaultLevelName s) eqn:D;
    cbn [indexOf levelProgression level_eqb Z.ltb length Z.of_nat
         Pos.of_succ_nat Pos.succ Z.sub Z.add Z.opp Z.pos_sub Z.compare
         Pos.compare Pos.compare_cont Pos.pred_double Z.succ_double
         Z.pred_double Z.double Pos.add].
  1, 2: rewrite SV; cbn [fst snd]; subst a; cbn;
    (split; [eexists; reflexivity|]);
    (split; [exact S1|]); (split; [now rewrite G1|]);
    (split; [exact IV|]); intros _; (split; [exact F1 | exact TV]).
  unfold saveGameScore in *.
  revert SV. cbv beta iota zeta delta [bind ret read write ask]. cbn [fst snd].
  cbn -[saveScore].
  intros SV.
  match goal with
  | |- context [saveScore ?a ?b ?c ?d ?o ?st] =>
    rewrite (saveScore_stops a b c d o st text)
  end; try assumption; [|subst a; cbn; rewrite S1; exact L].
  cbn [fst snd]. subst a. cbn.
  split; [eexists; reflexivity|].
  split; [exact S1|]. split; [now rewrite G1|].
  split; [exact IV|]. intros C. congruence.
Qed.

Lemma tier_end_on_unreadable_store_witness :
  let s := lastEasyWordTyped (Some "oops") in
  let s' := step sampleOracle (Keydown "Enter") s in
  (exists e, fst (dispatch (Keydown "Enter") sampleOracle s) = Throw e)
  /\ localStorage s' = localStorage s
  /\ scoreGot s' = scoreGot s + 1
  /\ (forall h, In h (intervals s') ->
                In h (intervals s) /\ currentTimer s <> Some h)
  /\ (defaultLevelName s <> Hard ->
      finishMessage s' = finishMessage s
      /\ forall h t, In (h, t) (timeouts s') -> In (h, t) (timeouts s)).
Proof.
  refine (tier_end_on_unreadable_store sampleOracle
            (lastEasyWordTyped (Some "oops")) "oops" _ _ _ _ _).
  - vm_compute. reflexivity.
  - vm_compute. reflexivity.
  - vm_compute. reflexivity.
  - reflexivity.
  - intros items H. vm_compute in H. discriminate H.
Defined.

(** *** No handler throws on the store the game writes *)

Lemma saveScore_returns (score total : Z) (lvl : level) (status : string)
      (o : oracle) (s : state) :
  gameStore s -> Z.abs score < 2 ^ 53 -> Z.abs total < 2 ^ 53 ->
  fst (saveScore score total lvl status o s) = Ret tt.
Proof.
  intros G S T.
  pose proof (scoreData_stringifies score total lvl status (isoDate o) S T)
    as X.
  assert (exists items t, storedHistory s items
                          /\ stringify (JArray items) = Some t)
    as (items & t & H & I).
  { destruct G as [E|(items & text & I & E)].
    - exists [], "[]". split; [|reflexivity].
      apply storedHistory_cases. now rewrite E.
    - exists items, text. split; [|exact I].
      now apply (stored_text_reads s items text). }
  pose proof (stringify_snoc items _ t I X) as N.
  destruct (stringify
              (JArray (items ++ [scoreData score total lvl status (isoDate o)])))
    as [text|] eqn:W; [|congruence].
  now rewrite (saveScore_appends _ _ _ _ o s items text H W).
Qed.

Lemma endGame_returns (o : oracle) (a : state) :
  gameStore a -> Z.abs (scoreGot a) < 2 ^ 53 -> Z.abs (scoreTotal a) < 2 ^ 53 ->
  fst (endGame "win" o a) = Ret tt.
Proof.
  intros G S T.
  pose proof (saveScore_returns (scoreGot a) (scoreTotal a)
                (defaultLevelName a) "win" o a G S T) as R.
  assert (forall f : list (string * notice),
            fst (saveScore (scoreGot a) (scoreTotal a) (defaultLevelName a)
                   "win" o
                   (set_upcomingAttached false (set_finishMessage f a)))
            = Ret tt) as R2.
  { intros f. apply saveScore_returns; assumption. }
  unfold endGame, advanceToNextLevel, saveGameScore, displayEndMessage,
    displayLevelCompleteMessage, setTimeout.
  cbv beta iota zeta delta [bind ret read write ask unmodelled].
  cbn [String.eqb Ascii.eqb Bool.eqb fst snd].
  destruct (defaultLevelName a) eqn:D;
    cbn [indexOf levelProgression level_eqb Z.ltb length Z.of_nat
         Pos.of_succ_nat Pos.succ Z.sub Z.add Z.opp Z.pos_sub Z.compare
         Pos.compare Pos.compare_cont Pos.pred_double Z.succ_double
         Z.pred_double Z.double Pos.add];
    cbv beta; rewrite ?D;
    cbn [indexOf levelProgression level_eqb Z.ltb Z.add Z.compare Pos.add
         at_ nth_error Z.to_nat Pos.to_nat Pos.iter_op Nat.add].
  - destruct (saveScore (scoreGot a) (scoreTotal a) Easy "win" o a)
      as [out s1]. cbn in R. subst out. reflexivity.
  - destruct (saveScore (scoreGot a) (scoreTotal a) Normal "win" o a)
      as [out s1]. cbn in R. subst out. reflexivity.
  - cbn -[saveScore]. rewrite D. apply R2.
Qed.

Lemma answer_returns (o : oracle) (correct : bool) (r : state) :
  gameStore r ->
  Z.abs (scoreGot r) + 1 < 2 ^ 53 -> Z.abs (scoreTotal r) < 2 ^ 53 ->
  fst ((if correct then handleCorrectAnswer else handleWrongAnswer) o r)
  = Ret tt.
Proof.
  intros G S T.
  assert (gameStore (answered correct r)) as GA.
  { destruct G as [E|(items & text & I & E)];
      [left | right; exists items, text; split; [exact I|]];
      destruct correct; exact E. }
  destruct (currentWords r) as [|x l] eqn:W.
  - destruct correct.
    + rewrite handleCorrectAnswer_last by exact W.
      apply endGame_returns; [exact GA | cbn; lia | exact T].
    + rewrite handleWrongAnswer_last by exact W.
      apply endGame_returns; [exact GA | cbn; lia | exact T].
  - destruct correct.
    + destruct (handleCorrectAnswer_next o r) as (w & _ & ->);
        [congruence | reflexivity].
    + destruct (handleWrongAnswer_next o r) as (w & _ & ->);
        [congruence | reflexivity].
Qed.

Lemma timerCleared_gameStore (s : state) :
  gameStore s -> gameStore (timerCleared s).
Proof.
  destruct (timerCleared_frame s)
    as (_ & _ & _ & _ & _ & _ & _ & _ & _ & _ & _ & S1 & _).
  intros [E|(items & text & I & E)];
    [left | right; exists items, text; split; [exact I|]]; congruence.
Qed.

(** X5. No handler throws on the store the game writes.  On a page loaded
    with a store that is absent or holds what the game wrote, and with the
    score and the total below 2^53, every event handler and every timer
    callback runs to its end in every state the game reaches: the history
    is parsed, it is an array, and the new history has a text. *)
Theorem handlers_return_on_game_store (o : oracle) (e : event)
        (s0 s : state) :
  gameStore s0 -> reachable s0 s ->
  Z.abs (scoreGot s) + 1 < 2 ^ 53 -> Z.abs (scoreTotal s) < 2 ^ 53 ->
  fst (dispatch e o s) = Ret tt.
Proof.
  intros G0 R S T.
  pose proof (reachable_gameStore s0 s G0 R) as G.
  destruct (timerCleared_frame s)
    as (_ & G1 & _ & _ & _ & _ & _ & _ & _ & _ & T1 & _).
  destruct e as [v|t|v|key| |h|h].
  - all_cases; reflexivity.
  - reflexivity.
  - all_cases; reflexivity.
  - destruct (String.eqb key "Enter") eqn:K.
    + apply String.eqb_eq in K. subst key.
      destruct (ciEqual (inputValue s) (theWord s)) eqn:E.
      * rewrite (enter_equal o s E).
        apply (answer_returns o true);
          [now apply timerCleared_gameStore | rewrite G1; exact S
          | rewrite T1; exact T].
      * rewrite (enter_different o s E).
        destruct (truthy (inputValue s)); [|reflexivity].
        now destruct (showInputError_frame o s) as (A & _).
    + unfold dispatch, handleEnterKey. now rewrite K.
  - all_cases; reflexivity.
  - destruct (existsb (Nat.eqb h) (intervals s)) eqn:L.
    + apply existsb_exists in L as (x & L & X).
      apply Nat.eqb_eq in X. subst x.
      destruct (Z.eq_dec (timeLeftSpan s) 1) as [Z1|Z1].
      * rewrite (last_tick o h s L Z1).
        set (r := timerCleared (set_timeLeftSpan 0 s)).
        destruct (timerCleared_frame (set_timeLeftSpan 0 s))
          as (_ & G2 & W2 & V2 & _ & _ & _ & _ & _ & _ & T2 & _).
        assert (gameStore r) as GR.
        { apply timerCleared_gameStore.
          destruct G as [E|(items & text & I & E)];
            [left | right; exists items, text; split; [exact I|]]; exact E. }
        destruct (ciEqual (inputValue r) (theWord r)) eqn:E.
        -- rewrite (checkAnswer_correct o r E).
           apply (answer_returns o true);
             [exact GR | subst r; rewrite G2; exact S
             | subst r; rewrite T2; exact T].
        -- rewrite (checkAnswer_wrong o r E).
           apply (answer_returns o false);
             [exact GR | subst r; rewrite G2; exact S
             | subst r; rewrite T2; exact T].
      * now rewrite (earlier_tick o h s L Z1).
    + unfold dispatch.
      cbv beta iota zeta delta [bind ret read write ask]. cbn [fst snd].
      now rewrite L.
  - unfold dispatch.
    cbv beta iota zeta delta [bind ret read write ask]. cbn [fst snd].
    destruct (find (fun x => Nat.eqb (fst x) h) (timeouts s)) as [[h' t]|];
      [|reflexivity].
    cbv beta iota zeta delta [bind ret read write ask]. cbn [fst snd].
    destruct t as [|next]; [reflexivity|].
    unfold runTask.
    now destruct (advance_bonus o next
                    (set_timeouts (removeTask h (timeouts s)) s)) as (A & _).
Qed.

Lemma handlers_return_witness :
  fst (dispatch (Keydown "Enter") sampleOracle (lastEasyWordTyped None))
  = Ret tt.
Proof.
  apply (handlers_return_on_game_store sampleOracle (Keydown "Enter")
           (loaded emptyMarkup None true) (lastEasyWordTyped None)).
  - left. reflexivity.
  - apply lastEasyWordTyped_reachable.
  - vm_compute. reflexivity.
  - vm_compute. reflexivity.
Defined.

(** ** The end of a tier and the advance to the next one *)

Lemma find_fresh_task (n : handle) (t : task) (l : list (handle * task)) :
  (forall h u, In (h, u) l -> (h < n)%nat) ->
  find (fun x => Nat.eqb (fst x) n) (l ++ [(n, t)]) = Some (n, t)
  /\ removeTask n (l ++ [(n, t)]) = l.
Proof.
  unfold removeTask.
  induction l as [|[h u] l IH]; intros F.
  - cbn. now rewrite Nat.eqb_refl.
  - assert ((h < n)%nat) as B by (apply (F h u); now left).
    assert (Nat.eqb h n = false) as N by (apply Nat.eqb_neq; lia).
    destruct IH as (I1 & I2); [intros h' u' I; apply (F h' u'); now right|].
    cbn. rewrite N. cbn. split; [exact I1 | now rewrite I2].
Qed.

Lemma startLevelCallback_state (o : oracle) (next : level) (s : state) :
  let s' := snd (startLevelCallback next o s) in
  levelSelect s' = next /\ finishMessage s' = []
  /\ scoreGot s' = scoreGot s
  /\ currentTimer s' = Some (nextHandle s)
  /\ intervals s' = intervals s ++ [nextHandle s]
  /\ timeouts s' = timeouts s
  /\ localStorage s' = localStorage s
  /\ upcomingWords s' = currentWords s'
  /\ lvlNameSpan s' = levelName next.
Proof.
  cbv zeta. unfold startLevelCallback, updateUIForLevel, generateNextWord,
    getRandomWord, displayCurrentWord, displayUpcomingWords, startTimer,
    setInterval.
  cbv beta iota zeta delta [bind ret read write ask]. cbn [fst snd].
  cbn -[wordsByLevel lvls floorTimes Z.add].
  repeat split; reflexivity.
Qed.

(** X6. From the last word of a tier to the first word of the next.  When
    the last word of a tier that has a successor is submitted correctly on
    a store whose history can be read and written back (absent, empty, or
    an array of the values the model prints, as every history the game
    wrote is), with the score and the total below 2^53, the entry of the
    tier is stored, the notice naming
    the next tier is shown and the tier in play stays as it is until the
    scheduled callback runs.  When it runs, the next tier is in play and
    selected, the notice is gone, the score is kept, the total grows by
    the number of words of the new tier, the word on display is one of
    them, its timer is the only one added and runs for the budget of the
    new tier plus three seconds. *)
Theorem tier_advance (o o' : oracle) (s : state) (items : list json)
        (next : level) :
  handlesFresh s ->
  ciEqual (inputValue s) (theWord s) = true -> currentWords s = [] ->
  at_ levelProgression (indexOf (defaultLevelName s) levelProgression + 1)
  = Some next ->
  storedHistory s items -> Json.stringify (JArray items) <> None ->
  Z.abs (scoreGot s) + 1 < 2 ^ 53 -> Z.abs (scoreTotal s) < 2 ^ 53 ->
  let s1 := step o (Keydown "Enter") s in
  let s2 := step o' (TimeoutFires (nextHandle s)) s1 in
  (storedHistory s1
     (items ++ [scoreData (scoreGot s + 1) (scoreTotal s)
                          (defaultLevelName s) "win" (isoDate o)])
   /\ finishMessage s1 = finishMessage s ++ [("good", LevelComplete next)]
   /\ defaultLevelName s1 = defaultLevelName s
   /\ scoreTotal s1 = scoreTotal s
   /\ intervals s1 = intervals (timerCleared s))
  /\ defaultLevelName s2 = next /\ levelSelect s2 = next
  /\ defaultLevelSeconds s2 = lvls next
  /\ finishMessage s2 = []
  /\ scoreGot s2 = scoreGot s + 1
  /\ scoreTotal s2 = scoreTotal s + Z.of_nat (length (wordsByLevel next))
  /\ In (theWord s2) (wordsByLevel next)
  /\ S (length (currentWords s2)) = length (wordsByLevel next)
  /\ timeLeftSpan s2 = lvls next + 3
  /\ currentTimer s2 = Some (S (nextHandle s))
  /\ intervals s2 = intervals s1 ++ [S (nextHandle s)]
  /\ timeouts s2 = timeouts (timerCleared s)
  /\ localStorage s2 = localStorage s1.
Proof.
  intros (F1 & F2 & F3) E W N H P SB TB s1 s2.
  destruct (timerCleared_frame s)
    as (W1 & G1 & _ & _ & H1 & _ & L1 & _ & _ & _ & T1 & S1 & M1).
  set (a := answered true (timerCleared s)).
  destruct (history_with_entry items a "win" (isoDate o) P) as (text & TA);
    [subst a; cbn; rewrite G1; lia | subst a; cbn; rewrite T1; exact TB |].
  assert (s1 = snd (endGame "win" o a)) as E1.
  { subst s1. unfold step. rewrite (enter_equal o s E).
    rewrite handleCorrectAnswer_last by (rewrite W1; exact W). reflexivity. }
  assert (storedHistory a items) as HA.
  { unfold storedHistory in *. rewrite <- H.
    apply getScoreHistory_storage. subst a. cbn. exact S1. }
  assert (Json.stringify
            (JArray (items ++ [scoreData (scoreGot s + 1) (scoreTotal s)
                                 (defaultLevelName s) "win" (isoDate o)]))
          = Some text) as T.
  { rewrite <- TA. unfold historyWith. subst a. cbn.
    rewrite G1, T1, L1. reflexivity. }
  assert (at_ levelProgression
            (indexOf (defaultLevelName a) levelProgression + 1) = Some next)
    as NA by (subst a; cbn; rewrite L1; exact N).
  rewrite (endGame_advances o a items text next NA HA TA) in E1.
  cbn [snd] in E1.
  assert (nextHandle a = nextHandle s) as NH by (subst a; cbn; exact H1).
  assert (forall h u, In (h, u) (timeouts a) -> (h < nextHandle s)%nat) as FA.
  { intros h u I. subst a. cbn in I. apply (F2 h u).
    revert I. unfold timerCleared.
    destruct (currentTimer s); cbn; [|tauto].
    intros I. apply removeTask_In in I. tauto. }
  destruct (find_fresh_task (nextHandle s) (StartLevel next) (timeouts a) FA)
    as (FF & RR).
  rewrite NH in E1.
  assert (s2 = snd (startLevelCallback next o'
                      (set_timeouts (timeouts a) s1))) as E2.
  { subst s2. rewrite E1. unfold step, dispatch.
    cbv beta iota zeta delta [bind ret read write ask]. cbn [fst snd].
    cbn [timeouts set_timeouts set_nextHandle]. rewrite FF.
    cbv beta iota zeta delta [bind ret read write ask runTask].
    cbn [fst snd]. cbn [timeouts set_timeouts set_nextHandle].
    rewrite RR. reflexivity. }
  split.
  { rewrite E1. subst a. cbn. rewrite L1, T1, M1. repeat split.
    now apply (stored_text_reads _ _ text). }
  destruct (advance_bonus o' next (set_timeouts (timeouts a) s1))
    as (_ & A1 & A2 & A3 & _ & A5 & A6 & A7).
  destruct (startLevelCallback_state o' next (set_timeouts (timeouts a) s1))
    as (B1 & B2 & B3 & B4 & B5 & B6 & B7 & _).
  rewrite <- E2 in *.
  rewrite A1, A2, A3, A7, B1, B2, B3, B4, B5, B6, B7.
  rewrite E1. subst a. cbn. rewrite G1, T1.
  repeat split; try reflexivity; assumption.
Qed.

Lemma tier_advance_witness :
  let s := lastEasyWordTyped None in
  let s1 := step sampleOracle (Keydown "Enter") s in
  let s2 := step sampleOracle (TimeoutFires (nextHandle s)) s1 in
  (storedHistory s1
     ([] ++ [scoreData (scoreGot s + 1) (scoreTotal s)
                       (defaultLevelName s) "win" (isoDate sampleOracle)])
   /\ finishMessage s1 = finishMessage s ++ [("good", LevelComplete Normal)]
   /\ defaultLevelName s1 = defaultLevelName s
   /\ scoreTotal s1 = scoreTotal s
   /\ intervals s1 = intervals (timerCleared s))
  /\ defaultLevelName s2 = Normal /\ levelSelect s2 = Normal
  /\ defaultLevelSeconds s2 = lvls Normal
  /\ finishMessage s2 = []
  /\ scoreGot s2 = scoreGot s + 1
  /\ scoreTotal s2 = scoreTotal s + Z.of_nat (length (wordsByLevel Normal))
  /\ In (theWord s2) (wordsByLevel Normal)
  /\ S (length (currentWords s2)) = length (wordsByLevel Normal)
  /\ timeLeftSpan s2 = lvls Normal + 3
  /\ currentTimer s2 = Some (S (nextHandle s))
  /\ intervals s2 = intervals s1 ++ [S (nextHandle s)]
  /\ timeouts s2 = timeouts (timerCleared s)
  /\ localStorage s2 = localStorage s1.
Proof.
  refine (tier_advance sampleOracle sampleOracle (lastEasyWordTyped None)
            [] Normal (lastEasyWordTyped_fresh None) _ _ _ _ _ _ _).
  - vm_compute. reflexivity.
  - vm_compute. reflexivity.
  - vm_compute. reflexivity.
  - vm_compute. reflexivity.
  - vm_compute. discriminate.
  - vm_compute. reflexivity.
  - vm_compute. reflexivity.
Defined.

Lemma step_no_game_over (o : oracle) (e : event) (s : state) :
  (forall c, ~ In (c, GameOver) (finishMessage s)) ->
  forall c, ~ In (c, GameOver) (finishMessage (step o e s)).
Proof.
  intros H c.
  destruct e; all_cases; try exact (H c);
    try match goal with
        | B : String.eqb _ _ = false |- _ => cbn in B; discriminate B
        end;
    intros I;
    try (apply in_app_or in I; destruct I as [I|[I|[]]]);
    try (eapply H; exact I); try discriminate I; try contradiction.
Qed.

(** X7. The game is never lost.  [endGame] is only ever called with the
    outcome "win", by the two answer handlers: in no state the game
    reaches is the "Game Over" message on display, under any class. *)
Theorem game_over_never_shown (m : markup) (st : option string) (a : bool)
        (s : state) :
  reachable (loaded m st a) s ->
  forall c, ~ In (c, GameOver) (finishMessage s).
Proof.
  intros R. induction R as [|s o e R IH].
  - intros c [].
  - apply step_no_game_over, IH.
Qed.

Lemma game_over_never_shown_witness :
  finishMessage wonGame <> []
  /\ forall c, ~ In (c, GameOver) (finishMessage wonGame).
Proof.
  split.
  - vm_compute. discriminate.
  - exact (game_over_never_shown emptyMarkup None true wonGame
             wonGame_reachable).
Defined.

(** ** Invariants of the page *)

Lemma step_levelInSync (o : oracle) (e : event) (s : state) :
  levelInSync s -> levelInSync (step o e s).
Proof.
  unfold levelInSync. intros H.
  destruct e; all_cases; solve [exact H | repeat split; reflexivity].
Qed.

(** X8. The level shown is the level in play.  On a page whose level
    select starts on Easy, in every state the game reaches the per-word
    budget, the level select, the level name shown and the seconds shown
    are those of the level in play: a manual change and the automatic
    advance update all of them together. *)
Theorem level_displays_in_sync (m : markup) (st : option string) (a : bool)
        (s : state) :
  selected m = Easy -> reachable (loaded m st a) s -> levelInSync s.
Proof.
  intros E R. induction R as [|s o e R IH].
  - unfold levelInSync. cbn. rewrite E. repeat split; reflexivity.
  - apply step_levelInSync, IH.
Qed.

Lemma level_displays_in_sync_witness :
  defaultLevelName wonGame = Hard /\ levelInSync wonGame.
Proof.
  split.
  - vm_compute. reflexivity.
  - exact (level_displays_in_sync emptyMarkup None true wonGame eq_refl
             wonGame_reachable).
Defined.

Lemma step_pool_within_level (o : oracle) (e : event) (s : state) :
  incl (currentWords s) (wordsByLevel (defaultLevelName s)) ->
  incl (currentWords (step o e s))
       (wordsByLevel (defaultLevelName (step o e s))).
Proof.
  intros H.
  destruct e; all_cases;
    try exact H; try apply incl_refl;
    intros x I; first [ apply H; eapply splice1_incl; exact I
                      | eapply splice1_incl; exact I ].
Qed.

(** X9. The pool belongs to the level in play.  In every state the game
    reaches, the pool lists no word twice and every word in it is a word
    of the level in play: a word of another tier is never drawn. *)
Theorem pool_within_level (m : markup) (st : option string) (a : bool)
        (s : state) :
  reachable (loaded m st a) s ->
  NoDup (currentWords s)
  /\ incl (currentWords s) (wordsByLevel (defaultLevelName s)).
Proof.
  intros R. split.
  - apply (reachable_pool_NoDup (loaded m st a));
      [apply loaded_pool_NoDup | exact R].
  - induction R as [|s o e R IH].
    + apply incl_refl.
    + apply step_pool_within_level, IH.
Qed.

Lemma pool_within_level_witness :
  NoDup (currentWords firstRound)
  /\ incl (currentWords firstRound) (wordsByLevel (defaultLevelName firstRound)).
Proof.
  exact (pool_within_level emptyMarkup None true firstRound
           firstRound_reachable).
Defined.

Lemma draw_none (o : oracle) (words : list string) :
  nth_error words (floorTimes (nextRandom o) (length words)) = None ->
  words = [].
Proof.
  intros E. destruct words as [|x l]; [reflexivity|].
  destruct (pool_draw o (x :: l)) as (w & F & _); [discriminate|].
  congruence.
Qed.

Lemma step_target_not_upcoming (o : oracle) (e : event) (s : state) :
  NoDup (currentWords s) ->
  ~ In (theWord s) (upcomingWords s) ->
  ~ In (theWord (step o e s)) (upcomingWords (step o e s)).
Proof.
  intros D H.
  destruct e; all_cases; try exact H;
    try match goal with
        | E : nth_error _ _ = Some _ |- _ =>
          cbn in E; apply splice1_removes in E;
          [exact E | first [exact D | apply wordsByLevel_NoDup]]
        | E : nth_error _ _ = None |- _ =>
          cbn in E; apply draw_none in E;
          first [ exfalso; eapply wordsByLevel_nonempty; exact E
                | intros I; apply splice1_incl in I; rewrite E in I; exact I ]
        end.
Qed.

(** X10. The word to type is never among the upcoming words.  In every
    state the game reaches, the list of upcoming words does not contain the
    word on display: a word is taken out of the pool before the list is
    shown, and no tier lists a word twice. *)
Theorem target_not_among_upcoming (m : markup) (st : option string)
        (a : bool) (s : state) :
  reachable (loaded m st a) s -> ~ In (theWord s) (upcomingWords s).
Proof.
  intros R.
  assert (NoDup (currentWords s) /\ ~ In (theWord s) (upcomingWords s)) as G;
    [|tauto].
  induction R as [|s o e R [D IH]].
  - split; [apply loaded_pool_NoDup | intros []].
  - split; [now apply step_pool_NoDup | now apply step_target_not_upcoming].
Qed.

Lemma target_not_among_upcoming_witness :
  length (upcomingWords firstRound) = 29%nat
  /\ ~ In (theWord firstRound) (upcomingWords firstRound).
Proof.
  split.
  - vm_compute. reflexivity.
  - exact (target_not_among_upcoming emptyMarkup None true firstRound
             firstRound_reachable).
Defined.

(** X11. The upcoming list holds the pool.  Whenever an event other than a
    manual change of level changes the pool, the element of the upcoming
    words holds exactly the pool afterwards, and the event neither removes
    that element from the page nor puts it back: the list is on display
    afterwards exactly when the element was in the page before (it is
    taken out of the page at the end of the last tier). *)
Theorem upcoming_shows_pool (o : oracle) (e : event) (s : state) :
  (forall v, e <> Change v) ->
  currentWords (step o e s) <> currentWords s ->
  upcomingWords (step o e s) = currentWords (step o e s)
  /\ upcomingAttached (step o e s) = upcomingAttached s.
Proof.
  intros C.
  destruct e; try (exfalso; eapply C; reflexivity);
    all_cases; intros H; first [split; reflexivity | congruence].
Qed.

Lemma upcoming_shows_pool_witness :
  upcomingWords (step sampleOracle ClickStart (loaded emptyMarkup None true))
  = currentWords (step sampleOracle ClickStart (loaded emptyMarkup None true))
  /\ upcomingAttached
       (step sampleOracle ClickStart (loaded emptyMarkup None true))
     = upcomingAttached (loaded emptyMarkup None true).
Proof.
  apply upcoming_shows_pool.
  - discriminate.
  - vm_compute. discriminate.
Defined.



(** ** The score *)

(** X13. What earns a point.  An event adds exactly one to the score when
    it is Enter, or the tick of a live timer that takes the countdown to
    zero, while the field equals the word on display, letter case aside;
    every other event leaves the score as it is.  In particular a word
    typed in full and not submitted is counted when its time runs out, and
    the score never goes down. *)
Theorem score_changes (o : oracle) (e : event) (s : state) :
  scoreGot (step o e s)
  = if scores e s then scoreGot s + 1 else scoreGot s.
Proof.
  destruct e as [v|t|v|key| |h|h]; cbn [scores];
    try (all_cases; reflexivity).
  - unfold scores. destruct (String.eqb key "Enter") eqn:K.
    + apply String.eqb_eq in K. subst key. cbn [andb].
      destruct (ciEqual (inputValue s) (theWord s)) eqn:E.
      * destruct (resolves_facts o true _ _ (enter_resolves o s E)) as (G & _).
        rewrite G. now destruct (timerCleared_frame s) as (_ & -> & _).
      * now destruct (enter_pending o s E) as (_ & _ & _ & _ & -> & _).
    + apply String.eqb_neq in K. now rewrite keydown_other.
  - unfold scores.
    destruct (existsb (Nat.eqb h) (intervals s)) eqn:L; cbn [andb].
    + apply existsb_exists in L as (x & L & X).
      apply Nat.eqb_eq in X. subst x.
      destruct (timeLeftSpan s =? 1) eqn:T; cbn [andb].
      * apply Z.eqb_eq in T.
        destruct (resolves_facts o _ _ _ (timeout_resolves o h s L T))
          as (G & _).
        rewrite G.
        destruct (timerCleared_frame (set_timeLeftSpan 0 s)) as (_ & -> & _).
        reflexivity.
      * apply Z.eqb_neq in T. unfold step.
        now rewrite (earlier_tick o h s L T).
    + rewrite not_live_no_tick; [reflexivity|].
      intros I.
      assert (existsb (Nat.eqb h) (intervals s) = true) as C; [|congruence].
      apply existsb_exists. exists h. split; [exact I | apply Nat.eqb_refl].
Qed.

(** X14. A wrong answer costs the point and nothing else.  On a pool that
    is not empty, the state after an answer handled as correct is the
    state after the same answer handled as wrong with the score one
    higher: the same next word is drawn, the same timer started; both
    handlers return. *)
Theorem wrong_answer_costs_the_point (o : oracle) (r : state) :
  currentWords r <> [] ->
  snd (handleCorrectAnswer o r)
  = set_scoreGot (scoreGot r + 1) (snd (handleWrongAnswer o r))
  /\ fst (handleCorrectAnswer o r) = Ret tt
  /\ fst (handleWrongAnswer o r) = Ret tt.
Proof.
  intros W. apply pool_guard in W.
  unfold handleCorrectAnswer, handleWrongAnswer, resetInputError,
    incrementScore, generateNextWord, getRandomWord, displayCurrentWord,
    displayUpcomingWords, startTimer, setInterval.
  cbv beta iota zeta delta [bind ret read write ask]. cbn [fst snd].
  cbn -[floorTimes Nat.ltb]. rewrite W. cbn -[floorTimes].
  repeat split; reflexivity.
Qed.

Lemma wrong_answer_costs_the_point_witness :
  snd (handleCorrectAnswer sampleOracle firstRound)
  = set_scoreGot (scoreGot firstRound + 1)
      (snd (handleWrongAnswer sampleOracle firstRound))
  /\ fst (handleCorrectAnswer sampleOracle firstRound) = Ret tt
  /\ fst (handleWrongAnswer sampleOracle firstRound) = Ret tt.
Proof.
  apply (wrong_answer_costs_the_point sampleOracle firstRound).
  vm_compute. discriminate.
Defined.

(** ** Typing *)

Lemma append_assoc_char (p : string) (c : ascii) (r : string) :
  ((p ++ String c "") ++ r)%string = (p ++ String c r)%string.
Proof. induction p as [|d p IH]; simpl; [reflexivity | now rewrite IH]. Qed.

Lemma append_empty (p : string) : (p ++ "")%string = p.
Proof. induction p as [|d p IH]; simpl; [reflexivity | now rewrite IH]. Qed.

Lemma ciPrefix_append (p r t : string) :
  ciPrefix (p ++ r) t = true -> ciPrefix p t = true.
Proof.
  revert t. induction p as [|a p IH]; intros t H; [reflexivity|].
  destruct t as [|b t]; simpl in *; [discriminate|].
  apply andb_true_iff in H as [H1 H2]. rewrite H1. simpl. now apply IH.
Qed.

(** One keystroke at the end of a field that holds a prefix of the word:
    it is kept when the field is still a prefix, and taken back with the
    error mark set otherwise. *)
Lemma keystroke_at_end (o : oracle) (c : ascii) (s : state) :
  ciPrefix (inputValue s) (theWord s) = true ->
  let s' := step o (Input (inputValue s ++ String c "")) s in
  theWord s' = theWord s
  /\ (if ciPrefix (inputValue s ++ String c "") (theWord s)
      then inputValue s' = (inputValue s ++ String c "")%string
           /\ inputError s' = false
      else inputValue s' = inputValue s /\ inputError s' = true).
Proof.
  intros P s'. subst s'.
  destruct (input_validation o (inputValue s ++ String c "") s)
    as (A & B & W & _).
  split; [exact W|].
  destruct (ciPrefix (inputValue s ++ String c "") (theWord s)) eqn:Q.
  - destruct B as (B1 & B2); [now right|]. now split.
  - destruct A as (A1 & A2 & _); [destruct (inputValue s); discriminate
                                 | reflexivity |].
    split; [|exact A1]. rewrite A2. apply sliceButLast_append.
Qed.

(** X15. Typing at the end keeps the field a prefix of the word.  When the
    field holds a prefix of the word on display, letter case aside, then
    whatever characters of one code unit below 256 are typed at its end,
    one input event per character, the field holds such a prefix afterwards and the word on
    display is the same. *)
Theorem typed_field_stays_prefix (o : oracle) (cs : string) (s : state) :
  ciPrefix (inputValue s) (theWord s) = true ->
  ciPrefix (inputValue (typeKeys o cs s)) (theWord (typeKeys o cs s)) = true
  /\ theWord (typeKeys o cs s) = theWord s.
Proof.
  revert s. induction cs as [|c r IH]; intros s P; [now split|].
  cbn [typeKeys].
  destruct (keystroke_at_end o c s P) as (W & K).
  set (s1 := step o (Input (inputValue s ++ String c "")) s) in *.
  assert (ciPrefix (inputValue s1) (theWord s1) = true) as P1.
  { rewrite W.
    destruct (ciPrefix (inputValue s ++ String c "") (theWord s)) eqn:Q;
      destruct K as (K1 & _); rewrite K1; assumption. }
  destruct (IH s1 P1) as (I1 & I2). split; [exact I1 | congruence].
Qed.

Lemma typed_field_stays_prefix_witness :
  inputValue (typeKeys sampleOracle "jxuy" firstRound) = "ju"
  /\ ciPrefix (inputValue (typeKeys sampleOracle "jxuy" firstRound))
              (theWord (typeKeys sampleOracle "jxuy" firstRound)) = true
  /\ theWord (typeKeys sampleOracle "jxuy" firstRound) = theWord firstRound.
Proof.
  split.
  - vm_compute. reflexivity.
  - apply (typed_field_stays_prefix sampleOracle "jxuy" firstRound).
    vm_compute. reflexivity.
Defined.

(** X16. Typing the word fills the field with it.  From an empty field,
    typing the characters of the word on display one after the other, in
    any letter case, leaves exactly what was typed in the field, with no
    error mark when the word is not empty; the field then equals the word,
    letter case aside, so that Enter counts it. *)
Theorem typing_the_word_fills_the_field (o : oracle) (w : string) (s : state) :
  inputValue s = "" -> ciEqual w (theWord s) = true ->
  inputValue (typeKeys o w s) = w
  /\ ciEqual (inputValue (typeKeys o w s)) (theWord (typeKeys o w s)) = true
  /\ (w <> "" -> inputError (typeKeys o w s) = false).
Proof.
  intros V E.
  assert (forall r s, ciPrefix (inputValue s ++ r) (theWord s) = true ->
            inputValue (typeKeys o r s) = (inputValue s ++ r)%string
            /\ theWord (typeKeys o r s) = theWord s
            /\ (r <> "" -> inputError (typeKeys o r s) = false)) as G.
  { clear. induction r as [|c r IH]; intros s P.
    - cbn. rewrite append_empty. repeat split. congruence.
    - cbn [typeKeys].
      assert (ciPrefix (inputValue s ++ String c "") (theWord s) = true) as Q.
      { apply (ciPrefix_append _ r). now rewrite append_assoc_char. }
      destruct (keystroke_at_end o c s (ciPrefix_append _ _ _ P)) as (W & K).
      rewrite Q in K. destruct K as (K1 & K2).
      set (s1 := step o (Input (inputValue s ++ String c "")) s) in *.
      destruct (IH s1) as (I1 & I2 & I3).
      { rewrite K1, W, append_assoc_char. exact P. }
      rewrite I1, I2, K1, append_assoc_char. repeat split; [exact W|].
      intros _. destruct r as [|d r']; [exact K2 | apply I3; discriminate]. }
  destruct (G w s) as (G1 & G2 & G3).
  { rewrite V. cbn. now apply ciEqual_prefix. }
  rewrite V in G1. cbn in G1.
  rewrite G1, G2. repeat split; assumption.
Qed.

Lemma typing_the_word_witness :
  inputValue (typeKeys sampleOracle "JUMP" firstRound) = "JUMP"
  /\ ciEqual (inputValue (typeKeys sampleOracle "JUMP" firstRound))
             (theWord (typeKeys sampleOracle "JUMP" firstRound)) = true
  /\ ("JUMP" <> "" -> inputError (typeKeys sampleOracle "JUMP" firstRound) = false).
Proof.
  apply (typing_the_word_fills_the_field sampleOracle "JUMP" firstRound).
  - vm_compute. reflexivity.
  - vm_compute. reflexivity.
Defined.

(** X17. The error mark goes away by itself.  [showInputError] sets the
    error mark and schedules its removal; when that callback runs the mark
    is removed, the pending callbacks are those there were before, and the
    field and the game are as they were before the error. *)
Theorem error_mark_expires (o o' : oracle) (s : state) :
  handlesFresh s ->
  let s1 := snd (showInputError o s) in
  let s2 := step o' (TimeoutFires (nextHandle s)) s1 in
  inputError s1 = true /\ inputError s2 = false
  /\ timeouts s2 = timeouts s
  /\ inputValue s2 = inputValue s /\ sameGame s s2.
Proof.
  intros (F1 & F2 & F3) s1 s2.
  destruct (find_fresh_task (nextHandle s) RemoveErrorClass (timeouts s) F2)
    as (FF & RR).
  subst s2 s1. unfold step, dispatch, showInputError, playErrorSound,
    setTimeout.
  cbv beta iota zeta delta [bind ret read write ask]. cbn [fst snd].
  cbn [audioSupported set_inputError].
  destruct (audioSupported s); cbn -[find removeTask];
    rewrite FF; cbn -[find removeTask];
    rewrite RR; cbn; repeat split; reflexivity.
Qed.

Lemma error_mark_expires_witness :
  let s := firstRound in
  let s1 := snd (showInputError sampleOracle s) in
  let s2 := step sampleOracle (TimeoutFires (nextHandle s)) s1 in
  inputError s1 = true /\ inputError s2 = false
  /\ timeouts s2 = timeouts s
  /\ inputValue s2 = inputValue s /\ sameGame s s2.
Proof.
  exact (error_mark_expires sampleOracle sampleOracle firstRound
           firstRound_fresh).
Defined.

(** X18. The sound never matters to the game.  Whether the browser has an
    audio context, how many tones were played and what was logged have no
    influence on what an event does to the rest of the state, nor on
    whether the handler returns or throws: a failure of the sound is
    swallowed inside [playErrorSound]. *)
Theorem audio_never_affects_the_game (o : oracle) (e : event) (s : state) :
  silenced (step o e s) = silenced (step o e (silenced s))
  /\ fst (dispatch e o s) = fst (dispatch e o (silenced s)).
Proof.
  unfold silenced.
  destruct e; run_handlers; fields;
    repeat (split_match; fields); split; reflexivity.
Qed.

(** ** The countdown *)

Lemma set_timeLeftSpan_same (s : state) :
  set_timeLeftSpan (timeLeftSpan s) s = s.
Proof. destruct s; reflexivity. Qed.

Lemma ticks_count (o : oracle) (h : handle) (k : nat) (s : state) :
  currentTimer s = Some h -> In h (intervals s) ->
  Z.of_nat k < timeLeftSpan s ->
  ticks o k s = set_timeLeftSpan (timeLeftSpan s - Z.of_nat k) s.
Proof.
  revert s. induction k as [|k IH]; intros s C L B.
  - cbn [ticks]. replace (timeLeftSpan s - Z.of_nat 0) with (timeLeftSpan s)
      by (cbn; lia).
    now rewrite set_timeLeftSpan_same.
  - rewrite Nat2Z.inj_succ in *.
    cbn [ticks]. unfold tick. rewrite C. unfold step.
    rewrite (earlier_tick o h s L) by lia. cbn [snd].
    rewrite IH; [|exact C|exact L|cbn [timeLeftSpan set_timeLeftSpan]; lia].
    cbn [timeLeftSpan set_timeLeftSpan].
    replace (timeLeftSpan s - 1 - Z.of_nat k)
      with (timeLeftSpan s - Z.succ (Z.of_nat k)) by lia.
    reflexivity.
Qed.

(** X19. The countdown.  While the current timer is live and the countdown
    shows n, at least one, the first n - 1 ticks change nothing but the
    countdown, which goes down by one each time; the n-th tick resolves
    the round, as correct when the field equals the word on display,
    letter case aside, and as wrong otherwise. *)
Theorem countdown_by_ticks (o : oracle) (h : handle) (s : state) :
  currentTimer s = Some h -> In h (intervals s) -> 1 <= timeLeftSpan s ->
  (forall k, Z.of_nat k < timeLeftSpan s ->
     ticks o k s = set_timeLeftSpan (timeLeftSpan s - Z.of_nat k) s)
  /\ resolves o (ciEqual (inputValue s) (theWord s))
       (timerCleared (set_timeLeftSpan 0 s)) (letTimeOut o s).
Proof.
  intros C L B. split.
  - intros k K. now apply (ticks_count o h).
  - unfold letTimeOut.
    assert (forall n s, ticks o (S n) s = tick o (ticks o n s)) as SN.
    { induction n as [|n IH]; intros u; [reflexivity|].
      change (ticks o (S (S n)) u) with (ticks o (S n) (tick o u)).
      rewrite IH. reflexivity. }
    destruct (Z.to_nat (timeLeftSpan s)) as [|n] eqn:N; [lia|].
    rewrite SN, (ticks_count o h) by (assumption || lia).
    replace (timeLeftSpan s - Z.of_nat n) with 1 by lia.
    unfold tick. cbn [currentTimer set_timeLeftSpan]. rewrite C.
    exact (timeout_resolves o h (set_timeLeftSpan 1 s) L eq_refl).
Qed.

Lemma countdown_by_ticks_witness :
  timeLeftSpan firstRound = 8
  /\ (forall k, Z.of_nat k < timeLeftSpan firstRound ->
        ticks sampleOracle k firstRound
        = set_timeLeftSpan (timeLeftSpan firstRound - Z.of_nat k) firstRound)
  /\ resolves sampleOracle
       (ciEqual (inputValue firstRound) (theWord firstRound))
       (timerCleared (set_timeLeftSpan 0 firstRound))
       (letTimeOut sampleOracle firstRound).
Proof.
  assert (timeLeftSpan firstRound = 8) as T by (vm_compute; reflexivity).
  assert (currentTimer firstRound = Some 1%nat) as C
      by (vm_compute; reflexivity).
  assert (In 1%nat (intervals firstRound)) as L
      by (vm_compute; left; reflexivity).
  assert (1 <= timeLeftSpan firstRound) as B by (vm_compute; discriminate).
  exact (conj T (countdown_by_ticks sampleOracle 1%nat firstRound C L B)).
Defined.

(** ** The start of a game *)

(** X20. The start button.  In every state the game reaches in which the
    button is still there and the pool is not empty, a click removes the
    button, puts the focus in the field, takes one word out of the pool and
    displays it, fills the element of the upcoming words with the rest of
    the pool (leaving it in the page or out of it as it was), and starts
    one timer, the current one, with the budget of the level in
    play plus three seconds; the score and the total stay as they are, and
    a second click does nothing. *)
Theorem start_click_begins_round (m : markup) (st : option string) (a : bool)
        (o : oracle) (s : state) :
  reachable (loaded m st a) s -> startButton s = true ->
  currentWords s <> [] ->
  let s' := step o ClickStart s in
  startButton s' = false /\ inputFocused s' = true
  /\ In (theWord s') (currentWords s)
  /\ ~ In (theWord s') (currentWords s')
  /\ S (length (currentWords s')) = length (currentWords s)
  /\ upcomingWords s' = currentWords s'
  /\ upcomingAttached s' = upcomingAttached s
  /\ timeLeftSpan s' = lvls (defaultLevelName s) + 3
  /\ currentTimer s' = Some (nextHandle s)
  /\ intervals s' = intervals s ++ [nextHandle s]
  /\ scoreGot s' = scoreGot s /\ scoreTotal s' = scoreTotal s
  /\ step o ClickStart s' = s'.
Proof.
  intros R B W s'.
  pose proof (reachable_pool_NoDup _ s (loaded_pool_NoDup m st a) R) as D.
  assert (secondsOfLevel s) as L
      by (apply (reachable_secondsOfLevel (loaded m st a));
          [reflexivity | exact R]).
  destruct (generateNextWord_next o
              (set_isFirstWord true
                 (set_inputFocused true (set_startButton false s))) W)
    as (w & E & I & G).
  assert (s' = withNextWord o w
                 (set_isFirstWord true
                    (set_inputFocused true (set_startButton false s)))) as S'.
  { subst s'. unfold step, dispatch, handleStartGame.
    cbv beta iota zeta delta [bind ret read write ask]. cbn [fst snd].
    rewrite B. cbv beta iota zeta delta [bind ret read write ask].
    cbn [fst snd]. now rewrite G. }
  cbn in E, I.
  assert (floorTimes (nextRandom o) (length (currentWords s))
          < length (currentWords s))%nat as FB.
  { apply floorTimes_bound.
    destruct (currentWords s); [congruence | simpl; lia]. }
  rewrite S'. unfold step, dispatch.
  cbv beta iota zeta delta [bind ret read write ask]. cbn.
  rewrite <- L.
  repeat split; try reflexivity; try assumption.
  - now apply splice1_removes.
  - now apply splice1_length.
Qed.

Lemma start_click_begins_round_witness :
  let s := step sampleOracle (Change Hard) (loaded emptyMarkup None true) in
  let s' := step sampleOracle ClickStart s in
  startButton s' = false /\ inputFocused s' = true
  /\ In (theWord s') (currentWords s)
  /\ ~ In (theWord s') (currentWords s')
  /\ S (length (currentWords s')) = length (currentWords s)
  /\ upcomingWords s' = currentWords s'
  /\ upcomingAttached s' = upcomingAttached s
  /\ timeLeftSpan s' = lvls (defaultLevelName s) + 3
  /\ currentTimer s' = Some (nextHandle s)
  /\ intervals s' = intervals s ++ [nextHandle s]
  /\ scoreGot s' = scoreGot s /\ scoreTotal s' = scoreTotal s
  /\ step sampleOracle ClickStart s' = s'.
Proof.
  apply (start_click_begins_round emptyMarkup None true sampleOracle
           (step sampleOracle (Change Hard) (loaded emptyMarkup None true))).
  - constructor. constructor.
  - vm_compute. reflexivity.
  - vm_compute. discriminate.
Defined.

(** ** The time a word gets *)

Lemma step_flag_cleared (o : oracle) (e : event) (s : state) :
  (currentTimer s <> None -> isFirstWord s = false) ->
  currentTimer (step o e s) <> None -> isFirstWord (step o e s) = false.
Proof.
  intros H.
  destruct e; all_cases;
    solve [ exact H | reflexivity | intros; reflexivity
          | intros; apply H; congruence ].
Qed.

(** Once a timer has been started the first-word flag is cleared: it is
    set only right before a word is drawn. *)
Lemma reachable_flag_cleared (m : markup) (st : option string) (a : bool)
      (s : state) :
  reachable (loaded m st a) s ->
  currentTimer s <> None -> isFirstWord s = false.
Proof.
  intros R. induction R as [|s o e R IH].
  - intros C. now contradiction C.
  - apply step_flag_cleared, IH.
Qed.

Lemma reachable_typeKeys (s0 s : state) (o : oracle) (cs : string) :
  reachable s0 s -> reachable s0 (typeKeys o cs s).
Proof.
  revert s. induction cs as [|c r IH]; intros s R; [exact R|].
  cbn [typeKeys]. apply IH. now constructor.
Qed.

(** X21. The words after the first get the budget and no more.  In every
    state the game reaches in which a timer has been started and the pool
    is not empty, the word drawn when the round is resolved, by Enter on
    the matching input or by the tick that takes the countdown to zero,
    is given exactly the budget of the level in play. *)
Theorem later_words_get_the_budget (m : markup) (st : option string)
        (a : bool) (o : oracle) (s : state) :
  reachable (loaded m st a) s -> currentTimer s <> None ->
  currentWords s <> [] ->
  (ciEqual (inputValue s) (theWord s) = true ->
   timeLeftSpan (step o (Keydown "Enter") s) = lvls (defaultLevelName s))
  /\ (forall h, In h (intervals s) -> timeLeftSpan s = 1 ->
        timeLeftSpan (step o (IntervalFires h) s)
        = lvls (defaultLevelName s)).
Proof.
  intros R C W.
  pose proof (reachable_flag_cleared m st a s R C) as F.
  assert (secondsOfLevel s) as L
      by (apply (reachable_secondsOfLevel (loaded m st a));
          [reflexivity | exact R]).
  unfold secondsOfLevel in L.
  split.
  - intros E.
    destruct (timerCleared_frame s)
      as (W1 & _ & _ & _ & _ & _ & _ & S1 & F1 & _).
    destruct (later_words_no_bonus o true _ _ (enter_resolves o s E))
      as (T & _); [congruence | congruence |].
    rewrite T, S1. exact L.
  - intros h I T1.
    destruct (timerCleared_frame (set_timeLeftSpan 0 s))
      as (W1 & _ & _ & _ & _ & _ & _ & S1 & F1 & _).
    destruct (later_words_no_bonus o _ _ _ (timeout_resolves o h s I T1))
      as (T & _); [rewrite F1; exact F | rewrite W1; exact W |].
    rewrite T, S1. exact L.
Qed.

Lemma later_words_get_the_budget_witness :
  let s := typeKeys sampleOracle "jump" firstRound in
  timeLeftSpan s = 8
  /\ timeLeftSpan (step sampleOracle (Keydown "Enter") s) = 5.
Proof.
  cbv zeta.
  assert (timeLeftSpan (typeKeys sampleOracle "jump" firstRound) = 8) as T
      by (vm_compute; reflexivity).
  assert (currentTimer (typeKeys sampleOracle "jump" firstRound) <> None)
    as C by (vm_compute; discriminate).
  assert (currentWords (typeKeys sampleOracle "jump" firstRound) <> [])
    as W by (vm_compute; discriminate).
  assert (ciEqual (inputValue (typeKeys sampleOracle "jump" firstRound))
                  (theWord (typeKeys sampleOracle "jump" firstRound)) = true)
    as E by (vm_compute; reflexivity).
  assert (lvls (defaultLevelName (typeKeys sampleOracle "jump" firstRound)) = 5)
    as B by (vm_compute; reflexivity).
  pose proof (proj1 (later_words_get_the_budget emptyMarkup None true
                       sampleOracle
                       (typeKeys sampleOracle "jump" firstRound)
                       (reachable_typeKeys _ _ sampleOracle "jump"
                          firstRound_reachable) C W) E) as G.
  exact (conj T (eq_trans G B)).
Defined.

(** ** Keys that do not submit *)

(** X22. Typing never changes the game.  Keystrokes, blocked pastes, key
    presses other than an Enter on the matching input and the callbacks
    that remove the error mark leave the level, the pool, the word on
    display, the score, the total, the store, the end message, the timers
    and the countdown as they are, in whatever state and however many of
    them there are. *)
Theorem typing_leaves_the_game (s u : state) :
  keysOnly s u ->
  sameGame s u /\ currentWords u = currentWords s
  /\ scoreGot u = scoreGot s /\ theWord u = theWord s.
Proof.
  intros K. pose proof (keysOnly_sameGame s u K) as G.
  split; [exact G|].
  destruct G as (_ & A & B & C & _). repeat split; assumption.
Qed.

Lemma typing_leaves_the_game_witness :
  let u := step sampleOracle (Keydown "Enter")
             (step sampleOracle (Input "jx") firstRound) in
  inputError u = true
  /\ sameGame firstRound u /\ currentWords u = currentWords firstRound
  /\ scoreGot u = scoreGot firstRound /\ theWord u = theWord firstRound.
Proof.
  cbv zeta.
  assert (inputError (step sampleOracle (Keydown "Enter")
                        (step sampleOracle (Input "jx") firstRound)) = true)
    as M by (vm_compute; reflexivity).
  assert (ciEqual (inputValue (step sampleOracle (Input "jx") firstRound))
                  (theWord (step sampleOracle (Input "jx") firstRound))
          = false) as E by (vm_compute; reflexivity).
  exact (conj M
           (typing_leaves_the_game firstRound _
              (keys_down firstRound _ sampleOracle "Enter"
                 (keys_input firstRound _ sampleOracle "jx"
                    (keys_none firstRound))
                 (or_intror E)))).
Defined.
